(** * AICrossword: the CSP solving engine of [generate.py]

    A shallow embedding of [CrosswordCreator] (node consistency, AC-3,
    the search heuristics and backtracking search) together with the
    properties its specification states about it.

    Conventions of the embedding:
    - a Python [set] is a duplicate-free [list] read in the set's iteration
      order; removing an element keeps the order of the others;
    - [self.domains] and [crossword.overlaps] are dictionaries that are only
      looked up by key, hence [gmap]s; a missing key raises [KeyError];
    - the [assignment] dictionary is iterated by [consistent], hence an
      association list in insertion order;
    - exceptions are explicit: every method returns an [outcome];
    - the standard output of [print] is the list of the texts written;
    - the [while] loop of [ac3] and the recursion of [backtrack] take fuel. *)

From stdpp Require Import gmap strings list fin_maps sorting.
From Stdlib Require Import ZArith Lia Ascii.

Local Open Scope Z_scope.
Local Open Scope nat_scope.
Local Open Scope string_scope.
Local Open Scope list_scope.

(** ** Outcomes: a value, a raised exception, or fuel exhausted *)

Inductive exn := KeyError | IndexError | TypeError | UnboundLocalError.

Inductive outcome (A : Type) :=
  | Ok (a : A)
  | Raise (e : exn)
  | OutOfFuel.
Arguments Ok {A} a.
Arguments Raise {A} e.
Arguments OutOfFuel {A}.

Definition bind {A B} (m : outcome A) (k : A -> outcome B) : outcome B :=
  match m with
  | Ok a => k a
  | Raise e => Raise e
  | OutOfFuel => OutOfFuel
  end.

Notation "'do' x <- m ; k" := (bind m (fun x => k))
  (at level 10, x name, m at level 100, k at level 200, only parsing).
Notation "'do' ' p <- m ; k" := (bind m (fun x => match x with p => k end))
  (at level 10, p pattern, m at level 100, k at level 200, only parsing).

(** [for x in l: s = body(x, s)] where the body may raise. *)
Fixpoint for_each {A S} (body : A -> S -> outcome S) (l : list A) (s : S)
  : outcome S :=
  match l with
  | [] => Ok s
  | x :: l' => do s' <- body x s; for_each body l' s'
  end.

(** ** The grid model ([crossword.py], consumed through its interface) *)

Inductive Direction := ACROSS | DOWN.

(** The class [Variable]; equality is equality of the four attributes. *)
Record Var := mkVar {
  var_i : nat;
  var_j : nat;
  var_direction : Direction;
  var_length : nat
}.

#[global] Instance Direction_eq_dec : EqDecision Direction.
Proof. solve_decision. Defined.

#[global] Instance Var_eq_dec : EqDecision Var.
Proof. solve_decision. Defined.

#[global] Instance Var_countable : Countable Var.
Proof.
  refine (inj_countable'
    (fun v => (var_i v, var_j v,
               match var_direction v with ACROSS => true | DOWN => false end,
               var_length v))
    (fun t => match t with
              | (i, j, b, n) => mkVar i j (if b then ACROSS else DOWN) n
              end) _).
  intros [i j [] n]; reflexivity.
Defined.

(** An arc of the worklist of [ac3]: an ordered pair of variables. *)
Abbreviation arc := (Var * Var)%type.

(** What the solver reads of a [Crossword]: the set of variables, the
    vocabulary, the [overlaps] dictionary (key: ordered pair of distinct
    variables; value: [None] or a pair of character indices) and the method
    [neighbors], which returns a set of variables. The solver calls
    [neighbors] on variables of the crossword only; the field stands for
    the method wherever it returns. *)
Record Crossword := mkCrossword {
  variables : list Var;
  words : list string;
  overlaps : gmap (Var * Var) (option (nat * nat));
  neighbors : Var -> list Var
}.

(** Modelled from the spec: [crossword.py] is not part of the sources. The
    specification gives [neighbors(v)] as the set of variables that have a
    defined overlap with [v]; the order is that of the variable set. *)
Definition neighbors_of (vars : list Var)
    (ov : gmap (Var * Var) (option (nat * nat))) (v : Var) : list Var :=
  filter (fun n => n ≠ v ∧ is_Some (mjoin (ov !! (n, v)))) vars.

(** Modelled from the spec: the properties the specification states of the
    grid model (variables and words are sets, an overlap is a symmetric pair
    of intra-word indices defined for distinct variables, and neighbors are
    the variables with a defined overlap). *)
Record crossword_wf (cw : Crossword) : Prop := {
  wf_variables : NoDup (variables cw);
  wf_words : NoDup (words cw);
  wf_overlaps_keys : forall x y,
    is_Some (overlaps cw !! (x, y)) <->
    x ∈ variables cw ∧ y ∈ variables cw ∧ x ≠ y;
  wf_overlaps_sym : forall x y a b,
    overlaps cw !! (x, y) = Some (Some (a, b)) ->
    overlaps cw !! (y, x) = Some (Some (b, a));
  wf_overlaps_bounds : forall x y a b,
    overlaps cw !! (x, y) = Some (Some (a, b)) ->
    a < var_length x ∧ b < var_length y;
  wf_neighbors_set : forall v, v ∈ variables cw -> NoDup (neighbors cw v);
  wf_neighbors : forall v n, v ∈ variables cw ->
    (n ∈ neighbors cw v <->
     n ≠ v ∧ ∃ ab, overlaps cw !! (n, v) = Some (Some ab))
}.

(** ** Python containers *)

(** [s.remove(w)] on a set: [KeyError] when [w] is absent. *)
Definition set_remove (w : string) (s : list string) : outcome (list string) :=
  if decide (w ∈ s) then Ok (filter (fun w' => w' ≠ w) s) else Raise KeyError.

(** [s == 0] for a set [s]: a set never equals an integer. *)
Definition set_eq_int (s : list string) (n : Z) : bool := false.

(** [word[k]] for [0 <= k]: [IndexError] past the end. *)
Definition str_index (s : string) (k : nat) : outcome Ascii.ascii :=
  match String.get k s with
  | Some c => Ok c
  | None => Raise IndexError
  end.

(** An assignment: the entries of the dictionary, in insertion order. *)
Abbreviation Assignment := (list (Var * string)).

Fixpoint dict_get (a : Assignment) (v : Var) : option string :=
  match a with
  | [] => None
  | (k, w) :: a' => if decide (k = v) then Some w else dict_get a' v
  end.

(** [v in assignment] *)
Definition dict_mem (a : Assignment) (v : Var) : bool :=
  match dict_get a v with Some _ => true | None => false end.

(** [assignment[v] = w]: a new key goes last, a known key keeps its place. *)
Fixpoint dict_set (a : Assignment) (v : Var) (w : string) : Assignment :=
  match a with
  | [] => [(v, w)]
  | (k, w') :: a' =>
      if decide (k = v) then (k, w) :: a' else (k, w') :: dict_set a' v w
  end.

(** [del assignment[v]]: [KeyError] when [v] is absent. *)
Fixpoint dict_del (a : Assignment) (v : Var) : outcome Assignment :=
  match a with
  | [] => Raise KeyError
  | (k, w) :: a' =>
      if decide (k = v) then Ok a'
      else do a'' <- dict_del a' v; Ok ((k, w) :: a'')
  end.

(** [assignment[v]] *)
Definition dict_index (a : Assignment) (v : Var) : outcome string :=
  match dict_get a v with
  | Some w => Ok w
  | None => Raise KeyError
  end.

(** [self.domains[v]] *)
Definition domains_get (d : gmap Var (list string)) (v : Var)
  : outcome (list string) :=
  match d !! v with
  | Some s => Ok s
  | None => Raise KeyError
  end.

(** [self.crossword.overlaps[x, y]] *)
Definition overlaps_get (cw : Crossword) (x y : Var)
  : outcome (option (nat * nat)) :=
  match overlaps cw !! (x, y) with
  | Some o => Ok o
  | None => Raise KeyError
  end.

(** ** CrosswordCreator *)

(** [__init__]: every variable starts with a copy of the vocabulary. *)
Definition init_domains (cw : Crossword) : gmap Var (list string) :=
  foldl (fun d var => <[var := words cw]> d) ∅ (variables cw).

(** The loop body of [enforce_node_consistency] for one variable. *)
Definition node_consistency_step (var : Var) (d : gmap Var (list string))
  : outcome (gmap Var (list string)) :=
  do dv <- domains_get d var;
  let to_remove :=
    filter (fun word => String.length word ≠ var_length var) dv in
  do dv' <- for_each set_remove to_remove dv;
  Ok (<[var := dv']> d).

Definition enforce_node_consistency (cw : Crossword)
    (d : gmap Var (list string)) : outcome (gmap Var (list string)) :=
  for_each node_consistency_step (variables cw) d.

(** The inner loop body of [revise]: one word of the domain of [y]. *)
Definition overlapping_step (c1 : Ascii.ascii) (b : nat) (w : string)
    (overlapping : bool) : outcome bool :=
  do c <- str_index w b;
  Ok (if decide (c = c1) then true else overlapping).

(** The inner loop of [revise]: is there a word of [dy] whose character
    [b] is [c1]? The loop has no [break]: every word of [dy] is indexed. *)
Definition overlapping_with (c1 : Ascii.ascii) (b : nat) (dy : list string)
  : outcome bool :=
  for_each (overlapping_step c1 b) dy false.

(** The outer loop body of [revise]: one word of the domain of [x]. *)
Definition revise_word (d : gmap Var (list string)) (y : Var) (a b : nat)
    (word : string) (st : bool * list string) : outcome (bool * list string) :=
  let '(revision, to_remove) := st in
  do c1 <- str_index word a;
  do dy <- domains_get d y;
  do overlapping <- overlapping_with c1 b dy;
  Ok (if overlapping : bool then (revision, to_remove)
      else (true, to_remove ++ [word])).

Definition revise (cw : Crossword) (x y : Var) (d : gmap Var (list string))
  : outcome (bool * gmap Var (list string)) :=
  if decide (x = y) then Ok (false, d) else
  do overlap <- overlaps_get cw x y;
  match overlap with
  | None => Ok (false, d)
  | Some (a, b) =>
      do dx <- domains_get d x;
      do '(revision, to_remove) <-
        for_each (revise_word d y a b) dx (false, []);
      do dx' <- for_each set_remove to_remove dx;
      Ok (revision, <[x := dx']> d)
  end.

(** [if (neighbor, var) not in arcs: arcs.append((var, neighbor))] *)
Definition add_arc (var : Var) (arcs : list arc) (neighbor : Var) : list arc :=
  if decide ((neighbor, var) ∈ arcs) then arcs else arcs ++ [(var, neighbor)].

(** The loop over the neighbors of [var]. *)
Definition add_arcs (cw : Crossword) (arcs : list arc) (var : Var) : list arc :=
  foldl (add_arc var) arcs (neighbors cw var).

(** The worklist built when [arcs is None]. *)
Definition initial_arcs (cw : Crossword) : list arc :=
  foldl (add_arcs cw) [] (variables cw).

(** The re-enqueue loop of [ac3]. It reads the local [var], which is bound
    only by the loop that builds the initial worklist. *)
Definition requeue (cw : Crossword) (var : option Var) (x y : Var)
    (arcs : list arc) : outcome (list arc) :=
  match var with
  | None => Raise UnboundLocalError
  | Some var =>
      Ok (foldl (fun arcs neighbor =>
            if decide (neighbor ≠ y ∧ (x, neighbor) ∉ arcs)
            then arcs ++ [(x, neighbor)] else arcs)
          arcs (neighbors cw var))
  end.

(** The [while len(arcs) > 0] loop of [ac3]. *)
Fixpoint ac3_loop (cw : Crossword) (fuel : nat) (var : option Var)
    (arcs : list arc) (d : gmap Var (list string))
  : outcome (bool * gmap Var (list string)) :=
  match fuel with
  | 0 => OutOfFuel
  | S fuel =>
      match arcs with
      | [] => Ok (true, d)
      | (x, y) :: arcs =>
          do '(revised, d) <- revise cw x y d;
          if revised : bool then
            do dx <- domains_get d x;
            if set_eq_int dx 0 then Ok (false, d) else
            do arcs <- requeue cw var x y arcs;
            ac3_loop cw fuel var arcs d
          else ac3_loop cw fuel var arcs d
      end
  end.

(** [ac3(arcs)]; [var] is the last variable visited by the initial loop. *)
Definition ac3 (cw : Crossword) (fuel : nat) (arcs : option (list arc))
    (d : gmap Var (list string)) : outcome (bool * gmap Var (list string)) :=
  match arcs with
  | None => ac3_loop cw fuel (last (variables cw)) (initial_arcs cw) d
  | Some arcs => ac3_loop cw fuel None arcs d
  end.

Definition assignment_complete (cw : Crossword) (a : Assignment) : bool :=
  forallb (dict_mem a) (variables cw).

(** The neighbor loop of [consistent] for one assigned variable. Both
    subscripts of the comparison read the same entry [overlaps[var, n]]. *)
Fixpoint check_neighbors (cw : Crossword) (a : Assignment) (var : Var)
    (ns : list Var) : outcome bool :=
  match ns with
  | [] => Ok true
  | n :: ns' =>
      if dict_mem a n then
        do wv <- dict_index a var;
        do overlap <- overlaps_get cw var n;
        match overlap with
        | None => Raise TypeError
        | Some (p, q) =>
            do c1 <- str_index wv p;
            do wn <- dict_index a n;
            do c2 <- str_index wn q;
            if decide (c1 = c2) then check_neighbors cw a var ns'
            else Ok false
        end
      else check_neighbors cw a var ns'
  end.

(** The loop [for var in assignment] of [consistent], with its early
    returns; [seen] is the local list [words]. *)
Fixpoint consistent_loop (cw : Crossword) (a : Assignment)
    (entries : list (Var * string)) (seen : list string) : outcome bool :=
  match entries with
  | [] => Ok true
  | (var, _) :: rest =>
      do w <- dict_index a var;
      if decide (var_length var = String.length w) then
        if decide (w ∈ seen) then Ok false
        else
          do ok <- check_neighbors cw a var (neighbors cw var);
          if ok : bool then consistent_loop cw a rest (seen ++ [w])
          else Ok false
      else Ok false
  end.

Definition consistent (cw : Crossword) (a : Assignment) : outcome bool :=
  consistent_loop cw a a [].

(** [count(pair)]: the sort key of [order_domain_values]. *)
Definition count (pair : string * Z) : Z := pair.2.

(** [list.sort(key=...)] is stable, and so is insertion by key: an element
    goes before the first one whose key is not smaller. *)
Fixpoint insert_by_key {A} (key : A -> Z) (x : A) (l : list A) : list A :=
  match l with
  | [] => [x]
  | y :: l' =>
      if (key x <=? key y)%Z then x :: l else y :: insert_by_key key x l'
  end.

Definition list_sort {A} (key : A -> Z) (l : list A) : list A :=
  foldr (insert_by_key key) [] l.

(** The innermost loop body of [order_domain_values]: one word of one
    neighbor's domain. Subscripting [overlap] raises [TypeError] when the
    entry is [None]. *)
Definition rule_out_word (overlap : option (nat * nat)) (word : string)
    (n_word : string) (count : Z) : outcome Z :=
  match overlap with
  | None => Raise TypeError
  | Some (p, q) =>
      do c1 <- str_index word p;
      do c2 <- str_index n_word q;
      Ok (if decide (c1 = c2) then count else (count + 1)%Z)
  end.

(** The loop body for one neighbor [n] of [var]. *)
Definition rule_out_neighbor (cw : Crossword) (d : gmap Var (list string))
    (var : Var) (a : Assignment) (word : string) (n : Var) (count : Z)
  : outcome Z :=
  if dict_mem a n then Ok count else
  do overlap <- overlaps_get cw var n;
  do dn <- domains_get d n;
  for_each (rule_out_word overlap word) dn count.

(** The value of [count] that [order_domain_values] pairs with [word]. *)
Definition rule_out_count (cw : Crossword) (d : gmap Var (list string))
    (var : Var) (a : Assignment) (word : string) : outcome Z :=
  for_each (rule_out_neighbor cw d var a word) (neighbors cw var) 0%Z.

(** The loop body for one word of the domain of [var]. *)
Definition odv_step (cw : Crossword) (d : gmap Var (list string)) (var : Var)
    (a : Assignment) (word : string) (result : list (string * Z))
  : outcome (list (string * Z)) :=
  do n <- rule_out_count cw d var a word;
  Ok (result ++ [(word, n)]).

Definition order_domain_values (cw : Crossword) (d : gmap Var (list string))
    (var : Var) (a : Assignment) : outcome (list string) :=
  do dv <- domains_get d var;
  do result <- for_each (odv_step cw d var a) dv [];
  Ok (map fst (list_sort count result)).

(** The first loop body of [select_unassigned_variable]. *)
Definition min_domain_body (d : gmap Var (list string)) (a : Assignment)
    (var : Var) (st : Z * list Var) : outcome (Z * list Var) :=
  let '(min, min_domain_vars) := st in
  if dict_mem a var then Ok (min, min_domain_vars) else
  do dv <- domains_get d var;
  let n := Z.of_nat (length dv) in
  if (n <? min)%Z then Ok (n, [var])
  else if (n =? min)%Z then Ok (min, min_domain_vars ++ [var])
  else Ok (min, min_domain_vars).

(** The first loop: the unassigned variables whose domain size is the
    smallest seen, starting from [min = 1000000]. *)
Definition min_domain_scan (cw : Crossword) (d : gmap Var (list string))
    (a : Assignment) : outcome (Z * list Var) :=
  for_each (min_domain_body d a) (variables cw) (1000000%Z, []).

(** The second loop: the first variable with the fewest neighbors. *)
Definition min_degree_scan (cw : Crossword) (vars : list Var)
  : Z * option Var :=
  foldl (fun '(min_n, min_var) var =>
    let k := Z.of_nat (length (neighbors cw var)) in
    if (k <? min_n)%Z then (k, Some var) else (min_n, min_var))
    (1000000%Z, None) vars.

(** The result is [None] when no variable was kept by the loops. *)
Definition select_unassigned_variable (cw : Crossword)
    (d : gmap Var (list string)) (a : Assignment) : outcome (option Var) :=
  do '(_, min_domain_vars) <- min_domain_scan cw d a;
  match min_domain_vars with
  | [v] => Ok (Some v)
  | _ => Ok (min_degree_scan cw min_domain_vars).2
  end.

(** The loop [for value in ...] of [backtrack]; [rec] is the recursive
    call. The dictionary is shared by all the calls: a result pairs its
    final state with whether the call returned it ([true]) or [None]
    ([false]). *)
Fixpoint try_values (cw : Crossword)
    (rec : Assignment -> outcome (Assignment * bool)) (var : Var)
    (values : list string) (a : Assignment) : outcome (Assignment * bool) :=
  match values with
  | [] => Ok (a, false)
  | value :: values' =>
      let a := dict_set a var value in
      do ok <- consistent cw a;
      if ok : bool then
        do '(a, found) <- rec a;
        if found : bool then Ok (a, true)
        else do a <- dict_del a var; try_values cw rec var values' a
      else do a <- dict_del a var; try_values cw rec var values' a
  end.

(** [backtrack(assignment)]. When no variable is selected,
    [self.domains[None]] raises [KeyError]. *)
Fixpoint backtrack (cw : Crossword) (d : gmap Var (list string))
    (fuel : nat) (a : Assignment) : outcome (Assignment * bool) :=
  match fuel with
  | 0 => OutOfFuel
  | S fuel =>
      if assignment_complete cw a then Ok (a, true) else
      do sel <- select_unassigned_variable cw d a;
      match sel with
      | None => Raise KeyError
      | Some var =>
          do values <- order_domain_values cw d var a;
          try_values cw (backtrack cw d fuel) var values a
      end
  end.

(** [solve()]: the value returned is the shared dictionary or [None]. *)
Definition solve (cw : Crossword) (fuel : nat) : outcome (option Assignment) :=
  do d <- enforce_node_consistency cw (init_domains cw);
  do '(_, d) <- ac3 cw fuel None d;
  do '(a, found) <- backtrack cw d fuel [];
  Ok (if found : bool then Some a else None).

(** ** A two-slot grid

    The structure
<<
      _##
      ___
      _##
>>
    has the across slot [(1,0)] and the down slot [(0,0)], both of length
    3, crossing at cell [(1,0)]: character 0 of the across word is
    character 1 of the down word. *)

Definition slot_across : Var := mkVar 1 0 ACROSS 3.
Definition slot_down : Var := mkVar 0 0 DOWN 3.

Definition two_slot_overlaps : gmap (Var * Var) (option (nat * nat)) :=
  {[ (slot_across, slot_down) := Some (0, 1);
     (slot_down, slot_across) := Some (1, 0) ]}.

Definition two_slot (vars : list Var) (ws : list string) : Crossword :=
  mkCrossword vars ws two_slot_overlaps (neighbors_of vars two_slot_overlaps).

Definition across_first : list Var := [slot_across; slot_down].
Definition down_first : list Var := [slot_down; slot_across].

(** ** Specification predicates *)

(** The three hard constraints on a (partial) assignment. *)
Record assignment_valid (cw : Crossword) (a : Assignment) : Prop := {
  valid_lengths : forall v w,
    dict_get a v = Some w -> String.length w = var_length v;
  valid_distinct : forall u v w,
    dict_get a u = Some w -> dict_get a v = Some w -> u = v;
  valid_overlaps : forall u v wu wv p q,
    dict_get a u = Some wu -> dict_get a v = Some wv ->
    overlaps cw !! (u, v) = Some (Some (p, q)) ->
    ∃ c, String.get p wu = Some c ∧ String.get q wv = Some c
}.

Definition assignment_is_complete (cw : Crossword) (a : Assignment) : Prop :=
  forall v, v ∈ variables cw -> is_Some (dict_get a v).

(** [len(self.domains[v])] and [len(neighbors(v))] *)
Definition domain_size (d : gmap Var (list string)) (v : Var) : Z :=
  match d !! v with Some dv => Z.of_nat (length dv) | None => 0 end.

Definition degree (cw : Crossword) (v : Var) : Z :=
  Z.of_nat (length (neighbors cw v)).

(** The domain store holds a set of words for every variable, and it is
    node consistent: every word has the length of its slot. *)
Record domains_ok (cw : Crossword) (d : gmap Var (list string)) : Prop := {
  dom_total : Forall (fun v => is_Some (d !! v)) (variables cw);
  dom_sets : map_Forall (fun _ dv => NoDup dv) d;
  dom_node_consistent :
    map_Forall (fun v dv =>
      Forall (fun w => String.length w = var_length v) dv) d
}.

(** The words of [dn] that disagree with [w] at the overlap [(p, q)]. *)
Definition disagreements (p q : nat) (w : string) (dn : list string) : Z :=
  Z.of_nat (length (filter (fun w' => String.get p w ≠ String.get q w') dn)).

Definition ruled_out_over (cw : Crossword) (d : gmap Var (list string))
    (var : Var) (a : Assignment) (w : string) (ns : list Var) : Z :=
  foldr (fun n acc =>
    if dict_mem a n then acc else
    match overlaps cw !! (var, n), d !! n with
    | Some (Some (p, q)), Some dn => (disagreements p q w dn + acc)%Z
    | _, _ => acc
    end) 0%Z ns.

(** The number of values that choosing [w] for [var] rules out among the
    domains of the unassigned neighbors of [var]. *)
Definition ruled_out (cw : Crossword) (d : gmap Var (list string))
    (var : Var) (a : Assignment) (w : string) : Z :=
  ruled_out_over cw d var a w (neighbors cw var).

(** Arcs of the worklist join a variable to one of its neighbors, and no
    arc is there in both directions. *)
Definition one_way (cw : Crossword) (arcs : list arc) : Prop :=
  (forall x y, (x, y) ∈ arcs -> x ∈ variables cw ∧ y ∈ neighbors cw x) ∧
  (forall x y, (x, y) ∈ arcs -> (y, x) ∉ arcs).

(** [w] has a supporting word in the domain of [y]: one that agrees with
    it at the overlap [(a, b)]. *)
Definition supported (d : gmap Var (list string)) (y : Var) (a b : nat)
    (w : string) : Prop :=
  match d !! y with
  | Some dy => Exists (fun w' => String.get a w = String.get b w') dy
  | None => False
  end.

#[global] Instance supported_dec d y a b w : Decision (supported d y a b w).
Proof. unfold supported. destruct (d !! y); apply _. Defined.

(** The assignment [a] takes its values in the domains [d]. *)
Definition within (cw : Crossword) (a : Assignment)
    (d : gmap Var (list string)) : Prop :=
  forall v w, v ∈ variables cw -> dict_get a v = Some w ->
    ∃ dv, d !! v = Some dv ∧ w ∈ dv.

(** Arc consistency of the domain store: every word of a domain has a
    supporting word in the domain of every neighbor. *)
Definition arc_consistent (cw : Crossword) (d : gmap Var (list string))
  : Prop :=
  forall x y dx p q w,
    x ∈ variables cw -> y ∈ neighbors cw x -> d !! x = Some dx ->
    overlaps cw !! (x, y) = Some (Some (p, q)) -> w ∈ dx ->
    supported d y p q w.

(** The order of the keys of a sorted list. *)
Definition key_le {A} (key : A -> Z) (x y : A) : Prop := (key x <= key y)%Z.

(** The entries of the assignment are variables with words of the length
    of their slot. *)
Definition entries_ok (cw : Crossword) (a : Assignment) : Prop :=
  forall v w, (v, w) ∈ a -> v ∈ variables cw ∧ String.length w = var_length v.

(** The bounds under which the two scans of [select_unassigned_variable]
    keep a variable. *)
Record sizes_ok (cw : Crossword) (d : gmap Var (list string)) : Prop := {
  sizes_domains : forall v, v ∈ variables cw -> (domain_size d v <= 1000000)%Z;
  sizes_degrees : Forall (fun v => (degree cw v < 1000000)%Z) (variables cw)
}.

(** Every domain is a part of the vocabulary. *)
Definition bounded (cw : Crossword) (d : gmap Var (list string)) : Prop :=
  map_Forall (fun _ dv => length dv <= length (words cw)) d.

(** ** A vocabulary larger than the start value of [min] *)

(** A vocabulary of 1000001 distinct words of 20 characters: the binary
    digits, least significant first, of 0, ..., 1000000. *)
Fixpoint bits (k : nat) (n : N) : string :=
  match k with
  | 0 => ""
  | S k => String (if N.odd n then "1" else "0")%char (bits k (N.div2 n))
  end.

Definition big_words : list string :=
  map (fun i => bits 20 (N.of_nat i)) (seq 0 (N.to_nat 1000001)).

(** A grid of one row of 20 cells: a single across slot. *)
Definition long_slot : Var := mkVar 0 0 ACROSS 20.

Definition big_crossword : Crossword :=
  mkCrossword [long_slot] big_words ∅ (neighbors_of [long_slot] ∅).

(** ** Fuel *)

(** A computation returns when it does not run out of fuel. *)
Definition returns {A} (m : outcome A) : Prop := m ≠ OutOfFuel.

(** The number of words in the domain store. *)
Definition total_size (d : gmap Var (list string)) : nat :=
  map_fold (fun _ dv n => length dv + n) 0 d.

(** Fuel that suffices for the loop of [ac3]: every iteration pops an arc,
    and a revision, which removes a word, adds at most one arc per
    neighbor of [var]. *)
Definition ac3_fuel (cw : Crossword) (var : option Var) (arcs : list arc)
    (d : gmap Var (list string)) : nat :=
  length arcs
  + S (match var with Some v => length (neighbors cw v) | None => 0 end)
    * total_size d.

(** The variables that the assignment leaves open. *)
Definition unassigned (cw : Crossword) (a : Assignment) : list Var :=
  filter (fun v => dict_get a v = None) (variables cw).


(** ** Rendering: [letter_grid] and [print] *)

(** What [letter_grid] and [print] read of a [Crossword]: the size of the
    grid and its occupancy structure, [true] for a fillable cell. *)
Record Grid := mkGrid {
  height : nat;
  width : nat;
  structure : list (list bool)
}.

(** The 2D array of [letter_grid]: a cell holds [None] or a character. *)
Abbreviation Letters := (list (list (option Ascii.ascii))).

(** [letters[i][j]] *)
Definition letters_get (letters : Letters) (i j : nat)
  : outcome (option Ascii.ascii) :=
  match letters !! i with
  | None => Raise IndexError
  | Some row =>
      match row !! j with
      | None => Raise IndexError
      | Some c => Ok c
      end
  end.

(** [letters[i][j] = c]: [IndexError] outside the array. The rows are
    distinct lists, so no other row changes. *)
Definition letters_set (letters : Letters) (i j : nat) (c : Ascii.ascii)
  : outcome Letters :=
  match letters !! i with
  | None => Raise IndexError
  | Some row =>
      if decide (j < length row)
      then Ok (<[i := <[j := Some c]> row]> letters)
      else Raise IndexError
  end.

(** The inner loop body of [letter_grid]: character [k] of [word]. *)
Definition place_letter (variable : Var) (word : string) (k : nat)
    (letters : Letters) : outcome Letters :=
  let direction := var_direction variable in
  let i := var_i variable + (if decide (direction = DOWN) then k else 0) in
  let j := var_j variable + (if decide (direction = ACROSS) then k else 0) in
  do c <- str_index word k;
  letters_set letters i j c.

(** The outer loop body of [letter_grid]: one entry of the assignment. *)
Definition place_word (entry : Var * string) (letters : Letters)
  : outcome Letters :=
  let '(variable, word) := entry in
  for_each (place_letter variable word) (seq 0 (String.length word)) letters.

Definition letter_grid (g : Grid) (a : Assignment) : outcome Letters :=
  for_each place_word a (replicate (height g) (replicate (width g) None)).

(** [self.crossword.structure[i][j]] *)
Definition structure_get (g : Grid) (i j : nat) : outcome bool :=
  match structure g !! i with
  | None => Raise IndexError
  | Some row =>
      match row !! j with
      | None => Raise IndexError
      | Some b => Ok b
      end
  end.

(** The standard output: the texts written so far. What a call has
    written stays written when a later step raises, so a printing
    function returns the output together with its outcome. *)
Abbreviation Output := (list string).

(** A loop whose body writes to the standard output. *)
Fixpoint for_each_io {A} (body : A -> Output -> Output * outcome unit)
    (l : list A) (out : Output) : Output * outcome unit :=
  match l with
  | [] => (out, Ok tt)
  | x :: l' =>
      match body x out with
      | (out', Ok _) => for_each_io body l' out'
      | r => r
      end
  end.

Definition newline : string := String "010"%char "".

(** The body of the loop over [j]: [print(..., end=<empty>)] of one cell. *)
Definition print_cell (g : Grid) (letters : Letters) (i j : nat)
    (out : Output) : Output * outcome unit :=
  match structure_get g i j with
  | Ok true =>
      match letters_get letters i j with
      | Ok (Some c) => (out ++ [String c ""], Ok tt)
      | Ok None => (out ++ [" "], Ok tt)
      | Raise e => (out, Raise e)
      | OutOfFuel => (out, OutOfFuel)
      end
  | Ok false => (out ++ ["█"], Ok tt)
  | Raise e => (out, Raise e)
  | OutOfFuel => (out, OutOfFuel)
  end.

(** The body of the loop over [i]: the cells of a row, then [print()]. *)
Definition print_row (g : Grid) (letters : Letters) (i : nat) (out : Output)
  : Output * outcome unit :=
  match for_each_io (print_cell g letters i) (seq 0 (width g)) out with
  | (out', Ok _) => (out' ++ [newline], Ok tt)
  | r => r
  end.

Definition print (g : Grid) (a : Assignment) (out : Output)
  : Output * outcome unit :=
  match letter_grid g a with
  | Ok letters => for_each_io (print_row g letters) (seq 0 (height g)) out
  | Raise e => (out, Raise e)
  | OutOfFuel => (out, OutOfFuel)
  end.

(** The two-slot grid and its structure. *)
Definition two_slot_grid : Grid :=
  mkGrid 3 3 [[true; false; false]; [true; true; true]; [true; false; false]].

(** *** Specification predicates for the rendering *)

(** The index of the character that a slot puts in cell [(i, j)]. *)
Definition index_of (variable : Var) (i j : nat) : option nat :=
  match var_direction variable with
  | ACROSS =>
      if decide (i = var_i variable ∧ var_j variable <= j)
      then Some (j - var_j variable) else None
  | DOWN =>
      if decide (j = var_j variable ∧ var_i variable <= i)
      then Some (i - var_i variable) else None
  end.

(** The character that the entry [variable: word] puts in cell [(i, j)]. *)
Definition letter_of (variable : Var) (word : string) (i j : nat)
  : option Ascii.ascii :=
  k ← index_of variable i j; String.get k word.

(** The character of the last entry of the assignment that covers the
    cell [(i, j)], if any. *)
Definition written (a : Assignment) (i j : nat) : option Ascii.ascii :=
  foldl (fun acc '(variable, word) =>
           match letter_of variable word i j with
           | Some c => Some c
           | None => acc
           end) None a.

(** The word lies inside the grid. An empty word has no cell. *)
Definition fits (g : Grid) (entry : Var * string) : Prop :=
  entry.2 = "" ∨
  match var_direction entry.1 with
  | ACROSS => var_i entry.1 < height g ∧
              var_j entry.1 + String.length entry.2 <= width g
  | DOWN => var_i entry.1 + String.length entry.2 <= height g ∧
            var_j entry.1 < width g
  end.

#[global] Instance fits_dec g entry : Decision (fits g entry).
Proof. unfold fits. destruct (var_direction entry.1); apply _. Defined.

(** The slot of the variable lies inside the grid. *)
Definition slot_inside (g : Grid) (v : Var) : Prop :=
  var_length v = 0 ∨
  match var_direction v with
  | ACROSS => var_i v < height g ∧ var_j v + var_length v <= width g
  | DOWN => var_i v + var_length v <= height g ∧ var_j v < width g
  end.

#[global] Instance slot_inside_dec g v : Decision (slot_inside g v).
Proof. unfold slot_inside. destruct (var_direction v); apply _. Defined.

(** The array has [h] rows of [w] cells. *)
Definition shape {A} (h w : nat) (rows : list (list A)) : Prop :=
  length rows = h ∧ Forall (fun row => length row = w) rows.

(** The text that [print] writes for the cell [(i, j)]. *)
Definition cell_text (g : Grid) (a : Assignment) (i j : nat) : string :=
  match structure g !! i ≫= (.!! j) with
  | Some true =>
      match written a i j with Some c => String c "" | None => " " end
  | _ => "█"
  end.

(** The texts that [print] writes for row [i]. *)
Definition row_text (g : Grid) (a : Assignment) (i : nat) : Output :=
  map (cell_text g a i) (seq 0 (width g)) ++ [newline].

(** Entries that cover the same cell put the same character there. *)
Definition compatible (a : Assignment) : Prop :=
  forall e1 e2 i j c1 c2, e1 ∈ a -> e2 ∈ a ->
    letter_of e1.1 e1.2 i j = Some c1 -> letter_of e2.1 e2.2 i j = Some c2 ->
    c1 = c2.

(** ** Specification predicates for the search and the pruning *)

(** The dictionary [a] is a part of the assignment [s]. *)
Definition agrees (a s : Assignment) : Prop :=
  forall v w, dict_get a v = Some w -> dict_get s v = Some w.

(** [a'] is [a] followed by new entries: distinct variables of the
    crossword that [a] leaves open, each with a word of its domain. *)
Definition extends (cw : Crossword) (d : gmap Var (list string))
    (a a' : Assignment) : Prop :=
  ∃ ext, a' = a ++ ext ∧ NoDup ext.*1 ∧
    forall v w, (v, w) ∈ ext ->
      v ∈ variables cw ∧ dict_get a v = None ∧
      ∃ dv, d !! v = Some dv ∧ w ∈ dv.

(** Every domain of [d'] is what is left of the same domain of [d], the
    words in their order, and no variable gains or loses its domain. *)
Definition shrinks (d d' : gmap Var (list string)) : Prop :=
  forall v, match d !! v, d' !! v with
            | Some dv, Some dv' => dv' `sublist_of` dv
            | None, None => True
            | _, _ => False
            end.

(** The variable has a domain, of words of the length of its slot. *)
Definition node_consistent_at (d : gmap Var (list string)) (v : Var) : Prop :=
  ∃ dv, d !! v = Some dv ∧ Forall (fun w => String.length w = var_length v) dv.

(** ** Reasoning about outcomes *)

Lemma bind_Ok {A B} (m : outcome A) (k : A -> outcome B) (b : B) :
  bind m k = Ok b -> ∃ a, m = Ok a ∧ k a = Ok b.
Proof. destruct m; simpl; intros; eauto; discriminate. Qed.

Ltac inv_bind H :=
  let x := fresh "x" in
  let Hx := fresh "E" in
  apply bind_Ok in H as (x & Hx & H).

Lemma for_each_app {A S} (body : A -> S -> outcome S) l1 l2 s :
  for_each body (l1 ++ l2) s = do s' <- for_each body l1 s; for_each body l2 s'.
Proof.
  revert s; induction l1 as [|x l1 IH]; intros s; simpl; [done|].
  destruct (body x s); simpl; auto.
Qed.

(** A loop invariant for [for_each]. *)
Lemma for_each_inv {A S} (P : S -> Prop) (body : A -> S -> outcome S) l s s' :
  P s ->
  (forall x t t', x ∈ l -> P t -> body x t = Ok t' -> P t') ->
  for_each body l s = Ok s' -> P s'.
Proof.
  revert s; induction l as [|x l IH]; intros s Hs Hstep H; simpl in H.
  - by inversion H; subst.
  - inv_bind H. eapply IH; [| |exact H].
    + eapply Hstep; [left| |]; eauto.
    + intros y t t' Hy. apply Hstep. by right.
Qed.

(** ** The assignment dictionary *)

Lemma dict_mem_true a v : dict_mem a v = true <-> is_Some (dict_get a v).
Proof.
  unfold dict_mem. destruct (dict_get a v); split; eauto; try done.
Qed.

Lemma dict_mem_false a v : dict_mem a v = false <-> dict_get a v = None.
Proof. unfold dict_mem. by destruct (dict_get a v). Qed.

Lemma dict_set_fresh a v w :
  dict_get a v = None -> dict_set a v w = a ++ [(v, w)].
Proof.
  induction a as [|[k w'] a IH]; simpl; [done|].
  destruct (decide (k = v)); [done|]. intros H. by rewrite IH.
Qed.

Lemma dict_del_fresh a v w :
  dict_get a v = None -> dict_del (a ++ [(v, w)]) v = Ok a.
Proof.
  induction a as [|[k w'] a IH]; simpl.
  - intros _. by rewrite decide_True.
  - destruct (decide (k = v)); [done|]. intros H. by rewrite IH.
Qed.

Lemma dict_get_set a v w u :
  dict_get (dict_set a v w) u = if decide (v = u) then Some w else dict_get a u.
Proof.
  induction a as [|[k w'] a IH]; simpl.
  - done.
  - destruct (decide (k = v)) as [->|]; simpl.
    + by destruct (decide (v = u)).
    + rewrite IH. destruct (decide (k = u)) as [->|]; [|done].
      by rewrite decide_False.
Qed.

(** ** Selecting a variable *)

Lemma min_domain_scan_sound cw d a m vs :
  min_domain_scan cw d a = Ok (m, vs) ->
  forall v, v ∈ vs -> v ∈ variables cw ∧ dict_mem a v = false.
Proof.
  unfold min_domain_scan. intros H.
  pose (P := fun st : Z * list Var =>
    forall v, v ∈ st.2 -> v ∈ variables cw ∧ dict_mem a v = false).
  change (P (m, vs)). eapply for_each_inv; [| |exact H]; unfold P.
  - simpl. intros v Hv. by apply elem_of_nil in Hv.
  - intros x [m0 vs0] [m1 vs1] Hx IH Hb; simpl in *.
    destruct (dict_mem a x) eqn:Hmem.
    + by inversion Hb; subst.
    + inv_bind Hb.
      destruct (Z.of_nat (length x0) <? m0)%Z.
      { inversion Hb; subst. intros v ->%list_elem_of_singleton. done. }
      destruct (Z.of_nat (length x0) =? m0)%Z; inversion Hb; subst; [|done].
      intros v [Hv| ->%list_elem_of_singleton]%elem_of_app; auto.
Qed.

Lemma foldl_inv {A S} (P : S -> Prop) (f : S -> A -> S) l s :
  P s -> (forall x t, x ∈ l -> P t -> P (f t x)) -> P (foldl f s l).
Proof.
  revert s; induction l as [|x l IH]; intros s Hs Hstep; simpl; [done|].
  apply IH.
  - apply Hstep; [left|done].
  - intros y t Hy. apply Hstep. by right.
Qed.

Lemma min_degree_scan_elem cw vs v :
  (min_degree_scan cw vs).2 = Some v -> v ∈ vs.
Proof.
  unfold min_degree_scan. revert v.
  apply (foldl_inv (fun st : Z * option Var =>
    forall v, st.2 = Some v -> v ∈ vs)).
  - done.
  - intros x [m mv] Hx IH v; simpl.
    destruct (_ <? _)%Z; simpl; [|by auto].
    by intros [= <-].
Qed.

Lemma select_unassigned_variable_sound cw d a v :
  select_unassigned_variable cw d a = Ok (Some v) ->
  v ∈ variables cw ∧ dict_mem a v = false.
Proof.
  unfold select_unassigned_variable. intros H. inv_bind H.
  destruct x as [m vs].
  pose proof (min_domain_scan_sound _ _ _ _ _ E) as Hvs.
  assert (v ∈ vs) as Hv; [|by apply Hvs].
  destruct vs as [|v1 [|v2 vs]].
  - discriminate H.
  - inversion H; subst. by left.
  - apply (min_degree_scan_elem cw). congruence.
Qed.

(** ** Backtracking leaves the dictionary as it found it on failure *)

Lemma try_values_atomic cw rec var values a a' :
  (forall b b', rec b = Ok (b', false) -> b' = b) ->
  dict_get a var = None ->
  try_values cw rec var values a = Ok (a', false) -> a' = a.
Proof.
  intros Hrec Hvar. revert a'.
  induction values as [|value values IH]; intros a' H; simpl in H.
  - by inversion H.
  - rewrite dict_set_fresh in H by done.
    inv_bind H. destruct x.
    + inv_bind H. destruct x as [a2 found]. destruct found; [done|].
      apply Hrec in E0 as ->. rewrite dict_del_fresh in H by done.
      simpl in H. by apply IH.
    + rewrite dict_del_fresh in H by done. simpl in H. by apply IH.
Qed.

Lemma backtrack_atomic cw d fuel a a' :
  backtrack cw d fuel a = Ok (a', false) -> a' = a.
Proof.
  revert a a'. induction fuel as [|fuel IH]; intros a a' H; simpl in H.
  - done.
  - destruct (assignment_complete cw a); [done|].
    inv_bind H. destruct x as [var|]; [|done].
    inv_bind H.
    apply select_unassigned_variable_sound in E as [_ Hvar].
    eapply try_values_atomic; [apply IH| |exact H].
    by apply dict_mem_false.
Qed.

(** ** What [consistent] checks *)

Lemma str_index_Ok s k c : str_index s k = Ok c <-> String.get k s = Some c.
Proof.
  unfold str_index. destruct (String.get k s); split; congruence.
Qed.

Lemma dict_index_Ok a v w : dict_index a v = Ok w <-> dict_get a v = Some w.
Proof. unfold dict_index. destruct (dict_get a v); split; congruence. Qed.

Lemma overlaps_get_Ok cw x y o :
  overlaps_get cw x y = Ok o <-> overlaps cw !! (x, y) = Some o.
Proof.
  unfold overlaps_get. destruct (overlaps cw !! (x, y)); split; congruence.
Qed.

Lemma domains_get_Ok (d : gmap Var (list string)) v s :
  domains_get d v = Ok s <-> d !! v = Some s.
Proof. unfold domains_get. destruct (d !! v); split; congruence. Qed.

Lemma dict_get_elem a v w : dict_get a v = Some w -> (v, w) ∈ a.
Proof.
  induction a as [|[k w'] a IH]; simpl; [done|].
  destruct (decide (k = v)) as [->|].
  - intros [= ->]. left.
  - intros H. right. auto.
Qed.

Lemma check_neighbors_sound cw a var ns :
  check_neighbors cw a var ns = Ok true ->
  forall n, n ∈ ns -> is_Some (dict_get a n) ->
  ∃ wv wn p q c,
    dict_get a var = Some wv ∧ dict_get a n = Some wn ∧
    overlaps cw !! (var, n) = Some (Some (p, q)) ∧
    String.get p wv = Some c ∧ String.get q wn = Some c.
Proof.
  induction ns as [|m ns IH]; intros H n Hn Hmem.
  - by apply elem_of_nil in Hn.
  - simpl in H. destruct (dict_mem a m) eqn:Hm.
    + inv_bind H. inv_bind H. destruct x0 as [[p q]|]; [|done].
      inv_bind H. inv_bind H. inv_bind H.
      destruct (decide (x0 = x2)) as [->|]; [|done].
      apply elem_of_cons in Hn as [->|Hn]; [|by apply IH].
      exists x, x1, p, q, x2.
      by rewrite <- !dict_index_Ok, <- overlaps_get_Ok, <- !str_index_Ok.
    + apply elem_of_cons in Hn as [->|Hn]; [|by apply IH].
      apply dict_mem_true in Hmem. congruence.
Qed.

Lemma consistent_loop_sound cw a entries seen :
  consistent_loop cw a entries seen = Ok true ->
  (forall var w0, (var, w0) ∈ entries ->
     ∃ w, dict_get a var = Some w ∧ var_length var = String.length w ∧
          check_neighbors cw a var (neighbors cw var) = Ok true) ∧
  (NoDup seen -> NoDup (seen ++ omap (fun e => dict_get a e.1) entries)).
Proof.
  revert seen. induction entries as [|[var w0] rest IH]; intros seen H.
  - split; [by intros ?? ?%elem_of_nil|]. simpl. by rewrite app_nil_r.
  - simpl in H. inv_bind H. apply dict_index_Ok in E.
    destruct (decide (var_length var = String.length x)); [|done].
    destruct (decide (x ∈ seen)); [done|].
    inv_bind H. destruct x0; [|done].
    apply IH in H as [H1 H2]. split.
    + intros v w1 [[= -> ->]|Hin]%elem_of_cons; eauto.
    + intros Hseen. simpl. rewrite E. rewrite cons_middle, app_assoc.
      apply H2. apply NoDup_app. split_and!; [done| |apply NoDup_singleton].
      intros y Hy ->%list_elem_of_singleton. done.
Qed.

Lemma NoDup_omap_inj {A B} (f : A -> option B) (l : list A) x y z :
  NoDup (omap f l) -> x ∈ l -> y ∈ l -> f x = Some z -> f y = Some z -> x = y.
Proof.
  induction l as [|e l IH]; intros Hnd Hx Hy Hfx Hfy.
  - by apply elem_of_nil in Hx.
  - simpl in Hnd.
    assert (forall u, u ∈ l -> f u = Some z -> z ∈ omap f l) as Hin.
    { intros u Hu Hfu. apply list_elem_of_omap. eauto. }
    apply elem_of_cons in Hx as [->|Hx], Hy as [->|Hy]; [done| | |].
    + rewrite Hfx in Hnd. apply NoDup_cons in Hnd as [Hnd _].
      destruct Hnd. eauto.
    + rewrite Hfy in Hnd. apply NoDup_cons in Hnd as [Hnd _].
      destruct Hnd. eauto.
    + apply IH; auto. destruct (f e); [|done].
      by apply NoDup_cons in Hnd as [_ ?].
Qed.

Lemma consistent_sound cw a :
  crossword_wf cw -> consistent cw a = Ok true -> assignment_valid cw a.
Proof.
  intros Hwf H. apply consistent_loop_sound in H as [H1 H2].
  specialize (H2 (NoDup_nil_2)). simpl in H2. split.
  - intros v w Hv. destruct (H1 v w (dict_get_elem _ _ _ Hv)) as (w' & ? & ? & _).
    congruence.
  - intros u v w Hu Hv.
    assert ((u, w) = (v, w)) as [=]; [|done].
    eapply (NoDup_omap_inj _ _ _ _ w H2); simpl; eauto using dict_get_elem.
  - intros u v wu wv p q Hu Hv Hov.
    assert (is_Some (overlaps cw !! (u, v))) as (Hud & Hvd & Hne)%(wf_overlaps_keys _ Hwf) by eauto.
    destruct (H1 u wu (dict_get_elem _ _ _ Hu)) as (w' & ? & ? & Hchk).
    eapply check_neighbors_sound in Hchk as (wv' & wn' & p' & q' & c & ? & ? & ? & ? & ?);
      [| |by rewrite Hv].
    + exists c. split; congruence.
    + apply (wf_neighbors _ Hwf); [done|]. split; [done|].
      apply (wf_overlaps_sym _ Hwf) in Hov. eauto.
Qed.

Lemma assignment_valid_nil cw : assignment_valid cw [].
Proof. split; simpl; intros; discriminate. Qed.

Lemma assignment_complete_spec cw a :
  assignment_complete cw a = true <-> assignment_is_complete cw a.
Proof.
  unfold assignment_complete, assignment_is_complete.
  rewrite forallb_forall.
  split; intros H v Hv; apply dict_mem_true, H, list_elem_of_In, Hv.
Qed.

(** ** What [backtrack] returns *)

Lemma try_values_found cw rec var values a a' :
  (forall b b', rec b = Ok (b', true) ->
     assignment_complete cw b' = true ∧ (b' = b ∨ consistent cw b' = Ok true)) ->
  try_values cw rec var values a = Ok (a', true) ->
  assignment_complete cw a' = true ∧ consistent cw a' = Ok true.
Proof.
  intros Hrec. revert a.
  induction values as [|value values IH]; intros a H; simpl in H; [done|].
  inv_bind H. destruct x.
  - inv_bind H. destruct x as [a2 found]. destruct found.
    + inversion H; subst. apply Hrec in E0 as [? [->|?]]; auto.
    + inv_bind H. eauto.
  - inv_bind H. eauto.
Qed.

Lemma backtrack_found cw d fuel a a' :
  backtrack cw d fuel a = Ok (a', true) ->
  assignment_complete cw a' = true ∧ (a' = a ∨ consistent cw a' = Ok true).
Proof.
  revert a a'. induction fuel as [|fuel IH]; intros a a' H; simpl in H.
  - done.
  - destruct (assignment_complete cw a) eqn:Hc.
    + inversion H; subst. auto.
    + inv_bind H. destruct x as [var|]; [|done]. inv_bind H.
      eapply try_values_found in H as [? ?]; eauto.
Qed.

(** ** The two-slot grid is a well-formed crossword *)

Lemma neighbors_of_wf vars ws ov :
  NoDup vars -> NoDup ws ->
  (forall x y, is_Some (ov !! (x, y)) <-> x ∈ vars ∧ y ∈ vars ∧ x ≠ y) ->
  (forall x y a b, ov !! (x, y) = Some (Some (a, b)) ->
                   ov !! (y, x) = Some (Some (b, a))) ->
  (forall x y a b, ov !! (x, y) = Some (Some (a, b)) ->
                   a < var_length x ∧ b < var_length y) ->
  crossword_wf (mkCrossword vars ws ov (neighbors_of vars ov)).
Proof.
  intros Hvars Hws Hkeys Hsym Hb. split; simpl; auto.
  - intros v _. by apply NoDup_filter.
  - intros v n _. unfold neighbors_of. rewrite list_elem_of_filter.
    split.
    + intros [[Hne [ab Hab]] _]. split; [done|]. exists ab.
      destruct (ov !! (n, v)) as [[?|]|]; simpl in *; congruence.
    + intros [Hne [ab Hab]]. split.
      * split; [done|]. rewrite Hab. simpl. eauto.
      * apply (Hkeys n v). eauto.
Qed.

Lemma two_slot_overlaps_lookup x y o :
  two_slot_overlaps !! (x, y) = Some o <->
  (x = slot_across ∧ y = slot_down ∧ o = Some (0, 1)) ∨
  (x = slot_down ∧ y = slot_across ∧ o = Some (1, 0)).
Proof.
  unfold two_slot_overlaps.
  rewrite lookup_insert_Some, lookup_singleton_Some.
  split.
  - intros [[[= -> ->] <-]|[_ [[= -> ->] <-]]]; auto.
  - intros [(-> & -> & ->)|(-> & -> & ->)]; [by left|right].
    split; [done|done].
Qed.

Ltac by_compute := apply (bool_decide_unpack _); vm_compute; exact I.

Lemma two_slot_vars vars x :
  vars = across_first ∨ vars = down_first ->
  x ∈ vars <-> x = slot_across ∨ x = slot_down.
Proof.
  intros [->| ->]; unfold across_first, down_first;
    rewrite !elem_of_cons, elem_of_nil; tauto.
Qed.

Lemma two_slot_wf vars ws :
  vars = across_first ∨ vars = down_first -> NoDup ws ->
  crossword_wf (two_slot vars ws).
Proof.
  intros Hvars Hws. apply neighbors_of_wf; auto.
  - destruct Hvars as [->| ->]; by_compute.
  - intros x y. rewrite !(two_slot_vars vars) by done. split.
    + intros [o [(-> & -> & _)|(-> & -> & _)]%two_slot_overlaps_lookup];
        split_and!; auto; discriminate.
    + intros ([->| ->] & [->| ->] & Hne); try done; by_compute.
  - intros x y a b
      [(-> & -> & [= -> ->])|(-> & -> & [= -> ->])]%two_slot_overlaps_lookup;
      by_compute.
  - intros x y a b
      [(-> & -> & [= -> ->])|(-> & -> & [= -> ->])]%two_slot_overlaps_lookup;
      vm_compute; lia.
Qed.



(** ** The two scans of [select_unassigned_variable] *)

Lemma min_domain_scan_spec d a l m vs :
  (forall v, v ∈ l -> is_Some (d !! v)) ->
  for_each (min_domain_body d a) l (1000000%Z, []) = Ok (m, vs) ->
  (m <= 1000000)%Z ∧
  (forall v, v ∈ l -> dict_get a v = None -> (m <= domain_size d v)%Z) ∧
  (forall v, v ∈ vs <->
     v ∈ l ∧ dict_get a v = None ∧ domain_size d v = m).
Proof.
  revert m vs. induction l as [|x l IH] using rev_ind; intros m vs Hdom H.
  - simpl in H. inv H. split_and!; [lia| |].
    + by intros v ?%elem_of_nil.
    + intros v. split; [by intros ?%elem_of_nil|by intros [?%elem_of_nil _]].
  - rewrite for_each_app in H. inv_bind H. destruct x0 as [m0 vs0].
    apply IH in E as (Hm & Hmin & Hvs);
      [|intros v Hv; apply Hdom, elem_of_app; by left].
    simpl in H. destruct (dict_mem a x) eqn:Hx.
    { apply dict_mem_true in Hx as [wx Hx].
      inv H. split_and!; [done| |].
      - intros v [Hv| ->%list_elem_of_singleton]%elem_of_app Hu; [auto|congruence].
      - intros v. rewrite Hvs, elem_of_app, list_elem_of_singleton.
        split; [tauto|]. intros [[?| ->] [? ?]]; [tauto|congruence]. }
    apply dict_mem_false in Hx.
    destruct (Hdom x) as [dx Hdx]; [apply elem_of_app; right; by left|].
    assert (domain_size d x = Z.of_nat (length dx)) as Hsz
      by (unfold domain_size; by rewrite Hdx).
    unfold domains_get in H. rewrite Hdx in H. simpl in H.
    rewrite <- Hsz in H.
    destruct (Z.ltb_spec (domain_size d x) m0).
    { inv H. split_and!; [lia| |].
      - intros v [Hv| ->%list_elem_of_singleton]%elem_of_app Hu; [|lia].
        specialize (Hmin v Hv Hu). lia.
      - intros v. rewrite list_elem_of_singleton, elem_of_app, list_elem_of_singleton.
        split; [intros ->; tauto|].
        intros [[Hv| ->] [Hu ?]]; [|done]. specialize (Hmin v Hv Hu). lia. }
    destruct (Z.eqb_spec (domain_size d x) m0).
    { inv H. split_and!; [lia| |].
      - intros v [Hv| ->%list_elem_of_singleton]%elem_of_app Hu; [auto|lia].
      - intros v. rewrite !elem_of_app, list_elem_of_singleton, Hvs.
        split; [intros [?| ->]; tauto|]. intros [[?| ->] [? ?]]; tauto. }
    inv H. split_and!; [lia| |].
    + intros v [Hv| ->%list_elem_of_singleton]%elem_of_app Hu; [auto|lia].
    + intros v. rewrite Hvs, elem_of_app, list_elem_of_singleton.
      split; [tauto|]. intros [[?| ->] [? ?]]; [tauto|lia].
Qed.

Lemma min_degree_scan_spec cw vs k r :
  min_degree_scan cw vs = (k, r) ->
  (k <= 1000000)%Z ∧
  (forall v, v ∈ vs -> (k <= degree cw v)%Z) ∧
  (if (k <? 1000000)%Z then ∃ u, r = Some u ∧ u ∈ vs ∧ degree cw u = k
   else r = None).
Proof.
  unfold min_degree_scan. revert k r.
  induction vs as [|x vs IH] using rev_ind; intros k r H.
  - simpl in H. inv H. split_and!; [lia| |done].
    by intros v ?%elem_of_nil.
  - rewrite foldl_app in H. simpl in H.
    destruct (foldl _ _ vs) as [k0 r0] eqn:E.
    specialize (IH _ _ eq_refl) as (Hk & Hmin & Hr).
    fold (degree cw x) in H.
    destruct (Z.ltb_spec (degree cw x) k0); injection H as <- <-.
    + split_and!; [lia| |].
      * intros v [Hv| ->%list_elem_of_singleton]%elem_of_app; [|lia].
        specialize (Hmin v Hv). lia.
      * destruct (Z.ltb_spec (degree cw x) 1000000); [|lia].
        exists x. split_and!; [done| |done]. apply elem_of_app. right. by left.
    + split_and!; [lia| |].
      * intros v [Hv| ->%list_elem_of_singleton]%elem_of_app; [auto|lia].
      * destruct (k0 <? 1000000)%Z; [|done].
        destruct Hr as (u & ? & ? & ?). exists u. split_and!; auto.
        apply elem_of_app. by left.
Qed.

(** ** Stable insertion sort *)

Section sorting.
Context {A : Type} (key : A -> Z).

Lemma insert_by_key_perm x l : insert_by_key key x l ≡ₚ x :: l.
Proof.
  induction l as [|y l IH]; simpl; [done|].
  destruct (key x <=? key y)%Z; [done|].
  rewrite IH. apply Permutation_swap.
Qed.

Lemma list_sort_perm l : list_sort key l ≡ₚ l.
Proof.
  induction l as [|x l IH]; simpl; [done|].
  by rewrite insert_by_key_perm, IH.
Qed.

Lemma insert_by_key_sorted x l :
  StronglySorted (key_le key) l -> StronglySorted (key_le key) (insert_by_key key x l).
Proof.
  induction 1 as [|y l Hl IH Hy]; simpl.
  - repeat constructor.
  - destruct (Z.leb_spec (key x) (key y)).
    + constructor; [by constructor|]. constructor; [done|].
      eapply Forall_impl; [exact Hy|]. unfold key_le. intros; simpl in *; lia.
    + constructor; [done|].
      rewrite insert_by_key_perm. constructor; [|done]. unfold key_le. lia.
Qed.

Lemma list_sort_sorted l : StronglySorted (key_le key) (list_sort key l).
Proof.
  induction l as [|x l IH]; simpl; [constructor|].
  by apply insert_by_key_sorted.
Qed.

Lemma StronglySorted_lookup_lt (l : list A) i j x y :
  StronglySorted (key_le key) l ->
  l !! i = Some x -> l !! j = Some y -> i < j -> (key_le key) x y.
Proof.
  intros Hl. revert i j. induction Hl as [|z l Hl IH Hz]; intros i j Hi Hj Hij.
  - done.
  - destruct j as [|j]; [lia|]. simpl in Hj. destruct i as [|i].
    + simpl in Hi. inv Hi. eapply Forall_forall in Hz; [exact Hz|].
      by eapply list_elem_of_lookup_2.
    + simpl in Hi. eapply IH; eauto. lia.
Qed.
End sorting.

(** ** Ordering the values of a domain *)

Lemma odv_loop_spec cw d var a (f : string -> Z) dv acc :
  (forall w, w ∈ dv -> rule_out_count cw d var a w = Ok (f w)) ->
  for_each (odv_step cw d var a) dv acc = Ok (acc ++ map (fun w => (w, f w)) dv).
Proof.
  revert acc. induction dv as [|w dv IH]; intros acc Hf; simpl.
  - by rewrite app_nil_r.
  - unfold odv_step at 1. rewrite Hf by left. simpl.
    rewrite IH by (intros; apply Hf; by right).
    by rewrite <- app_assoc.
Qed.

Lemma order_domain_values_spec cw d var a (f : string -> Z) dv :
  d !! var = Some dv ->
  (forall w, w ∈ dv -> rule_out_count cw d var a w = Ok (f w)) ->
  order_domain_values cw d var a =
    Ok (map fst (list_sort count (map (fun w => (w, f w)) dv))).
Proof.
  intros Hdv Hf. unfold order_domain_values, domains_get. rewrite Hdv. simpl.
  by rewrite (odv_loop_spec _ _ _ _ f) by done.
Qed.

Lemma sorted_values_perm (f : string -> Z) dv :
  map fst (list_sort count (map (fun w => (w, f w)) dv)) ≡ₚ dv.
Proof.
  rewrite list_sort_perm. rewrite <- list_fmap_compose.
  by rewrite list_fmap_id.
Qed.

Lemma sorted_values_order (f : string -> Z) dv i j w1 w2 :
  let l := map fst (list_sort count (map (fun w => (w, f w)) dv)) in
  l !! i = Some w1 -> l !! j = Some w2 -> (f w1 < f w2)%Z -> i < j.
Proof.
  intros l Hi Hj Hlt. subst l.
  rewrite list_lookup_fmap in Hi, Hj.
  destruct (list_sort _ _ !! i) as [[w1' c1]|] eqn:Ei; [|done].
  destruct (list_sort _ _ !! j) as [[w2' c2]|] eqn:Ej; [|done].
  simplify_eq/=.
  assert (forall k w c, list_sort count (map (fun w => (w, f w)) dv) !! k
            = Some (w, c) -> c = f w) as Hc.
  { intros k w c Hk. apply list_elem_of_lookup_2 in Hk.
    rewrite list_sort_perm in Hk.
    apply list_elem_of_fmap in Hk as (w' & [= -> ->] & _). done. }
  apply Hc in Ei as Hc1. apply Hc in Ej as Hc2. subst.
  destruct (decide (i < j)) as [|Hge]; [done|]. exfalso.
  destruct (decide (i = j)) as [->|Hne].
  - rewrite Ei in Ej. inv Ej. lia.
  - pose proof (StronglySorted_lookup_lt count _ j i _ _
      (list_sort_sorted count _) Ej Ei ltac:(lia)) as Hle.
    unfold key_le, count in Hle. simpl in Hle. lia.
Qed.

(** ** Counting the values a word rules out *)

Lemma string_get_lt k s : k < String.length s -> is_Some (String.get k s).
Proof.
  revert k. induction s as [|c s IH]; intros k Hk; simpl in *; [lia|].
  destruct k as [|k]; [eauto|]. apply IH. lia.
Qed.

Lemma str_index_lt s k :
  k < String.length s -> ∃ c, str_index s k = Ok c ∧ String.get k s = Some c.
Proof.
  intros [c Hc]%string_get_lt. exists c. split; [|done].
  by apply str_index_Ok.
Qed.

Lemma rule_out_word_spec p q w dn c :
  p < String.length w ->
  (forall w', w' ∈ dn -> q < String.length w') ->
  for_each (rule_out_word (Some (p, q)) w) dn c = Ok (c + disagreements p q w dn)%Z.
Proof.
  intros Hp. revert c. unfold disagreements.
  induction dn as [|w' dn IH]; intros c Hq; simpl.
  - f_equal. lia.
  - destruct (str_index_lt w p Hp) as (c1 & -> & Hc1).
    destruct (str_index_lt w' q) as (c2 & -> & Hc2); [apply Hq; left|].
    simpl. rewrite IH by (intros; apply Hq; by right). f_equal.
    rewrite filter_cons. rewrite Hc1, Hc2.
    destruct (decide (c1 = c2)) as [->|Hne].
    + rewrite decide_False by (intros ?; congruence). done.
    + rewrite decide_True by congruence. simpl. lia.
Qed.

Lemma neighbor_overlap cw var n :
  crossword_wf cw -> var ∈ variables cw -> n ∈ neighbors cw var ->
  n ∈ variables cw ∧ n ≠ var ∧
  ∃ p q, overlaps cw !! (var, n) = Some (Some (p, q)) ∧
         p < var_length var ∧ q < var_length n.
Proof.
  intros Hwf Hvar Hn.
  apply (wf_neighbors _ Hwf) in Hn as [Hne [[q p] Hov]]; [|done].
  assert (is_Some (overlaps cw !! (n, var))) as (? & _ & _)%(wf_overlaps_keys _ Hwf)
    by eauto.
  apply (wf_overlaps_sym _ Hwf) in Hov.
  split_and!; [done..|]. exists p, q. split; [done|].
  by apply (wf_overlaps_bounds _ Hwf) in Hov.
Qed.

Lemma domains_ok_lookup cw d v :
  domains_ok cw d -> v ∈ variables cw -> ∃ dv, d !! v = Some dv.
Proof.
  intros Hd Hv. pose proof (dom_total _ _ Hd) as H.
  rewrite Forall_forall in H. by apply H.
Qed.

Lemma domains_ok_length cw d v dv w :
  domains_ok cw d -> d !! v = Some dv -> w ∈ dv ->
  String.length w = var_length v.
Proof.
  intros Hd Hv Hw. pose proof (dom_node_consistent _ _ Hd v dv Hv) as H.
  simpl in H. rewrite Forall_forall in H. by apply H.
Qed.

Lemma domains_ok_nodup cw d v dv :
  domains_ok cw d -> d !! v = Some dv -> NoDup dv.
Proof. intros Hd Hv. exact (dom_sets _ _ Hd v dv Hv). Qed.

Lemma rule_out_count_spec cw d var a w :
  crossword_wf cw -> domains_ok cw d -> var ∈ variables cw ->
  String.length w = var_length var ->
  rule_out_count cw d var a w = Ok (ruled_out cw d var a w).
Proof.
  intros Hwf Hd Hvar Hw. unfold rule_out_count, ruled_out.
  assert (forall ns c, (forall n, n ∈ ns -> n ∈ neighbors cw var) ->
    for_each (rule_out_neighbor cw d var a w) ns c
    = Ok (c + ruled_out_over cw d var a w ns)%Z) as G.
  { induction ns as [|n ns IH]; intros c Hns; simpl.
    - f_equal. lia.
    - unfold rule_out_neighbor at 1. destruct (dict_mem a n); simpl.
      { apply IH. intros; apply Hns; by right. }
      destruct (neighbor_overlap cw var n Hwf Hvar) as (Hn & _ & p & q & Hov & Hp & Hq);
        [apply Hns; left|].
      destruct (domains_ok_lookup _ _ n Hd Hn) as [dn Hdn].
      unfold overlaps_get, domains_get. rewrite Hov, Hdn. simpl.
      rewrite rule_out_word_spec; [|lia|].
      + simpl. rewrite IH by (intros; apply Hns; by right). f_equal. lia.
      + intros w' Hw'. rewrite (domains_ok_length _ _ n dn w' Hd); done. }
  rewrite G by done. f_equal.
Qed.

Lemma order_domain_values_total cw d var a dv :
  crossword_wf cw -> domains_ok cw d -> var ∈ variables cw ->
  d !! var = Some dv ->
  order_domain_values cw d var a =
    Ok (map fst (list_sort count (map (fun w => (w, ruled_out cw d var a w)) dv))).
Proof.
  intros Hwf Hd Hvar Hdv. apply order_domain_values_spec; [done|].
  intros w Hw. apply rule_out_count_spec; try done.
  by eapply domains_ok_length.
Qed.

Lemma for_each_snoc {A S} (body : A -> S -> outcome S) l x s :
  for_each body (l ++ [x]) s = do s' <- for_each body l s; body x s'.
Proof.
  rewrite for_each_app. destruct (for_each body l s); simpl; [|done..].
  by destruct (body x a).
Qed.

Lemma min_domain_scan_attained d a l m vs :
  (forall v, v ∈ l -> is_Some (d !! v)) ->
  for_each (min_domain_body d a) l (1000000%Z, []) = Ok (m, vs) ->
  (m < 1000000)%Z -> vs ≠ [].
Proof.
  revert m vs. induction l as [|x l IH] using rev_ind; intros m vs Hdom H Hm.
  - simpl in H. inv H. lia.
  - rewrite for_each_snoc in H. inv_bind H. destruct x0 as [m0 vs0].
    simpl in H. destruct (dict_mem a x).
    { inv H. eapply IH; eauto. intros v Hv. apply Hdom, elem_of_app. by left. }
    inv_bind H.
    destruct (Z.ltb_spec (Z.of_nat (length x0)) m0); [by inv H|].
    destruct (Z.eqb_spec (Z.of_nat (length x0)) m0); inv H.
    + by destruct vs0.
    + eapply IH; eauto. intros v Hv. apply Hdom, elem_of_app. by left.
Qed.

Lemma min_domain_scan_total d a l st :
  (forall v, v ∈ l -> is_Some (d !! v)) ->
  ∃ st', for_each (min_domain_body d a) l st = Ok st'.
Proof.
  revert st. induction l as [|x l IH]; intros [m vs] Hdom; simpl; [eauto|].
  destruct (dict_mem a x); simpl.
  { apply IH. intros; apply Hdom; by right. }
  destruct (Hdom x) as [dx Hdx]; [left|].
  unfold domains_get. rewrite Hdx. simpl.
  destruct (_ <? _)%Z; [|destruct (_ =? _)%Z]; simpl;
    apply IH; intros; apply Hdom; by right.
Qed.


Lemma select_unassigned_variable_spec cw d a u :
  Forall (fun v => is_Some (d !! v)) (variables cw) ->
  Forall (fun v => (degree cw v < 1000000)%Z) (variables cw) ->
  u ∈ variables cw -> dict_get a u = None ->
  (domain_size d u <= 1000000)%Z ->
  ∃ v, select_unassigned_variable cw d a = Ok (Some v) ∧
       v ∈ variables cw ∧ dict_get a v = None ∧
       forall w, w ∈ variables cw -> dict_get a w = None ->
         (domain_size d v <= domain_size d w)%Z ∧
         (domain_size d w = domain_size d v ->
          (degree cw v <= degree cw w)%Z).
Proof.
  rewrite !Forall_forall. intros Hdom Hdeg Hu Hau Hsz.
  unfold select_unassigned_variable, min_domain_scan.
  destruct (min_domain_scan_total d a (variables cw) (1000000%Z, []) Hdom)
    as [[m vs] E].
  rewrite E. simpl.
  pose proof (min_domain_scan_spec _ _ _ _ _ Hdom E) as (Hm & Hmin & Hvs).
  pose proof (min_domain_scan_attained _ _ _ _ _ Hdom E) as Hne.
  assert (vs ≠ []) as Hvs_ne.
  { destruct (decide (m < 1000000)%Z); [auto|].
    assert (u ∈ vs) as Hin; [|by destruct vs; [apply elem_of_nil in Hin|]].
    apply Hvs. split_and!; [done..|]. specialize (Hmin u Hu Hau). lia. }
  assert (forall v, v ∈ vs ->
    (forall w, w ∈ vs -> (degree cw v <= degree cw w)%Z) ->
    v ∈ variables cw ∧ dict_get a v = None ∧
    forall w, w ∈ variables cw -> dict_get a w = None ->
      (domain_size d v <= domain_size d w)%Z ∧
      (domain_size d w = domain_size d v -> (degree cw v <= degree cw w)%Z))
    as Hgood.
  { intros v Hv Hvdeg. apply Hvs in Hv as (Hv & Hav & Hvm).
    split_and!; [done..|]. intros w Hw Haw. rewrite Hvm. split; [auto|].
    intros Hwm. apply Hvdeg, Hvs. done. }
  destruct vs as [|v1 [|v2 vs]]; [done| |].
  - exists v1. split; [done|]. apply Hgood; [left|].
    by intros w ->%list_elem_of_singleton.
  - destruct (min_degree_scan cw (v1 :: v2 :: vs)) as [k r] eqn:Es.
    apply min_degree_scan_spec in Es as (Hk & Hkmin & Hr).
    assert (k < 1000000)%Z as Hk'.
    { specialize (Hkmin v1 ltac:(left)).
      assert (v1 ∈ variables cw) as Hv1 by (apply Hvs; left).
      specialize (Hdeg v1 Hv1). simpl in Hdeg. lia. }
    destruct (Z.ltb_spec k 1000000); [|lia].
    destruct Hr as (v & -> & Hv & Hvk). exists v. split; [done|].
    apply Hgood; [done|]. intros w Hw. rewrite Hvk. auto.
Qed.

(** ** The large vocabulary *)

Lemma bits_length k n : String.length (bits k n) = k.
Proof. revert n. induction k as [|k IH]; intros n; simpl; [done|]. by rewrite IH. Qed.

Lemma bits_inj k n m : bits k n = bits k m -> (n mod 2 ^ N.of_nat k = m mod 2 ^ N.of_nat k)%N.
Proof.
  revert n m. induction k as [|k IH]; intros n m H.
  - simpl. by rewrite !N.mod_1_r.
  - simpl in H. injection H as Hb Hr. apply IH in Hr.
    assert (N.odd n = N.odd m) as Hodd
      by (destruct (N.odd n), (N.odd m); done).
    rewrite Nat2N.inj_succ, N.pow_succ_r', !N.Div0.mod_mul_r.
    rewrite <- !N.div2_div, Hr. f_equal.
    by rewrite <- !N.bit0_mod, !N.bit0_odd, Hodd.
Qed.

Lemma big_words_length : length big_words = N.to_nat 1000001.
Proof. unfold big_words. by rewrite length_map, length_seq. Qed.

Lemma big_words_nodup : NoDup big_words.
Proof.
  unfold big_words. apply NoDup_fmap_2_strong; [|apply NoDup_seq].
  intros x y [_ Hx]%elem_of_seq [_ Hy]%elem_of_seq H.
  apply bits_inj in H.
  change (2 ^ N.of_nat 20)%N with 1048576%N in H.
  rewrite !N.mod_small in H by lia. lia.
Qed.

Lemma big_words_word_length w : w ∈ big_words -> String.length w = 20.
Proof.
  unfold big_words. intros (i & -> & _)%list_elem_of_fmap. apply bits_length.
Qed.

Lemma big_domains_lookup :
  init_domains big_crossword !! long_slot = Some big_words.
Proof.
  change (init_domains big_crossword)
    with (<[long_slot := big_words]> (∅ : gmap Var (list string))).
  apply lookup_insert_eq.
Qed.

Lemma select_big :
  select_unassigned_variable big_crossword (init_domains big_crossword) []
  = Ok None.
Proof.
  unfold select_unassigned_variable, min_domain_scan.
  change (variables big_crossword) with [long_slot].
  cbn [for_each]. unfold min_domain_body.
  change (dict_mem [] long_slot) with false. cbv iota.
  unfold domains_get. rewrite big_domains_lookup. cbn [bind].
  rewrite big_words_length, N_nat_Z.
  reflexivity.
Qed.

Lemma filter_none {A} (P : A -> Prop) `{!forall x, Decision (P x)} (l : list A) :
  (forall x, x ∈ l -> ¬ P x) -> filter P l = [].
Proof.
  induction l as [|x l IH]; intros Hnone; [done|].
  rewrite filter_cons_False by (apply Hnone; left).
  apply IH. intros y Hy. apply Hnone. by right.
Qed.

Lemma big_node_consistency :
  enforce_node_consistency big_crossword (init_domains big_crossword)
  = Ok (init_domains big_crossword).
Proof.
  unfold enforce_node_consistency.
  change (variables big_crossword) with [long_slot].
  cbn [for_each]. unfold node_consistency_step, domains_get.
  rewrite big_domains_lookup. cbn [bind].
  rewrite filter_none.
  - cbn [for_each bind]. by rewrite insert_id by apply big_domains_lookup.
  - intros w Hw Hlen. by apply big_words_word_length in Hw.
Qed.

(** With the large vocabulary, [solve] itself ends in the [KeyError] of
    [self.domains[None]]. *)
Lemma solve_big_crossword fuel :
  solve big_crossword (S fuel) = Raise KeyError.
Proof.
  unfold solve. rewrite big_node_consistency. cbn [bind].
  change (ac3 big_crossword (S fuel) None (init_domains big_crossword))
    with (Ok (true, init_domains big_crossword)
          : outcome (bool * gmap Var (list string))).
  cbn [bind backtrack].
  change (assignment_complete big_crossword []) with false. cbv iota.
  by rewrite select_big.
Qed.

Lemma big_domains_eq :
  init_domains big_crossword = {[ long_slot := big_words ]}.
Proof. reflexivity. Qed.

Lemma big_crossword_wf : crossword_wf big_crossword.
Proof.
  apply neighbors_of_wf.
  - apply NoDup_singleton.
  - apply big_words_nodup.
  - intros x y. rewrite lookup_empty, !list_elem_of_singleton. split.
    + by intros [? ?].
    + intros (-> & -> & ?). done.
  - intros x y a b. by rewrite lookup_empty.
  - intros x y a b. by rewrite lookup_empty.
Qed.

Lemma big_domains_ok : domains_ok big_crossword (init_domains big_crossword).
Proof.
  rewrite big_domains_eq. split.
  - apply Forall_singleton. rewrite lookup_singleton_eq. eauto.
  - apply map_Forall_singleton, big_words_nodup.
  - apply map_Forall_singleton, Forall_forall.
    intros w Hw. by apply big_words_word_length.
Qed.

(** ** The initial worklist of [ac3] *)

Lemma add_arc_mono var arcs n e : e ∈ arcs -> e ∈ add_arc var arcs n.
Proof. unfold add_arc. case_decide; [done|]. intros. apply elem_of_app. by left. Qed.

Lemma add_arc_covers var arcs n :
  (var, n) ∈ add_arc var arcs n ∨ (n, var) ∈ add_arc var arcs n.
Proof.
  unfold add_arc. case_decide; [by right|]. left.
  apply elem_of_app. right. by left.
Qed.

Lemma add_arc_elem var arcs n e :
  e ∈ add_arc var arcs n -> e ∈ arcs ∨ (e = (var, n) ∧ (n, var) ∉ arcs).
Proof.
  unfold add_arc. case_decide; [by left|].
  intros [?| ->%list_elem_of_singleton]%elem_of_app; auto.
Qed.

Lemma foldl_add_arc_mono var ns arcs e :
  e ∈ arcs -> e ∈ foldl (add_arc var) arcs ns.
Proof.
  revert arcs. induction ns as [|n ns IH]; intros arcs He; simpl; [done|].
  by apply IH, add_arc_mono.
Qed.

Lemma foldl_add_arc_covers var ns arcs n :
  n ∈ ns ->
  (var, n) ∈ foldl (add_arc var) arcs ns ∨ (n, var) ∈ foldl (add_arc var) arcs ns.
Proof.
  revert arcs. induction ns as [|m ns IH]; intros arcs Hn; simpl.
  - by apply elem_of_nil in Hn.
  - apply elem_of_cons in Hn as [->|Hn]; [|by apply IH].
    destruct (add_arc_covers var arcs m); [left|right];
      by apply foldl_add_arc_mono.
Qed.


Lemma foldl_add_arcs_mono cw vs arcs e :
  e ∈ arcs -> e ∈ foldl (add_arcs cw) arcs vs.
Proof.
  revert arcs. induction vs as [|v vs IH]; intros arcs He; simpl; [done|].
  by apply IH, foldl_add_arc_mono.
Qed.

Lemma foldl_add_arcs_covers cw vs arcs v n :
  v ∈ vs -> n ∈ neighbors cw v ->
  (v, n) ∈ foldl (add_arcs cw) arcs vs ∨ (n, v) ∈ foldl (add_arcs cw) arcs vs.
Proof.
  revert arcs. induction vs as [|u vs IH]; intros arcs Hv Hn; simpl.
  - by apply elem_of_nil in Hv.
  - apply elem_of_cons in Hv as [->|Hv]; [|by apply IH].
    destruct (foldl_add_arc_covers u (neighbors cw u) arcs n Hn);
      [left|right]; by apply foldl_add_arcs_mono.
Qed.

Lemma add_arc_one_way cw var arcs n :
  var ∈ variables cw -> n ∈ neighbors cw var -> n ≠ var ->
  one_way cw arcs -> one_way cw (add_arc var arcs n).
Proof.
  intros Hvar Hn Hne [H1 H2]. split.
  - intros x y [?|[[= -> ->] _]]%add_arc_elem; auto.
  - intros x y Hxy Hyx.
    apply add_arc_elem in Hxy as [Hxy|[Exy Hnew]];
      apply add_arc_elem in Hyx as [Hyx|[Eyx Hnew']]; simplify_eq.
    by apply (H2 x y).
Qed.

Lemma initial_arcs_one_way cw :
  crossword_wf cw -> one_way cw (initial_arcs cw).
Proof.
  intros Hwf. unfold initial_arcs.
  apply (foldl_inv (one_way cw)).
  - split; intros x y ?%elem_of_nil; done.
  - intros var arcs Hvar Harcs. unfold add_arcs.
    apply (foldl_inv (one_way cw)); [done|].
    intros n arcs' Hn Harcs'. apply add_arc_one_way; auto.
    by apply (wf_neighbors _ Hwf) in Hn as [? _].
Qed.

(** ** Removing words from a domain *)

Lemma filter_ext_in {A} (P Q : A -> Prop) `{!forall x, Decision (P x)}
    `{!forall x, Decision (Q x)} (l : list A) :
  (forall x, x ∈ l -> P x <-> Q x) -> filter P l = filter Q l.
Proof.
  induction l as [|x l IH]; intros Hext; [done|].
  rewrite !filter_cons.
  rewrite IH by (intros; apply Hext; by right).
  destruct (decide (P x)) as [HP|HP], (decide (Q x)) as [HQ|HQ]; try done.
  - destruct HQ. apply Hext; [left|done].
  - destruct HP. apply Hext; [left|done].
Qed.

Lemma filter_all {A} (P : A -> Prop) `{!forall x, Decision (P x)} (l : list A) :
  (forall x, x ∈ l -> P x) -> filter P l = l.
Proof.
  induction l as [|x l IH]; intros Hall; [done|].
  rewrite filter_cons_True by (apply Hall; left).
  by rewrite IH by (intros; apply Hall; by right).
Qed.

Lemma set_remove_loop to_remove dv dv' :
  for_each set_remove to_remove dv = Ok dv' ->
  dv' = filter (fun w => w ∉ to_remove) dv.
Proof.
  revert dv. induction to_remove as [|w tr IH]; intros dv H; simpl in H.
  - inv H. symmetry. apply filter_all. intros x _. apply not_elem_of_nil.
  - inv_bind H. unfold set_remove in E. case_decide; [|done]. inv E.
    apply IH in H as ->. rewrite list_filter_filter.
    apply list_filter_iff. intros x. rewrite not_elem_of_cons. tauto.
Qed.

Lemma set_remove_loop_total to_remove dv :
  NoDup to_remove -> to_remove ⊆ dv ->
  for_each set_remove to_remove dv = Ok (filter (fun w => w ∉ to_remove) dv).
Proof.
  intros Hnd Hsub.
  destruct (for_each set_remove to_remove dv) as [dv'| |] eqn:E.
  - by apply set_remove_loop in E as ->.
  - exfalso. revert dv Hsub E.
    induction Hnd as [|w tr Hw Hnd IH]; intros dv Hsub E; simpl in E; [done|].
    unfold set_remove in E. rewrite decide_True in E by (apply Hsub; left).
    simpl in E. eapply IH; [|exact E].
    intros x Hx. apply list_elem_of_filter. split; [|apply Hsub; by right].
    intros ->. done.
  - exfalso. revert dv Hsub E.
    induction Hnd as [|w tr Hw Hnd IH]; intros dv Hsub E; simpl in E; [done|].
    unfold set_remove in E. rewrite decide_True in E by (apply Hsub; left).
    simpl in E. eapply IH; [|exact E].
    intros x Hx. apply list_elem_of_filter. split; [|apply Hsub; by right].
    intros ->. done.
Qed.

(** ** One call of [revise] *)

Lemma overlapping_loop c1 b dy o0 o :
  for_each (overlapping_step c1 b) dy o0 = Ok o ->
  (o = true <-> o0 = true ∨ Exists (fun w' => String.get b w' = Some c1) dy).
Proof.
  revert o0. induction dy as [|w' dy IH]; intros o0 H; simpl in H.
  - inv H. rewrite Exists_nil. tauto.
  - inv_bind H. unfold overlapping_step in E. inv_bind E.
    apply str_index_Ok in E0. inv E. apply IH in H. rewrite H, Exists_cons.
    destruct (decide (x0 = c1)) as [->|Hne].
    + tauto.
    + split; [tauto|]. intros [?|[?|?]]; [tauto| |tauto]. congruence.
Qed.

Lemma revise_word_spec d y a b w rev tr rev' tr' :
  revise_word d y a b w (rev, tr) = Ok (rev', tr') ->
  is_Some (d !! y) ∧
  if decide (supported d y a b w) then rev' = rev ∧ tr' = tr
  else rev' = true ∧ tr' = tr ++ [w].
Proof.
  unfold revise_word. intros H. inv_bind H. inv_bind H. inv_bind H.
  apply str_index_Ok in E. apply domains_get_Ok in E0.
  apply overlapping_loop in E1. split; [eauto|].
  assert (supported d y a b w <->
          Exists (fun w' => String.get b w' = Some x) x0) as Hs.
  { unfold supported. rewrite E0, E, !Exists_exists.
    split; intros (w' & ? & ?); exists w'; split; congruence. }
  destruct x1.
  - rewrite decide_True; [by inv H|].
    apply Hs. destruct E1 as [[?|?] _]; done.
  - rewrite decide_False; [by inv H|].
    intros Hsup. apply Hs in Hsup.
    assert (false = true) by (apply E1; by right). done.
Qed.

Lemma revise_scan d y a b dx rev tr rev' tr' :
  for_each (revise_word d y a b) dx (rev, tr) = Ok (rev', tr') ->
  tr' = tr ++ filter (fun w => ¬ supported d y a b w) dx ∧
  (rev' = true <->
   rev = true ∨ filter (fun w => ¬ supported d y a b w) dx ≠ []).
Proof.
  revert rev tr. induction dx as [|w dx IH]; intros rev tr H; simpl in H.
  - inv H. rewrite app_nil_r. split; [done|]. rewrite filter_nil. tauto.
  - inv_bind H. destruct x as [rev1 tr1].
    apply revise_word_spec in E as [_ E]. apply IH in H as [-> Hrev].
    rewrite filter_cons. destruct (decide (supported d y a b w)) as [Hs|Hs].
    + destruct E as [-> ->]. rewrite decide_False by tauto. done.
    + destruct E as [-> ->]. rewrite decide_True by done.
      rewrite <- app_assoc. split; [done|]. split; [|tauto]. intros _. by right.
Qed.

Lemma revise_spec cw x y d r d' :
  revise cw x y d = Ok (r, d') ->
  (r = false ∧ d' = d) ∨
  (∃ a b dx,
     x ≠ y ∧ overlaps cw !! (x, y) = Some (Some (a, b)) ∧
     d !! x = Some dx ∧ r = true ∧
     d' = <[x := filter (supported d y a b) dx]> d ∧
     Exists (fun w => ¬ supported d y a b w) dx).
Proof.
  unfold revise. intros H. destruct (decide (x = y)); [left; by inv H|].
  inv_bind H. apply overlaps_get_Ok in E.
  destruct x0 as [[a b]|]; [|left; by inv H].
  inv_bind H. apply domains_get_Ok in E0. inv_bind H.
  destruct x1 as [rev tr]. inv_bind H. inv H.
  apply revise_scan in E1 as [-> Hrev]. simpl in E2.
  apply set_remove_loop in E2 as ->.
  assert (filter (fun w => w ∉ filter (fun w => ¬ supported d y a b w) x0) x0
          = filter (supported d y a b) x0) as ->.
  { apply filter_ext_in. intros w Hw. rewrite list_elem_of_filter.
    destruct (decide (supported d y a b w)); tauto. }
  destruct r.
  - right. exists a, b, x0. split_and!; try done.
    destruct Hrev as [[?|Hne] _]; [done..|].
    destruct (filter _ x0) as [|w tr] eqn:Ef; [done|].
    assert (w ∈ filter (fun w => ¬ supported d y a b w) x0) as Hw
      by (rewrite Ef; left).
    apply list_elem_of_filter in Hw as [? ?]. apply Exists_exists. eauto.
  - left. split; [done|].
    destruct (filter (fun w => ¬ supported d y a b w) x0) as [|w tr] eqn:Ef.
    + rewrite filter_all; [by apply insert_id|].
      intros w Hw. destruct (decide (supported d y a b w)); [done|].
      assert (w ∈ filter (fun w => ¬ supported d y a b w) x0) as Hin
        by (apply list_elem_of_filter; done).
      rewrite Ef in Hin. by apply elem_of_nil in Hin.
    + assert (false = true); [|done]. apply Hrev. by right.
Qed.

(** ** Node consistency *)

Lemma node_consistency_step_spec var d d' :
  node_consistency_step var d = Ok d' ->
  ∃ dv, d !! var = Some dv ∧
    d' = <[var := filter (fun w => String.length w = var_length var) dv]> d.
Proof.
  unfold node_consistency_step. intros H. inv_bind H. inv_bind H. inv H.
  apply domains_get_Ok in E. apply set_remove_loop in E0 as ->.
  exists x. split; [done|]. f_equal.
  apply filter_ext_in. intros w Hw. rewrite list_elem_of_filter.
  destruct (decide (String.length w = var_length var)); tauto.
Qed.

Lemma enforce_node_consistency_keeps cw d d' v dv w :
  enforce_node_consistency cw d = Ok d' ->
  d !! v = Some dv -> w ∈ dv -> String.length w = var_length v ->
  ∃ dv', d' !! v = Some dv' ∧ w ∈ dv'.
Proof.
  intros H Hdv Hw Hlen. unfold enforce_node_consistency in H.
  pose (P := fun d1 : gmap Var (list string) =>
    ∃ dv', d1 !! v = Some dv' ∧ w ∈ dv').
  change (P d'). eapply for_each_inv; [| |exact H]; unfold P.
  - eauto.
  - intros var d1 d2 _ (dv1 & Hdv1 & Hw1) Hstep.
    apply node_consistency_step_spec in Hstep as (dvar & Hvar & ->).
    destruct (decide (var = v)) as [->|Hne].
    + rewrite lookup_insert_eq. eexists. split; [done|].
      apply list_elem_of_filter. split; [done|]. congruence.
    + rewrite lookup_insert_ne by done. eauto.
Qed.

Lemma enforce_node_consistency_removed cw d d' v dv w :
  enforce_node_consistency cw d = Ok d' ->
  d !! v = Some dv -> w ∈ dv ->
  (forall dv', d' !! v = Some dv' -> w ∉ dv') ->
  String.length w ≠ var_length v.
Proof.
  intros H Hdv Hw Hrem Hlen.
  destruct (enforce_node_consistency_keeps _ _ _ _ _ _ H Hdv Hw Hlen)
    as (dv' & Hdv' & Hw').
  by apply (Hrem dv').
Qed.

(** ** Arc consistency *)

Lemma revise_keeps cw x y d r d' v dv w :
  revise cw x y d = Ok (r, d') ->
  d !! v = Some dv -> w ∈ dv ->
  (v = x -> forall a b, overlaps cw !! (x, y) = Some (Some (a, b)) ->
            supported d y a b w) ->
  ∃ dv', d' !! v = Some dv' ∧ w ∈ dv'.
Proof.
  intros H Hdv Hw Hsup.
  apply revise_spec in H as [[_ ->]|(a & b & dx & Hne & Hov & Hdx & _ & -> & _)];
    [eauto|].
  destruct (decide (x = v)) as [->|Hxv].
  - rewrite lookup_insert_eq. eexists. split; [done|].
    apply list_elem_of_filter. split; [by apply Hsup|]. congruence.
  - rewrite lookup_insert_ne by done. eauto.
Qed.

Lemma revise_removed cw x y d r d' v dv w :
  revise cw x y d = Ok (r, d') ->
  d !! v = Some dv -> w ∈ dv ->
  (forall dv', d' !! v = Some dv' -> w ∉ dv') ->
  v = x ∧ ∃ a b, overlaps cw !! (x, y) = Some (Some (a, b)) ∧
                 ¬ supported d y a b w.
Proof.
  intros H Hdv Hw Hrem.
  destruct (decide (v = x)) as [->|Hvx].
  - split; [done|].
    destruct (overlaps cw !! (x, y)) as [[[a b]|]|] eqn:Hov.
    + exists a, b. split; [done|]. intros Hsup.
      destruct (revise_keeps _ _ _ _ _ _ _ _ _ H Hdv Hw) as (dv' & Hdv' & Hw').
      { intros _ a' b' Hab. rewrite Hov in Hab. by inv Hab. }
      by apply (Hrem dv').
    + destruct (revise_keeps _ _ _ _ _ _ _ _ _ H Hdv Hw) as (dv' & Hdv' & Hw').
      { intros _ a' b' Hab. by rewrite Hov in Hab. }
      by destruct (Hrem dv').
    + destruct (revise_keeps _ _ _ _ _ _ _ _ _ H Hdv Hw) as (dv' & Hdv' & Hw').
      { intros _ a' b' Hab. by rewrite Hov in Hab. }
      by destruct (Hrem dv').
  - destruct (revise_keeps _ _ _ _ _ _ _ _ _ H Hdv Hw) as (dv' & Hdv' & Hw');
      [done|]. by destruct (Hrem dv').
Qed.

(** An invariant of the domain store that every call of [revise] keeps is
    kept by [ac3], whose result is never [False]. *)
Lemma ac3_loop_inv (P : gmap Var (list string) -> Prop) cw fuel var arcs d b d' :
  (forall x y d r d', P d -> revise cw x y d = Ok (r, d') -> P d') ->
  P d -> ac3_loop cw fuel var arcs d = Ok (b, d') -> P d' ∧ b = true.
Proof.
  intros Hrev. revert arcs d.
  induction fuel as [|fuel IH]; intros arcs d Hd H; simpl in H; [done|].
  destruct arcs as [|[x y] arcs]; [by inv H|].
  inv_bind H. destruct x0 as [revised d1].
  apply Hrev in E; [|done].
  destruct revised.
  - inv_bind H. unfold set_eq_int in H. inv_bind H. eauto.
  - eauto.
Qed.

Lemma ac3_inv (P : gmap Var (list string) -> Prop) cw fuel arcs d b d' :
  (forall x y d r d', P d -> revise cw x y d = Ok (r, d') -> P d') ->
  P d -> ac3 cw fuel arcs d = Ok (b, d') -> P d' ∧ b = true.
Proof.
  intros Hrev Hd H. destruct arcs; simpl in H; eapply ac3_loop_inv; eauto.
Qed.

(** ** Pruning keeps every solution *)

Lemma init_domains_lookup cw v :
  v ∈ variables cw -> init_domains cw !! v = Some (words cw).
Proof.
  unfold init_domains.
  assert (forall vs (d : gmap Var (list string)),
    v ∈ vs ∨ d !! v = Some (words cw) ->
    foldl (fun d var => <[var := words cw]> d) d vs !! v = Some (words cw)) as G.
  { induction vs as [|u vs IH]; intros d Hv; simpl.
    - destruct Hv as [Hv|Hv]; [by apply elem_of_nil in Hv|done].
    - apply IH. destruct (decide (u = v)) as [->|Hne].
      + right. apply lookup_insert_eq.
      + rewrite lookup_insert_ne by done.
        destruct Hv as [[->|Hv]%elem_of_cons|Hv]; auto. done. }
  intros Hv. apply G. by left.
Qed.

Lemma revise_keeps_solution cw a x y d r d' :
  crossword_wf cw -> assignment_is_complete cw a -> assignment_valid cw a ->
  within cw a d -> revise cw x y d = Ok (r, d') -> within cw a d'.
Proof.
  intros Hwf Hc Hv Hin H v w Hvar Hvw.
  destruct (Hin v w Hvar Hvw) as (dv & Hdv & Hw).
  eapply revise_keeps; eauto.
  intros -> p q Hov.
  assert (is_Some (overlaps cw !! (x, y))) as (_ & Hy & _)%(wf_overlaps_keys _ Hwf)
    by eauto.
  destruct (Hc y Hy) as [wy Hwy].
  destruct (Hin y wy Hy Hwy) as (dy & Hdy & Hwy').
  destruct (valid_overlaps _ _ Hv x y w wy p q Hvw Hwy Hov) as (c & Hc1 & Hc2).
  unfold supported. rewrite Hdy. apply Exists_exists. exists wy. split; [done|].
  congruence.
Qed.

Lemma pruning_keeps_solution cw fuel a d1 b d2 :
  crossword_wf cw -> assignment_is_complete cw a -> assignment_valid cw a ->
  (forall v w, dict_get a v = Some w -> w ∈ words cw) ->
  enforce_node_consistency cw (init_domains cw) = Ok d1 ->
  ac3 cw fuel None d1 = Ok (b, d2) ->
  within cw a d2.
Proof.
  intros Hwf Hc Hv Hw H1 H2.
  eapply (ac3_inv (within cw a)) in H2 as [? _]; [done| |].
  - intros x y d r d' Hd Hr. by eapply revise_keeps_solution.
  - intros v w Hvar Hvw.
    eapply enforce_node_consistency_keeps; [exact H1| | |].
    + by apply init_domains_lookup.
    + by eapply Hw.
    + by apply (valid_lengths _ _ Hv).
Qed.

(** ** Termination *)

Lemma returns_Ok {A} (a : A) : returns (Ok a).
Proof. done. Qed.

Lemma returns_Raise {A} e : returns (Raise e : outcome A).
Proof. done. Qed.

Lemma returns_bind {A B} (m : outcome A) (k : A -> outcome B) :
  returns m -> (forall a, m = Ok a -> returns (k a)) -> returns (bind m k).
Proof. intros Hm Hk. destruct m; simpl; [by apply Hk|done..]. Qed.

Lemma returns_for_each {A S} (body : A -> S -> outcome S) l s :
  (forall x t, returns (body x t)) -> returns (for_each body l s).
Proof.
  intros Hbody. revert s. induction l as [|x l IH]; intros s; simpl; [done|].
  apply returns_bind; auto.
Qed.

Ltac returns_tac :=
  repeat match goal with
  | |- returns (Ok _) => apply returns_Ok
  | |- returns (Raise _) => apply returns_Raise
  | |- returns (bind _ _) => apply returns_bind; [|intros ? ?]
  | |- returns (for_each _ _ _) => apply returns_for_each; intros ? ?
  | |- returns (if ?b then _ else _) => destruct b
  | |- returns (match ?x with _ => _ end) => destruct x
  end.

Lemma revise_returns cw x y d : returns (revise cw x y d).
Proof.
  unfold revise, revise_word, overlapping_with, overlapping_step,
    overlaps_get, domains_get, str_index, set_remove.
  returns_tac.
Qed.

Lemma consistent_returns cw a : returns (consistent cw a).
Proof.
  unfold consistent. generalize (@nil string). generalize a at 2.
  intros entries. induction entries as [|[var w] rest IH]; intros seen; simpl.
  - done.
  - unfold dict_index. returns_tac; auto.
    clear. induction (neighbors cw var) as [|n ns IH]; simpl; [done|].
    unfold dict_index, overlaps_get, str_index. returns_tac; auto.
Qed.

Lemma order_domain_values_returns cw d var a :
  returns (order_domain_values cw d var a).
Proof.
  unfold order_domain_values, odv_step, rule_out_count, rule_out_neighbor,
    rule_out_word, domains_get, overlaps_get, str_index.
  returns_tac.
Qed.

Lemma select_unassigned_variable_returns cw d a :
  returns (select_unassigned_variable cw d a).
Proof.
  unfold select_unassigned_variable, min_domain_scan, min_domain_body,
    domains_get.
  returns_tac.
Qed.

Lemma dict_del_returns a v : returns (dict_del a v).
Proof.
  induction a as [|[k w] a IH]; simpl; [done|]. returns_tac. done.
Qed.

Lemma total_size_insert (d : gmap Var (list string)) x dx dx' :
  d !! x = Some dx ->
  total_size (<[x := dx']> d) + length dx = total_size d + length dx'.
Proof.
  intros Hx. unfold total_size.
  rewrite <- (insert_delete_eq d).
  rewrite (map_fold_delete_L _ _ x dx d); [|intros; lia|done].
  rewrite map_fold_insert_L; [cbv beta; lia|intros; lia|apply lookup_delete_eq].
Qed.

Lemma revise_size cw x y d r d' :
  revise cw x y d = Ok (r, d') ->
  if r then total_size d' < total_size d else d' = d.
Proof.
  intros [[-> ->]|(a & b & dx & _ & _ & Hdx & -> & -> & Hex)]%revise_spec;
    [done|].
  pose proof (total_size_insert d x dx
                (filter (supported d y a b) dx) Hdx) as Hsz.
  apply Exists_exists in Hex as (w & Hw & Hns).
  pose proof (length_filter_lt (supported d y a b) dx w Hw Hns). lia.
Qed.

Lemma requeue_length cw var x y arcs arcs' :
  requeue cw var x y arcs = Ok arcs' ->
  length arcs' <= length arcs
    + match var with Some v => length (neighbors cw v) | None => 0 end.
Proof.
  destruct var as [v|]; simpl; [|done]. intros [= <-].
  generalize (neighbors cw v). intros ns. revert arcs.
  induction ns as [|n ns IH]; intros arcs; simpl; [lia|].
  etrans; [apply IH|]. case_decide; rewrite ?length_app; simpl; lia.
Qed.

Lemma ac3_loop_returns cw fuel var arcs d :
  ac3_fuel cw var arcs d < fuel -> returns (ac3_loop cw fuel var arcs d).
Proof.
  revert arcs d. induction fuel as [|fuel IH]; intros arcs d Hfuel; [lia|].
  simpl. destruct arcs as [|[x y] arcs]; [done|].
  apply returns_bind; [apply revise_returns|].
  intros [r d1] Hrev. apply revise_size in Hrev.
  unfold ac3_fuel in *. simpl in Hfuel. destruct r.
  - unfold domains_get, set_eq_int. returns_tac.
    { unfold requeue. returns_tac. }
    match goal with H : requeue _ _ _ _ _ = Ok _ |- _ =>
      apply requeue_length in H end.
    apply IH. nia.
  - subst d1. apply IH. lia.
Qed.

Lemma dict_set_unassigned cw a var value :
  var ∈ variables cw -> dict_get a var = None ->
  length (unassigned cw (dict_set a var value)) < length (unassigned cw a).
Proof.
  intros Hvar Hnone. unfold unassigned.
  induction (variables cw) as [|v vs IH]; [by apply elem_of_nil in Hvar|].
  assert (length (filter (fun v => dict_get (dict_set a var value) v = None) vs)
          <= length (filter (fun v => dict_get a v = None) vs)) as Hle.
  { clear. induction vs as [|u us IH]; [done|].
    rewrite !filter_cons, dict_get_set.
    destruct (decide (var = u)) as [->|Hne].
    - rewrite decide_False by done. case_decide; simpl; lia.
    - case_decide; simpl; lia. }
  rewrite !filter_cons, dict_get_set.
  destruct (decide (var = v)) as [->|Hne].
  - rewrite decide_False by done. rewrite decide_True by done. simpl. lia.
  - apply elem_of_cons in Hvar as [?|Hvar]; [done|].
    specialize (IH Hvar). case_decide; simpl; lia.
Qed.

Lemma try_values_returns cw rec var values a :
  dict_get a var = None ->
  (forall value, returns (rec (dict_set a var value))) ->
  (forall b b', rec b = Ok (b', false) -> b' = b) ->
  returns (try_values cw rec var values a).
Proof.
  intros Hvar Hrec Hatomic.
  induction values as [|value values IH]; simpl; [done|].
  apply returns_bind; [apply consistent_returns|]. intros ok _.
  rewrite dict_set_fresh by done. destruct ok.
  - apply returns_bind; [rewrite <- (dict_set_fresh a var value) by done; apply Hrec|].
    intros [a2 found] Hrec2. destruct found; [done|].
    apply Hatomic in Hrec2 as ->. by rewrite dict_del_fresh.
  - by rewrite dict_del_fresh.
Qed.

Lemma backtrack_returns cw d fuel a :
  length (unassigned cw a) < fuel -> returns (backtrack cw d fuel a).
Proof.
  revert a. induction fuel as [|fuel IH]; intros a Hfuel; [lia|].
  simpl. destruct (assignment_complete cw a); [done|].
  apply returns_bind; [apply select_unassigned_variable_returns|].
  intros [var|] Hsel; [|done].
  apply select_unassigned_variable_sound in Hsel as [Hvar Hnone%dict_mem_false].
  apply returns_bind; [apply order_domain_values_returns|]. intros values _.
  apply try_values_returns; [done| |apply backtrack_atomic].
  intros value. apply IH.
  pose proof (dict_set_unassigned cw a var value Hvar Hnone). lia.
Qed.

(** ** More fuel does not change a result *)

Lemma returns_bind_inv {A B} (m : outcome A) (k : A -> outcome B) :
  returns (bind m k) -> returns m.
Proof. by destruct m. Qed.

Lemma bind_ext_returns {A B} (m : outcome A) (k k' : A -> outcome B) :
  returns (bind m k) ->
  (forall a, m = Ok a -> returns (k a) -> k' a = k a) ->
  bind m k' = bind m k.
Proof. destruct m; simpl; auto. Qed.

Lemma ac3_loop_mono cw fuel fuel' var arcs d :
  fuel <= fuel' -> returns (ac3_loop cw fuel var arcs d) ->
  ac3_loop cw fuel' var arcs d = ac3_loop cw fuel var arcs d.
Proof.
  revert fuel' arcs d.
  induction fuel as [|fuel IH]; intros fuel' arcs d Hle Hret; [by destruct Hret|].
  destruct fuel' as [|fuel']; [lia|]. simpl in *.
  destruct arcs as [|[x y] arcs]; [done|].
  apply bind_ext_returns; [done|]. intros [r d1] _ Hk.
  destruct r; [|apply IH; [lia|done]].
  apply bind_ext_returns; [done|]. intros dx _ Hk2.
  unfold set_eq_int in *.
  apply bind_ext_returns; [done|]. intros arcs' _ Hk3.
  apply IH; [lia|done].
Qed.

Lemma try_values_mono cw rec rec' var values a :
  (forall b, returns (rec b) -> rec' b = rec b) ->
  returns (try_values cw rec var values a) ->
  try_values cw rec' var values a = try_values cw rec var values a.
Proof.
  intros Hrec. revert a.
  induction values as [|value values IH]; intros a Hret; simpl in *; [done|].
  apply bind_ext_returns; [done|]. intros ok _ Hk. destruct ok.
  - rewrite Hrec by (by apply returns_bind_inv in Hk).
    apply bind_ext_returns; [done|]. intros [a2 found] _ Hk2.
    destruct found; [done|].
    apply bind_ext_returns; [done|]. intros a3 _ Hk3. by apply IH.
  - apply bind_ext_returns; [done|]. intros a3 _ Hk3. by apply IH.
Qed.

Lemma backtrack_mono cw d fuel fuel' a :
  fuel <= fuel' -> returns (backtrack cw d fuel a) ->
  backtrack cw d fuel' a = backtrack cw d fuel a.
Proof.
  revert fuel' a.
  induction fuel as [|fuel IH]; intros fuel' a Hle Hret; [by destruct Hret|].
  destruct fuel' as [|fuel']; [lia|]. simpl in *.
  destruct (assignment_complete cw a); [done|].
  apply bind_ext_returns; [done|]. intros [var|] _ Hk; [|done].
  apply bind_ext_returns; [done|]. intros values _ Hk2.
  apply try_values_mono; [|done]. intros b Hb. apply IH; [lia|done].
Qed.

Lemma solve_mono cw fuel fuel' :
  fuel <= fuel' -> returns (solve cw fuel) -> solve cw fuel' = solve cw fuel.
Proof.
  intros Hle Hret. unfold solve in *.
  apply bind_ext_returns; [done|]. intros d1 _ Hk.
  pose proof (returns_bind_inv _ _ Hk) as Hac3.
  unfold ac3 in *. rewrite (ac3_loop_mono cw fuel fuel') by done.
  apply bind_ext_returns; [done|]. intros [b d2] _ Hk2.
  pose proof (returns_bind_inv _ _ Hk2) as Hbt.
  by rewrite (backtrack_mono cw d2 fuel fuel') by done.
Qed.

Lemma solve_returns cw :
  ∃ fuel, returns (solve cw fuel).
Proof.
  destruct (enforce_node_consistency cw (init_domains cw)) as [d1|e|] eqn:E1.
  - exists (S (ac3_fuel cw (last (variables cw)) (initial_arcs cw) d1
               + length (variables cw))).
    unfold solve. rewrite E1. cbn [bind]. unfold ac3.
    apply returns_bind.
    { apply ac3_loop_returns. lia. }
    intros [b d2] _. apply returns_bind; [|by intros [? []] _].
    apply backtrack_returns.
    unfold unassigned. apply Nat.lt_succ_r.
    etrans; [apply length_filter|lia].
  - exists 0. unfold solve. by rewrite E1.
  - exfalso. revert E1. unfold enforce_node_consistency.
    apply returns_for_each. intros var d.
    unfold node_consistency_step, domains_get, set_remove. returns_tac.
Qed.

(** ** The domain store during [solve] *)

Lemma filter_filter_same {A} (P : A -> Prop) `{!forall x, Decision (P x)}
    (l : list A) :
  filter P (filter P l) = filter P l.
Proof. apply filter_all. by intros x [? _]%list_elem_of_filter. Qed.

Lemma node_consistency_loop l (d0 : gmap Var (list string)) :
  (forall v, v ∈ l -> is_Some (d0 !! v)) ->
  (forall v dv, d0 !! v = Some dv -> NoDup dv) ->
  ∃ d', for_each node_consistency_step l d0 = Ok d' ∧
    forall v, d' !! v =
      if decide (v ∈ l)
      then filter (fun w => String.length w = var_length v) <$> d0 !! v
      else d0 !! v.
Proof.
  revert d0. induction l as [|x l IH]; intros d0 Hdom Hsets.
  - exists d0. split; [done|]. intros v. by rewrite decide_False by apply not_elem_of_nil.
  - destruct (Hdom x) as [dx Hdx]; [left|].
    pose (dx' := filter (fun w => String.length w = var_length x) dx).
    assert (node_consistency_step x d0 = Ok (<[x := dx']> d0)) as Hstep.
    { unfold node_consistency_step, domains_get. rewrite Hdx. simpl.
      rewrite set_remove_loop_total.
      - simpl. do 2 f_equal. apply filter_ext_in. intros w Hw.
        rewrite list_elem_of_filter.
        destruct (decide (String.length w = var_length x)); tauto.
      - apply NoDup_filter. by eapply Hsets.
      - intros w [_ ?]%list_elem_of_filter. done. }
    destruct (IH (<[x := dx']> d0)) as (d' & Hloop & Hd').
    { intros v Hv. destruct (decide (x = v)) as [->|Hne].
      - rewrite lookup_insert_eq. eauto.
      - rewrite lookup_insert_ne by done. apply Hdom. by right. }
    { intros v dv. destruct (decide (x = v)) as [->|Hne].
      - rewrite lookup_insert_eq. intros [= <-]. apply NoDup_filter. eauto.
      - rewrite lookup_insert_ne by done. eauto. }
    exists d'. split; [simpl; by rewrite Hstep|].
    intros v. rewrite Hd'. destruct (decide (x = v)) as [->|Hne].
    + rewrite lookup_insert_eq, Hdx.
      rewrite (decide_True (P := v ∈ v :: l)) by left. simpl.
      case_decide; [|done]. unfold dx'. by rewrite filter_filter_same.
    + rewrite lookup_insert_ne by done.
      destruct (decide (v ∈ l)) as [Hin|Hnin].
      * rewrite (decide_True (P := v ∈ x :: l)) by (by right). done.
      * rewrite (decide_False (P := v ∈ x :: l)); [done|].
        intros [?|?]%elem_of_cons; done.
Qed.

Lemma init_domains_keys cw v dv :
  init_domains cw !! v = Some dv -> v ∈ variables cw ∧ dv = words cw.
Proof.
  unfold init_domains.
  assert (forall vs (d : gmap Var (list string)),
    foldl (fun d var => <[var := words cw]> d) d vs !! v = Some dv ->
    (v ∈ vs ∧ dv = words cw) ∨ d !! v = Some dv) as G.
  { induction vs as [|u vs IH]; intros d Hv; simpl in Hv; [by right|].
    apply IH in Hv as [[? ?]|Hv]; [left; split; [by right|done]|].
    destruct (decide (u = v)) as [->|Hne].
    - rewrite lookup_insert_eq in Hv. inv Hv. left. split; [left|done].
    - rewrite lookup_insert_ne in Hv by done. by right. }
  intros [?|Hv]%G; [done|]. by rewrite lookup_empty in Hv.
Qed.

Lemma enforce_node_consistency_ok cw :
  crossword_wf cw ->
  ∃ d1, enforce_node_consistency cw (init_domains cw) = Ok d1 ∧
        domains_ok cw d1.
Proof.
  intros Hwf.
  destruct (node_consistency_loop (variables cw) (init_domains cw))
    as (d1 & Hrun & Hd1).
  { intros v Hv. rewrite init_domains_lookup by done. eauto. }
  { intros v dv [_ ->]%init_domains_keys. apply (wf_words _ Hwf). }
  exists d1. split; [done|]. split.
  - apply Forall_forall. intros v Hv. rewrite Hd1, decide_True by done.
    rewrite init_domains_lookup by done. simpl. eauto.
  - intros v dv. rewrite Hd1. case_decide.
    + rewrite init_domains_lookup by done. simpl. intros [= <-].
      apply NoDup_filter, (wf_words _ Hwf).
    + by intros [? _]%init_domains_keys.
  - intros v dv. rewrite Hd1. case_decide.
    + rewrite init_domains_lookup by done. simpl. intros [= <-].
      apply Forall_forall. by intros w [? _]%list_elem_of_filter.
    + by intros [? _]%init_domains_keys.
Qed.

Lemma revise_domains_ok cw x y d r d' :
  domains_ok cw d -> revise cw x y d = Ok (r, d') -> domains_ok cw d'.
Proof.
  intros Hd [[_ ->]|(a & b & dx & _ & _ & Hdx & _ & -> & _)]%revise_spec;
    [done|].
  split.
  - apply Forall_forall. intros v Hv.
    destruct (domains_ok_lookup _ _ v Hd Hv) as [dv Hdv].
    destruct (decide (x = v)) as [->|Hne].
    + rewrite lookup_insert_eq. eauto.
    + rewrite lookup_insert_ne by done. eauto.
  - apply map_Forall_insert_2; [|apply (dom_sets _ _ Hd)].
    apply NoDup_filter. by eapply domains_ok_nodup.
  - apply map_Forall_insert_2; [|apply (dom_node_consistent _ _ Hd)].
    apply Forall_forall. intros w [_ Hw]%list_elem_of_filter.
    by eapply domains_ok_length.
Qed.

(** ** Backtracking tries every value *)

Lemma try_values_exhausted cw rec var values a a' :
  (forall b b', rec b = Ok (b', false) -> b' = b) ->
  dict_get a var = None ->
  try_values cw rec var values a = Ok (a', false) ->
  forall w, w ∈ values ->
    consistent cw (dict_set a var w) = Ok false ∨
    rec (dict_set a var w) = Ok (dict_set a var w, false).
Proof.
  intros Hrec Hvar. induction values as [|value values IH]; intros H w Hw.
  - by apply elem_of_nil in Hw.
  - simpl in H. inv_bind H. destruct x.
    + inv_bind H. destruct x as [a2 found]. destruct found; [done|].
      pose proof (Hrec _ _ E0) as ->. rewrite dict_set_fresh in H by done.
      rewrite dict_del_fresh in H by done. simpl in H.
      apply elem_of_cons in Hw as [->|Hw]; [by right|by apply IH].
    + rewrite dict_set_fresh in H by done.
      rewrite dict_del_fresh in H by done. simpl in H.
      apply elem_of_cons in Hw as [->|Hw]; [by left|by apply IH].
Qed.

Lemma backtrack_S cw d fuel a :
  backtrack cw d (S fuel) a =
    if assignment_complete cw a then Ok (a, true) else
    do sel <- select_unassigned_variable cw d a;
    match sel with
    | None => Raise KeyError
    | Some var =>
        do values <- order_domain_values cw d var a;
        try_values cw (backtrack cw d fuel) var values a
    end.
Proof. reflexivity. Qed.

Lemma backtrack_exhausted cw d fuel var dv l a a' :
  select_unassigned_variable cw d a = Ok (Some var) ->
  order_domain_values cw d var a = Ok l -> l ≡ₚ dv ->
  backtrack cw d (S fuel) a = Ok (a', false) ->
  forall w, w ∈ dv ->
    consistent cw (dict_set a var w) = Ok false ∨
    backtrack cw d fuel (dict_set a var w) = Ok (dict_set a var w, false).
Proof.
  intros Hsel Hodv Hperm H w Hw. rewrite backtrack_S in H.
  destruct (assignment_complete cw a); [done|].
  rewrite Hsel in H. cbn [bind] in H. rewrite Hodv in H. cbn [bind] in H.
  apply select_unassigned_variable_sound in Hsel as [_ Hvar%dict_mem_false].
  eapply try_values_exhausted; eauto using backtrack_atomic.
  by rewrite Hperm.
Qed.

(** ** No exception on a well-formed crossword *)

Lemma for_each_total {A S} (body : A -> S -> outcome S) l s :
  (forall x t, x ∈ l -> ∃ t', body x t = Ok t') ->
  ∃ s', for_each body l s = Ok s'.
Proof.
  revert s. induction l as [|x l IH]; intros s Hbody; simpl; [eauto|].
  destruct (Hbody x s) as [s1 ->]; [left|]. simpl.
  apply IH. intros y t Hy. apply Hbody. by right.
Qed.

Lemma revise_total cw x y d :
  crossword_wf cw -> domains_ok cw d ->
  x ∈ variables cw -> y ∈ variables cw ->
  ∃ r d', revise cw x y d = Ok (r, d').
Proof.
  intros Hwf Hd Hx Hy. unfold revise.
  destruct (decide (x = y)); [eauto|].
  destruct (proj2 (wf_overlaps_keys _ Hwf x y)) as [o Ho]; [done|].
  unfold overlaps_get. rewrite Ho. simpl.
  destruct o as [[a b]|]; [|eauto].
  destruct (wf_overlaps_bounds _ Hwf _ _ _ _ Ho) as [Ha Hb].
  destruct (domains_ok_lookup _ _ x Hd Hx) as [dx Hdx].
  destruct (domains_ok_lookup _ _ y Hd Hy) as [dy Hdy].
  unfold domains_get at 1. rewrite Hdx. simpl.
  destruct (for_each_total (revise_word d y a b) dx (false, []))
    as [[rev tr] Hscan].
  { intros w [rev tr] Hw. unfold revise_word.
    destruct (str_index_lt w a) as (c1 & -> & _).
    { by rewrite (domains_ok_length _ _ x dx w Hd). }
    unfold domains_get. rewrite Hdy. simpl.
    destruct (for_each_total (overlapping_step c1 b) dy false) as [o' Ho'].
    { intros w' t Hw'. unfold overlapping_step.
      destruct (str_index_lt w' b) as (c & -> & _); [|simpl; eauto].
      by rewrite (domains_ok_length _ _ y dy w' Hd). }
    unfold overlapping_with. rewrite Ho'. simpl. eauto. }
  rewrite Hscan. simpl.
  apply revise_scan in Hscan as [-> _]. simpl.
  rewrite set_remove_loop_total; [simpl; eauto| |].
  - apply NoDup_filter. by eapply domains_ok_nodup.
  - by intros w [_ ?]%list_elem_of_filter.
Qed.

Lemma neighbor_variable cw v n :
  crossword_wf cw -> v ∈ variables cw -> n ∈ neighbors cw v ->
  n ∈ variables cw.
Proof. intros Hwf Hv Hn. by apply (neighbor_overlap cw v n Hwf Hv). Qed.

Lemma requeue_arcs cw v x y arcs arcs' :
  crossword_wf cw -> v ∈ variables cw -> x ∈ variables cw ->
  Forall (fun e : arc => e.1 ∈ variables cw ∧ e.2 ∈ variables cw) arcs ->
  requeue cw (Some v) x y arcs = Ok arcs' ->
  Forall (fun e : arc => e.1 ∈ variables cw ∧ e.2 ∈ variables cw) arcs'.
Proof.
  intros Hwf Hv Hx Harcs H. unfold requeue in H. injection H as <-.
  apply (foldl_inv (Forall (fun e : arc =>
    e.1 ∈ variables cw ∧ e.2 ∈ variables cw))); [done|].
  intros n arcs0 Hn Harcs0. case_decide; [|done].
  apply Forall_app. split; [done|]. apply Forall_singleton. split; [done|].
  exact (neighbor_variable cw v n Hwf Hv Hn).
Qed.

Lemma ac3_loop_S cw fuel var x y arcs d :
  ac3_loop cw (S fuel) var ((x, y) :: arcs) d =
    do '(revised, d) <- revise cw x y d;
    if revised : bool then
      do dx <- domains_get d x;
      if set_eq_int dx 0 then Ok (false, d) else
      do arcs <- requeue cw var x y arcs;
      ac3_loop cw fuel var arcs d
    else ac3_loop cw fuel var arcs d.
Proof. reflexivity. Qed.

Lemma ac3_loop_total cw fuel v arcs d :
  crossword_wf cw -> domains_ok cw d -> v ∈ variables cw ->
  Forall (fun e : arc => e.1 ∈ variables cw ∧ e.2 ∈ variables cw) arcs ->
  ac3_fuel cw (Some v) arcs d < fuel ->
  ∃ d', ac3_loop cw fuel (Some v) arcs d = Ok (true, d') ∧ domains_ok cw d'.
Proof.
  intros Hwf Hd Hv Harcs Hfuel.
  pose proof (ac3_loop_returns cw fuel (Some v) arcs d Hfuel) as Hret.
  clear Hfuel. revert arcs d Hd Harcs Hret.
  induction fuel as [|fuel IH]; intros arcs d Hd Harcs Hret;
    [by destruct Hret|].
  destruct arcs as [|[x y] arcs]; [simpl; eauto|].
  apply Forall_cons in Harcs as [[Hx Hy] Harcs]. simpl in Hx, Hy.
  rewrite ac3_loop_S in Hret |- *.
  destruct (revise_total cw x y d Hwf Hd Hx Hy) as (r & d1 & Hrev).
  rewrite Hrev in Hret |- *. cbn [bind] in Hret |- *.
  pose proof (revise_domains_ok _ _ _ _ _ _ Hd Hrev) as Hd1.
  destruct r; [|by apply IH].
  destruct (domains_ok_lookup _ _ x Hd1 Hx) as [dx Hdx].
  unfold domains_get, set_eq_int in Hret |- *.
  rewrite Hdx in Hret |- *. cbn [bind] in Hret |- *.
  destruct (requeue cw (Some v) x y arcs) as [arcs'| |] eqn:Hq; [|done..].
  cbn [bind] in Hret |- *. apply IH; [done| |done].
  exact (requeue_arcs cw v x y arcs arcs' Hwf Hv Hx Harcs Hq).
Qed.

Lemma initial_arcs_variables cw :
  crossword_wf cw ->
  Forall (fun e : arc => e.1 ∈ variables cw ∧ e.2 ∈ variables cw)
    (initial_arcs cw).
Proof.
  intros Hwf. apply Forall_forall. intros [x y] Hxy.
  apply (initial_arcs_one_way cw Hwf) in Hxy as [Hx Hy].
  split; [done|]. exact (neighbor_variable cw x y Hwf Hx Hy).
Qed.

Lemma ac3_total cw d :
  crossword_wf cw -> domains_ok cw d ->
  ∃ fuel d', ac3 cw fuel None d = Ok (true, d') ∧ domains_ok cw d'.
Proof.
  intros Hwf Hd. unfold ac3.
  destruct (last (variables cw)) as [v|] eqn:Hlast.
  - exists (S (ac3_fuel cw (Some v) (initial_arcs cw) d)).
    apply ac3_loop_total; try done; [|by apply initial_arcs_variables|lia].
    apply last_Some in Hlast as [l ->]. apply elem_of_app. right. by left.
  - apply last_None in Hlast. exists 1. unfold initial_arcs.
    rewrite Hlast. simpl. eauto.
Qed.

(** ** No exception during the search *)

Lemma dict_get_of_elem (a : Assignment) v w0 :
  (v, w0) ∈ a -> ∃ w, dict_get a v = Some w.
Proof.
  induction a as [|[k w'] a IH]; intros Hin; [by apply elem_of_nil in Hin|].
  simpl. destruct (decide (k = v)); [eauto|].
  apply elem_of_cons in Hin as [[= <- <-]|Hin]; [done|auto].
Qed.

Lemma check_neighbors_total cw a var wv ns :
  crossword_wf cw -> entries_ok cw a -> var ∈ variables cw ->
  dict_get a var = Some wv -> String.length wv = var_length var ->
  (forall n, n ∈ ns -> n ∈ neighbors cw var) ->
  ∃ b, check_neighbors cw a var ns = Ok b.
Proof.
  intros Hwf Ha Hvar Hwv Hlen. induction ns as [|n ns IH]; intros Hns; simpl.
  - eauto.
  - destruct (dict_mem a n) eqn:Hn; [|apply IH; intros; apply Hns; by right].
    apply dict_mem_true in Hn as [wn Hwn].
    destruct (neighbor_overlap cw var n Hwf Hvar) as (_ & _ & p & q & Hov & Hp & Hq);
      [apply Hns; left|].
    destruct (Ha n wn (dict_get_elem _ _ _ Hwn)) as [_ Hlenn].
    unfold dict_index, overlaps_get. rewrite Hwv, Hov, Hwn. simpl.
    destruct (str_index_lt wv p) as (c1 & -> & _); [lia|].
    destruct (str_index_lt wn q) as (c2 & -> & _); [lia|]. simpl.
    destruct (decide (c1 = c2)); [|eauto].
    apply IH. intros; apply Hns; by right.
Qed.

Lemma consistent_total cw a :
  crossword_wf cw -> entries_ok cw a -> ∃ b, consistent cw a = Ok b.
Proof.
  intros Hwf Ha. unfold consistent.
  assert (forall entries seen, (forall e, e ∈ entries -> e ∈ a) ->
    ∃ b, consistent_loop cw a entries seen = Ok b) as G; [|by apply G].
  induction entries as [|[var w0] rest IH]; intros seen Hsub; simpl; [eauto|].
  destruct (dict_get_of_elem a var w0) as [w Hw]; [apply Hsub; left|].
  destruct (Ha var w (dict_get_elem _ _ _ Hw)) as [Hvar Hlen].
  unfold dict_index. rewrite Hw. simpl.
  destruct (decide (var_length var = String.length w)); [|eauto].
  destruct (decide (w ∈ seen)); [eauto|].
  destruct (check_neighbors_total cw a var w (neighbors cw var))
    as [b ->]; try done.
  simpl. destruct b; [|eauto]. apply IH. intros; apply Hsub; by right.
Qed.

Lemma entries_ok_set cw a var value :
  entries_ok cw a -> dict_get a var = None ->
  var ∈ variables cw -> String.length value = var_length var ->
  entries_ok cw (dict_set a var value).
Proof.
  intros Ha Hnone Hvar Hlen v w. rewrite dict_set_fresh by done.
  intros [Hin|[= -> ->]%list_elem_of_singleton]%elem_of_app; auto.
Qed.

Lemma try_values_total cw rec var values a :
  crossword_wf cw -> entries_ok cw a ->
  dict_get a var = None -> var ∈ variables cw ->
  (forall w, w ∈ values -> String.length w = var_length var) ->
  (forall b, entries_ok cw b -> length (unassigned cw b) < length (unassigned cw a) ->
     ∃ b' found, rec b = Ok (b', found)) ->
  (forall b b', rec b = Ok (b', false) -> b' = b) ->
  ∃ a' found, try_values cw rec var values a = Ok (a', found).
Proof.
  intros Hwf Ha Hnone Hvar Hlen Hrec Hatomic.
  induction values as [|value values IH]; simpl; [eauto|].
  assert (entries_ok cw (dict_set a var value)) as Ha1.
  { apply entries_ok_set; auto. apply Hlen. left. }
  destruct (consistent_total cw _ Hwf Ha1) as [ok ->]. simpl.
  assert (∃ a' found, try_values cw rec var values a = Ok (a', found)) as Hrest.
  { apply IH. intros; apply Hlen; by right. }
  destruct ok.
  - destruct (Hrec (dict_set a var value) Ha1) as (a2 & found & Hr).
    { by apply dict_set_unassigned. }
    rewrite Hr. simpl. destruct found; [eauto|].
    apply Hatomic in Hr as ->. rewrite dict_set_fresh by done.
    by rewrite dict_del_fresh.
  - rewrite dict_set_fresh by done. by rewrite dict_del_fresh.
Qed.

Lemma assignment_incomplete cw a :
  assignment_complete cw a = false ->
  ∃ u, u ∈ variables cw ∧ dict_get a u = None.
Proof.
  unfold assignment_complete.
  induction (variables cw) as [|v vs IH]; simpl; [done|].
  destruct (dict_mem a v) eqn:Hv; simpl.
  - intros (u & ? & ?)%IH. exists u. split; [by right|done].
  - intros _. exists v. split; [left|by apply dict_mem_false].
Qed.

Lemma backtrack_total cw d fuel a :
  crossword_wf cw -> domains_ok cw d -> sizes_ok cw d -> entries_ok cw a ->
  length (unassigned cw a) < fuel ->
  ∃ a' found, backtrack cw d fuel a = Ok (a', found).
Proof.
  intros Hwf Hd Hs. revert a.
  induction fuel as [|fuel IH]; intros a Ha Hfuel; [lia|].
  rewrite backtrack_S.
  destruct (assignment_complete cw a) eqn:Hc; [eauto|].
  apply assignment_incomplete in Hc as (u & Hu & Hau).
  destruct (select_unassigned_variable_spec cw d a u)
    as (var & -> & Hvar & Havar & _); try done.
  - apply Forall_forall. intros v Hv. by eapply domains_ok_lookup.
  - apply (sizes_degrees _ _ Hs).
  - by apply (sizes_domains _ _ Hs).
  - cbn [bind].
    destruct (domains_ok_lookup _ _ var Hd Hvar) as [dv Hdv].
    rewrite (order_domain_values_total cw d var a dv) by done. cbn [bind].
    apply try_values_total; try done.
    + intros w Hw. rewrite sorted_values_perm in Hw.
      by eapply domains_ok_length.
    + intros b Hb Hlt. apply IH; [done|lia].
    + apply backtrack_atomic.
Qed.

Lemma init_domains_bounded cw : bounded cw (init_domains cw).
Proof. by intros v dv [_ ->]%init_domains_keys. Qed.

Lemma enforce_node_consistency_bounded cw d d' :
  bounded cw d -> enforce_node_consistency cw d = Ok d' -> bounded cw d'.
Proof.
  intros Hb H. unfold enforce_node_consistency in H.
  eapply (for_each_inv (bounded cw)); [exact Hb| |exact H].
  intros var d1 d2 _ Hd1 (dv & Hdv & ->)%node_consistency_step_spec.
  apply map_Forall_insert_2; [|done].
  etrans; [apply length_filter|]. by apply (Hd1 var).
Qed.

Lemma revise_bounded cw x y d r d' :
  bounded cw d -> revise cw x y d = Ok (r, d') -> bounded cw d'.
Proof.
  intros Hb [[_ ->]|(a & b & dx & _ & _ & Hdx & _ & -> & _)]%revise_spec;
    [done|].
  apply map_Forall_insert_2; [|done].
  etrans; [apply length_filter|]. by apply (Hb x).
Qed.

Lemma bounded_sizes_ok cw d :
  (Z.of_nat (length (words cw)) <= 1000000)%Z ->
  Forall (fun v => (degree cw v < 1000000)%Z) (variables cw) ->
  bounded cw d -> sizes_ok cw d.
Proof.
  intros Hwords Hdeg Hb. split; [|done].
  intros v _. unfold domain_size.
  destruct (d !! v) as [dv|] eqn:Hdv; [|lia].
  pose proof (Hb v dv Hdv) as Hle. simpl in Hle. lia.
Qed.

Lemma solve_total cw :
  crossword_wf cw ->
  (Z.of_nat (length (words cw)) <= 1000000)%Z ->
  Forall (fun v => (degree cw v < 1000000)%Z) (variables cw) ->
  ∃ fuel r, solve cw fuel = Ok r.
Proof.
  intros Hwf Hwords Hdeg.
  destruct (enforce_node_consistency_ok cw Hwf) as (d1 & H1 & Hd1).
  pose proof (enforce_node_consistency_bounded _ _ _
                (init_domains_bounded cw) H1) as Hb1.
  destruct (ac3_total cw d1 Hwf Hd1) as (fuel1 & d2 & H2 & Hd2).
  assert (bounded cw d2) as Hb2.
  { eapply (ac3_inv (bounded cw)) in H2 as [? _]; [done| |done].
    intros x y d r d'. apply revise_bounded. }
  destruct (backtrack_total cw d2 (S (length (variables cw))) [])
    as (a' & found & H3); try done.
  { by apply bounded_sizes_ok. }
  { by intros v w ?%elem_of_nil. }
  { unfold unassigned. apply Nat.lt_succ_r, length_filter. }
  exists (fuel1 `max` S (length (variables cw))).
  eexists. unfold solve. rewrite H1. cbn [bind].
  unfold ac3 in *. rewrite (ac3_loop_mono cw fuel1); [|lia|by rewrite H2].
  rewrite H2. cbn [bind].
  rewrite (backtrack_mono cw d2 (S (length (variables cw)))); [|lia|by rewrite H3].
  rewrite H3. cbn [bind]. reflexivity.
Qed.

(** ** [consistent] accepts every valid dictionary *)

Lemma check_neighbors_complete cw a var wv ns :
  crossword_wf cw -> assignment_valid cw a -> var ∈ variables cw ->
  dict_get a var = Some wv ->
  (forall n, n ∈ ns -> n ∈ neighbors cw var) ->
  check_neighbors cw a var ns = Ok true.
Proof.
  intros Hwf Hv Hvar Hwv. induction ns as [|n ns IH]; intros Hns; simpl.
  - done.
  - destruct (dict_mem a n) eqn:Hn; [|apply IH; intros; apply Hns; by right].
    apply dict_mem_true in Hn as [wn Hwn].
    destruct (neighbor_overlap cw var n Hwf Hvar) as (_ & _ & p & q & Hov & _);
      [apply Hns; left|].
    destruct (valid_overlaps _ _ Hv var n wv wn p q Hwv Hwn Hov)
      as (c & Hc1 & Hc2).
    unfold dict_index, overlaps_get, str_index.
    rewrite Hwv, Hov. cbn [bind]. rewrite Hc1, Hwn. cbn [bind].
    rewrite Hc2. cbn [bind].
    rewrite decide_True by done. apply IH. intros; apply Hns; by right.
Qed.

Lemma dict_get_NoDup (a : Assignment) v w :
  NoDup a.*1 -> (v, w) ∈ a -> dict_get a v = Some w.
Proof.
  induction a as [|[k w'] a IH]; intros Hnd Hin; [by apply elem_of_nil in Hin|].
  simpl in *. apply NoDup_cons in Hnd as [Hk Hnd].
  apply elem_of_cons in Hin as [[= <- <-]|Hin].
  - by rewrite decide_True.
  - rewrite decide_False; [by apply IH|].
    intros ->. apply Hk. apply list_elem_of_fmap. by exists (v, w).
Qed.

Lemma consistent_loop_complete cw a entries seen :
  crossword_wf cw -> assignment_valid cw a -> NoDup a.*1 ->
  (forall v w, (v, w) ∈ a -> v ∈ variables cw) ->
  (forall e, e ∈ entries -> e ∈ a) -> NoDup entries ->
  (forall v w, (v, w) ∈ entries -> w ∉ seen) ->
  consistent_loop cw a entries seen = Ok true.
Proof.
  intros Hwf Hv Hnd Hvars. revert seen.
  induction entries as [|[var w] rest IH]; intros seen Hsub Hnde Hseen; simpl.
  - done.
  - apply NoDup_cons in Hnde as [Hnot Hnde].
    assert ((var, w) ∈ a) as Hin by (apply Hsub; left).
    pose proof (dict_get_NoDup a var w Hnd Hin) as Hget.
    unfold dict_index. rewrite Hget. cbn [bind].
    rewrite decide_True by (symmetry; by apply (valid_lengths _ _ Hv)).
    rewrite decide_False by (eapply Hseen; left).
    rewrite (check_neighbors_complete cw a var w); eauto. cbn [bind].
    apply IH; [intros; apply Hsub; by right|done|].
    intros v w' Hin' [Hs| ->%list_elem_of_singleton]%elem_of_app.
    + eapply Hseen; [by right|done].
    + assert ((v, w) ∈ a) as Hin2 by (apply Hsub; by right).
      pose proof (dict_get_NoDup a v w Hnd Hin2) as Hget2.
      pose proof (valid_distinct _ _ Hv var v w Hget Hget2) as ->. done.
Qed.

Lemma consistent_complete cw a :
  crossword_wf cw -> NoDup a.*1 ->
  (forall v w, (v, w) ∈ a -> v ∈ variables cw) ->
  assignment_valid cw a -> consistent cw a = Ok true.
Proof.
  intros Hwf Hnd Hvars Hv. unfold consistent.
  apply consistent_loop_complete; try done.
  - by eapply NoDup_fmap_1.
  - intros v w _. apply not_elem_of_nil.
Qed.

(** ** The values tried by [backtrack] are the domain of the variable *)

Lemma odv_loop_fst cw d var a dv acc res :
  for_each (odv_step cw d var a) dv acc = Ok res -> res.*1 = acc.*1 ++ dv.
Proof.
  revert acc. induction dv as [|w dv IH]; intros acc H; simpl in H.
  - inversion H. by rewrite app_nil_r.
  - inv_bind H. unfold odv_step in E. inv_bind E. inversion E; subst.
    rewrite (IH _ H), fmap_app. simpl. by rewrite <- app_assoc.
Qed.

Lemma order_domain_values_perm cw d var a l :
  order_domain_values cw d var a = Ok l ->
  ∃ dv, d !! var = Some dv ∧ l ≡ₚ dv.
Proof.
  unfold order_domain_values, domains_get. intros H.
  destruct (d !! var) as [dv|] eqn:Hdv; [|done]. cbn [bind] in H.
  inv_bind H. inversion H; subst. exists dv. split; [done|].
  apply odv_loop_fst in E. simpl in E. rewrite <- E.
  change (map fst ?l) with (l.*1). by rewrite list_sort_perm.
Qed.

(** ** Completeness of the search *)


Lemma agrees_valid cw a s :
  agrees a s -> assignment_valid cw s -> assignment_valid cw a.
Proof.
  intros Ha Hs. split.
  - intros v w Hv. apply (valid_lengths _ _ Hs). auto.
  - intros u v w Hu Hv. apply (valid_distinct _ _ Hs u v w); auto.
  - intros u v wu wv p q Hu Hv. apply (valid_overlaps _ _ Hs); auto.
Qed.

Lemma agrees_set a s var w :
  agrees a s -> dict_get s var = Some w -> agrees (dict_set a var w) s.
Proof.
  intros Ha Hs v w'. rewrite dict_get_set.
  destruct (decide (var = v)) as [->|]; [congruence|apply Ha].
Qed.

Lemma backtrack_complete cw d s fuel a a' :
  crossword_wf cw ->
  assignment_is_complete cw s -> assignment_valid cw s -> within cw s d ->
  NoDup a.*1 -> (forall v w, (v, w) ∈ a -> v ∈ variables cw) -> agrees a s ->
  backtrack cw d fuel a ≠ Ok (a', false).
Proof.
  intros Hwf Hc Hv Hin. revert a a'.
  induction fuel as [|fuel IH]; intros a a' Hnd Hvars Hag H; [done|].
  pose proof H as H0. rewrite backtrack_S in H.
  destruct (assignment_complete cw a); [done|].
  inv_bind H. destruct x as [var|]; [|done]. inv_bind H.
  destruct (select_unassigned_variable_sound _ _ _ _ E) as [Hvar Hnone].
  apply dict_mem_false in Hnone.
  destruct (order_domain_values_perm _ _ _ _ _ E0) as (dv & Hdv & Hperm).
  destruct (Hc var Hvar) as [w Hw].
  destruct (Hin var w Hvar Hw) as (dv' & Hdv' & Hwdv).
  assert (dv' = dv) as -> by congruence.
  assert (NoDup (dict_set a var w).*1) as Hnd'.
  { rewrite dict_set_fresh, fmap_app by done. simpl.
    apply NoDup_app. split_and!; [done| |apply NoDup_singleton].
    intros v Hv1 ->%list_elem_of_singleton.
    apply list_elem_of_fmap in Hv1 as ([v' w'] & -> & Hv1).
    apply dict_get_of_elem in Hv1 as [? ?]. simpl in *. congruence. }
  assert (forall v w', (v, w') ∈ dict_set a var w -> v ∈ variables cw) as Hvars'.
  { intros v w'. rewrite dict_set_fresh by done.
    intros [?|[= -> ->]%list_elem_of_singleton]%elem_of_app; eauto. }
  pose proof (agrees_set a s var w Hag Hw) as Hag'.
  destruct (backtrack_exhausted _ _ _ _ _ _ _ _ E E0 Hperm H0 w Hwdv) as [Hf|Hf].
  - rewrite (consistent_complete cw _ Hwf Hnd' Hvars') in Hf; [done|].
    by eapply agrees_valid.
  - by eapply IH.
Qed.

Lemma solve_complete cw fuel s :
  crossword_wf cw ->
  assignment_is_complete cw s -> assignment_valid cw s ->
  (forall v w, dict_get s v = Some w -> w ∈ words cw) ->
  solve cw fuel ≠ Ok None.
Proof.
  intros Hwf Hc Hv Hw H. unfold solve in H.
  inv_bind H. inv_bind H. destruct x0 as [b d2]. inv_bind H.
  destruct x0 as [a found]. destruct found; [done|].
  eapply (backtrack_complete cw d2 s fuel [] a); eauto.
  - eapply pruning_keeps_solution; eauto.
  - simpl. apply NoDup_nil_2.
  - intros v w []%elem_of_nil.
  - intros v w. done.
Qed.

(** ** What [revise] leaves *)

Lemma revise_full cw x y d r d' a b :
  revise cw x y d = Ok (r, d') ->
  x ≠ y -> overlaps cw !! (x, y) = Some (Some (a, b)) ->
  ∃ dx, d !! x = Some dx ∧
        d' = <[x := filter (supported d y a b) dx]> d ∧
        (r = true <-> Exists (fun w => ¬ supported d y a b w) dx).
Proof.
  intros H Hne Hov. unfold revise in H. rewrite decide_False in H by done.
  unfold overlaps_get in H. rewrite Hov in H. cbn [bind] in H.
  inv_bind H. apply domains_get_Ok in E. exists x0. split; [done|].
  inv_bind H. destruct x1 as [rev tr]. inv_bind H.
  apply revise_scan in E0 as [-> Hrev]. simpl in E1.
  apply set_remove_loop in E1 as ->. inversion H; subst r d'. clear H.
  split.
  - f_equal. apply filter_ext_in. intros w Hw. rewrite list_elem_of_filter.
    destruct (decide (supported d y a b w)); tauto.
  - rewrite Hrev, Exists_exists. split.
    + intros [?|Hnil]; [done|].
      destruct (filter _ x0) as [|w tr] eqn:Ef; [done|].
      assert (w ∈ filter (fun w => ¬ supported d y a b w) x0) as Hw
        by (rewrite Ef; left).
      apply list_elem_of_filter in Hw as [? ?]. eauto.
    + intros (w & Hw & Hns). right. intros Hnil.
      assert (w ∈ filter (fun w => ¬ supported d y a b w) x0) as Hin
        by (by apply list_elem_of_filter).
      rewrite Hnil in Hin. by apply elem_of_nil in Hin.
Qed.

Lemma supported_insert d x y a b dx w :
  x ≠ y -> supported (<[x := dx]> d) y a b w <-> supported d y a b w.
Proof. intros Hne. unfold supported. by rewrite lookup_insert_ne. Qed.

(** ** [ac3] called with a list of arcs *)

Lemma ac3_loop_unbound cw fuel arcs d b d' :
  ac3_loop cw fuel None arcs d = Ok (b, d') ->
  d' = d ∧ Forall (fun xy => revise cw xy.1 xy.2 d = Ok (false, d)) arcs.
Proof.
  revert arcs. induction fuel as [|fuel IH]; intros arcs H; [done|].
  destruct arcs as [|[x y] arcs].
  - by inversion H.
  - rewrite ac3_loop_S in H. inv_bind H. destruct x0 as [revised d1]. destruct revised.
    + inv_bind H. unfold set_eq_int in H. by inv_bind H.
    + destruct (revise_spec _ _ _ _ _ _ E) as [[_ ->]|(?&?&?&?&?&?&?&?)];
        [|done].
      apply IH in H as [-> Hall]. split; [done|]. by constructor.
Qed.

(** ** Pruning only removes words *)


Lemma shrinks_refl d : shrinks d d.
Proof. intros v. by destruct (d !! v). Qed.

Lemma shrinks_trans d1 d2 d3 : shrinks d1 d2 -> shrinks d2 d3 -> shrinks d1 d3.
Proof.
  intros H12 H23 v. specialize (H12 v). specialize (H23 v).
  destruct (d1 !! v), (d2 !! v), (d3 !! v); try done. by etrans.
Qed.

Lemma shrinks_filter d x dx (P : string -> Prop) `{!forall w, Decision (P w)} :
  d !! x = Some dx -> shrinks d (<[x := filter P dx]> d).
Proof.
  intros Hdx v. destruct (decide (x = v)) as [<-|Hne].
  - rewrite Hdx, lookup_insert_eq. apply sublist_filter.
  - rewrite lookup_insert_ne by done. by destruct (d !! v).
Qed.

Lemma revise_shrinks cw x y d r d' :
  revise cw x y d = Ok (r, d') -> shrinks d d'.
Proof.
  intros [[_ ->]|(a & b & dx & _ & _ & Hdx & _ & -> & _)]%revise_spec.
  - apply shrinks_refl.
  - by apply shrinks_filter.
Qed.

Lemma enforce_node_consistency_shrinks cw d d' :
  enforce_node_consistency cw d = Ok d' -> shrinks d d'.
Proof.
  unfold enforce_node_consistency.
  apply (for_each_inv (shrinks d)); [apply shrinks_refl|].
  intros v t t' _ Ht (dv & Hdv & ->)%node_consistency_step_spec.
  eapply shrinks_trans; [done|]. by apply shrinks_filter.
Qed.

Lemma ac3_shrinks cw fuel arcs d b d' :
  ac3 cw fuel arcs d = Ok (b, d') -> shrinks d d'.
Proof.
  intros H. eapply (ac3_inv (shrinks d)) in H as [? _]; [done| |].
  - intros x y d1 r d2 H1 H2. eapply shrinks_trans; [done|].
    by eapply revise_shrinks.
  - apply shrinks_refl.
Qed.

(** ** Missing domains *)

Lemma node_consistency_step_exn var d e :
  node_consistency_step var d = Raise e -> e = KeyError.
Proof.
  unfold node_consistency_step, domains_get.
  destruct (d !! var) as [dv|]; cbn [bind]; [|congruence].
  generalize (filter (fun word => String.length word ≠ var_length var) dv).
  intros tr. revert dv. induction tr as [|w tr IH]; intros dv; simpl; [done|].
  unfold set_remove at 1. destruct (decide (w ∈ dv)); cbn [bind]; [|congruence].
  apply IH.
Qed.

Lemma node_consistency_step_fuel var d : node_consistency_step var d ≠ OutOfFuel.
Proof.
  unfold node_consistency_step, domains_get.
  destruct (d !! var) as [dv|]; cbn [bind]; [|done].
  generalize (filter (fun word => String.length word ≠ var_length var) dv).
  intros tr. revert dv. induction tr as [|w tr IH]; intros dv; simpl; [done|].
  unfold set_remove at 1. destruct (decide (w ∈ dv)); cbn [bind]; [|done].
  apply IH.
Qed.

Lemma enforce_node_consistency_missing cw d v :
  v ∈ variables cw -> d !! v = None ->
  enforce_node_consistency cw d = Raise KeyError.
Proof.
  unfold enforce_node_consistency. revert d.
  induction (variables cw) as [|u l IH]; intros d Hv Hd;
    [by apply elem_of_nil in Hv|].
  simpl. destruct (node_consistency_step u d) as [d1|e|] eqn:E; cbn [bind].
  - apply node_consistency_step_spec in E as (dv & Hdv & ->).
    apply elem_of_cons in Hv as [->|Hv]; [congruence|].
    apply IH; [done|]. rewrite lookup_insert_ne; [done|congruence].
  - by apply node_consistency_step_exn in E as ->.
  - by apply node_consistency_step_fuel in E.
Qed.

(** ** What a successful search adds to the dictionary *)


Lemma dict_get_app_None (a b : Assignment) v :
  dict_get (a ++ b) v = None -> dict_get a v = None ∧ dict_get b v = None.
Proof.
  induction a as [|[k w] a IH]; simpl; [done|].
  destruct (decide (k = v)); [done|auto].
Qed.

Lemma extends_refl cw d a : extends cw d a a.
Proof.
  exists []. rewrite app_nil_r. split_and!; [done|apply NoDup_nil_2|].
  intros v w []%elem_of_nil.
Qed.

Lemma extends_step cw d a var value dv a' :
  var ∈ variables cw -> dict_get a var = None ->
  d !! var = Some dv -> value ∈ dv ->
  extends cw d (dict_set a var value) a' -> extends cw d a a'.
Proof.
  intros Hvar Hnone Hdv Hval (ext & -> & Hnd & Hext).
  rewrite dict_set_fresh in * by done.
  exists ((var, value) :: ext). rewrite <- app_assoc. split_and!; [done| |].
  - simpl. apply NoDup_cons. split; [|done].
    intros ([v w] & Hv & Hin)%list_elem_of_fmap. simpl in Hv. subst v.
    destruct (Hext _ _ Hin) as (_ & [_ Hn]%dict_get_app_None & _).
    simpl in Hn. by rewrite decide_True in Hn.
  - intros v w [[= -> ->]|Hin]%elem_of_cons; [by eauto|].
    destruct (Hext _ _ Hin) as (? & [? _]%dict_get_app_None & ?). done.
Qed.

Lemma try_values_extends cw d rec var dv values a a' :
  (forall b b', rec b = Ok (b', true) -> extends cw d b b') ->
  (forall b b', rec b = Ok (b', false) -> b' = b) ->
  var ∈ variables cw -> dict_get a var = None -> d !! var = Some dv ->
  (forall w, w ∈ values -> w ∈ dv) ->
  try_values cw rec var values a = Ok (a', true) -> extends cw d a a'.
Proof.
  intros Hrec Hat Hvar Hnone Hdv.
  induction values as [|value values IH]; intros Hsub H; simpl in H; [done|].
  assert (forall w, w ∈ values -> w ∈ dv) as Hsub'
    by (intros; apply Hsub; by right).
  inv_bind H. destruct x.
  - inv_bind H. destruct x as [a2 found]. destruct found.
    + inversion H; subst a2. eapply extends_step; eauto. apply Hsub. left.
    + pose proof (Hat _ _ E0) as ->. rewrite dict_set_fresh in H by done.
      rewrite dict_del_fresh in H by done. cbn [bind] in H. auto.
  - rewrite dict_set_fresh in H by done.
    rewrite dict_del_fresh in H by done. cbn [bind] in H. auto.
Qed.

Lemma backtrack_extends cw d fuel a a' :
  backtrack cw d fuel a = Ok (a', true) -> extends cw d a a'.
Proof.
  revert a a'. induction fuel as [|fuel IH]; intros a a' H; [done|].
  rewrite backtrack_S in H. destruct (assignment_complete cw a).
  - inversion H. apply extends_refl.
  - inv_bind H. destruct x as [var|]; [|done]. inv_bind H.
    destruct (select_unassigned_variable_sound _ _ _ _ E) as [Hvar Hnone].
    apply dict_mem_false in Hnone.
    destruct (order_domain_values_perm _ _ _ _ _ E0) as (dv & Hdv & Hperm).
    eapply (try_values_extends cw d _ var dv);
      [exact IH|apply backtrack_atomic|done|done|done| |exact H].
    intros w Hw. by rewrite <- Hperm.
Qed.

Lemma solve_sound cw fuel a :
  crossword_wf cw -> solve cw fuel = Ok (Some a) ->
  assignment_is_complete cw a ∧ assignment_valid cw a.
Proof.
  intros Hwf H. unfold solve in H.
  inv_bind H. inv_bind H. destruct x0 as [b d']. inv_bind H.
  destruct x0 as [a' found]. destruct found; [|done].
  inversion H; subst a'. clear H.
  apply backtrack_found in E1 as [Hc Hv]. split.
  - by apply assignment_complete_spec.
  - destruct Hv as [->|Hv]; [apply assignment_valid_nil|by apply consistent_sound].
Qed.

Lemma shrinks_init cw d v dv w :
  shrinks (init_domains cw) d -> d !! v = Some dv -> w ∈ dv -> w ∈ words cw.
Proof.
  intros Hs Hdv Hw. specialize (Hs v). rewrite Hdv in Hs.
  destruct (init_domains cw !! v) as [dv0|] eqn:E; [|done].
  apply init_domains_keys in E as [_ ->]. by eapply elem_of_sublist.
Qed.

Lemma solve_entries cw fuel a :
  crossword_wf cw -> solve cw fuel = Ok (Some a) ->
  a.*1 ≡ₚ variables cw ∧ forall v w, (v, w) ∈ a -> w ∈ words cw.
Proof.
  intros Hwf H. destruct (solve_sound _ _ _ Hwf H) as [Hc _].
  unfold solve in H.
  inv_bind H. inv_bind H. destruct x0 as [b d2]. inv_bind H.
  destruct x0 as [a' found]. destruct found; [|done].
  inversion H; subst a'. clear H.
  apply backtrack_extends in E1 as (ext & Ha & Hnd & Hext). simpl in Ha.
  subst ext. split.
  - apply NoDup_Permutation; [done|apply (wf_variables _ Hwf)|].
    intros v. split.
    + intros ([v' w] & -> & Hin)%list_elem_of_fmap. by apply Hext in Hin as [? _].
    + intros Hv. destruct (Hc v Hv) as [w Hw%dict_get_elem].
      apply list_elem_of_fmap. by exists (v, w).
  - intros v w Hin. destruct (Hext _ _ Hin) as (_ & _ & dv & Hdv & Hw).
    eapply (shrinks_init cw d2); eauto.
    eapply shrinks_trans; [by eapply enforce_node_consistency_shrinks|].
    by eapply ac3_shrinks.
Qed.

Lemma solve_finds cw s :
  crossword_wf cw ->
  (Z.of_nat (length (words cw)) <= 1000000)%Z ->
  Forall (fun v => (degree cw v < 1000000)%Z) (variables cw) ->
  assignment_is_complete cw s -> assignment_valid cw s ->
  (forall v w, dict_get s v = Some w -> w ∈ words cw) ->
  ∃ fuel0 a, assignment_is_complete cw a ∧ assignment_valid cw a ∧
    forall fuel, fuel0 <= fuel -> solve cw fuel = Ok (Some a).
Proof.
  intros Hwf Hwords Hdeg Hc Hv Hw.
  destruct (solve_total cw Hwf Hwords Hdeg) as (fuel0 & r & Hr).
  destruct r as [a|]; [|by eapply solve_complete in Hr].
  exists fuel0, a. destruct (solve_sound _ _ _ Hwf Hr). split_and!; [done..|].
  intros fuel Hle. rewrite (solve_mono cw fuel0 fuel Hle); [done|by rewrite Hr].
Qed.

(** ** The array of [letter_grid] *)


Lemma letters_get_lookup (letters : Letters) i j :
  letters_get letters i j =
    match letters !! i ≫= (.!! j) with
    | Some c => Ok c
    | None => Raise IndexError
    end.
Proof.
  unfold letters_get. destruct (letters !! i) as [row|]; simpl; [|done].
  by destruct (row !! j).
Qed.

Lemma shape_lookup {A} h w (rows : list (list A)) i j :
  shape h w rows -> i < h -> j < w -> is_Some (rows !! i ≫= (.!! j)).
Proof.
  intros [Hh Hw] Hi Hj.
  destruct (lookup_lt_is_Some_2 rows i) as [row Hrow]; [lia|].
  rewrite Hrow. simpl. apply lookup_lt_is_Some_2.
  rewrite Forall_forall in Hw. rewrite (Hw row); [done|].
  by eapply list_elem_of_lookup_2.
Qed.

Lemma shape_replicate {A} h w (x : A) : shape h w (replicate h (replicate w x)).
Proof.
  split; [by rewrite length_replicate|].
  apply Forall_forall. intros row [-> _]%elem_of_replicate.
  by rewrite length_replicate.
Qed.

Lemma letters_set_Ok h w (letters letters' : Letters) i j c :
  shape h w letters -> letters_set letters i j c = Ok letters' ->
  i < h ∧ j < w ∧ shape h w letters' ∧
  forall i' j', letters' !! i' ≫= (.!! j') =
    if decide (i' = i ∧ j' = j) then Some (Some c)
    else letters !! i' ≫= (.!! j').
Proof.
  intros [Hh Hw] H. unfold letters_set in H.
  destruct (letters !! i) as [row|] eqn:Hrow; [|done].
  destruct (decide (j < length row)) as [Hj|]; [|done].
  inversion H; subst letters'. clear H.
  pose proof (lookup_lt_Some _ _ _ Hrow) as Hi.
  assert (length row = w) as Hlen.
  { rewrite Forall_forall in Hw. apply Hw. by eapply list_elem_of_lookup_2. }
  split_and!; [lia|lia| |].
  - split; [by rewrite length_insert|].
    apply Forall_insert; [done|]. by rewrite length_insert.
  - intros i' j'. destruct (decide (i' = i)) as [->|Hne].
    + rewrite list_lookup_insert_eq by done. simpl.
      destruct (decide (j' = j)) as [->|Hne].
      * rewrite list_lookup_insert_eq by done. by rewrite decide_True.
      * rewrite list_lookup_insert_ne by done. rewrite Hrow. simpl.
        by rewrite decide_False by tauto.
    + rewrite list_lookup_insert_ne by done. by rewrite decide_False by tauto.
Qed.

Lemma letters_set_in h w (letters : Letters) i j c :
  shape h w letters -> i < h -> j < w ->
  ∃ letters', letters_set letters i j c = Ok letters'.
Proof.
  intros [Hh Hw] Hi Hj. unfold letters_set.
  destruct (lookup_lt_is_Some_2 letters i) as [row Hrow]; [lia|].
  rewrite Hrow. rewrite Forall_forall in Hw.
  rewrite decide_True; [eauto|]. rewrite (Hw row); [done|].
  by eapply list_elem_of_lookup_2.
Qed.

(** The cell of character [k] of a slot. *)
Lemma index_of_cell variable k i j :
  index_of variable i j = Some k <->
  i = var_i variable + (if decide (var_direction variable = DOWN) then k else 0) ∧
  j = var_j variable + (if decide (var_direction variable = ACROSS) then k else 0).
Proof.
  unfold index_of. destruct (var_direction variable); simpl.
  - case_decide; split; intros Hk; simplify_eq; try lia.
    f_equal. lia.
  - case_decide; split; intros Hk; simplify_eq; try lia.
    f_equal. lia.
Qed.

Lemma place_letter_Ok h w variable word k (letters letters' : Letters) :
  shape h w letters -> place_letter variable word k letters = Ok letters' ->
  shape h w letters' ∧
  (∃ i j, index_of variable i j = Some k ∧ i < h ∧ j < w) ∧
  forall i j, letters' !! i ≫= (.!! j) =
    if decide (index_of variable i j = Some k) then Some (String.get k word)
    else letters !! i ≫= (.!! j).
Proof.
  intros Hs H. unfold place_letter in H. inv_bind H.
  apply str_index_Ok in E.
  destruct (letters_set_Ok _ _ _ _ _ _ _ Hs H) as (Hi & Hj & Hs' & Hget).
  split_and!; [done| |].
  - eexists _, _. split; [|done]. by apply index_of_cell.
  - intros i j. rewrite Hget, E.
    destruct (decide (index_of variable i j = Some k)) as [Hk|Hk].
    + apply index_of_cell in Hk as [-> ->]. by rewrite decide_True.
    + rewrite decide_False; [done|]. intros [-> ->]. by apply Hk, index_of_cell.
Qed.

Lemma place_letters_Ok h w variable word n (letters letters' : Letters) :
  shape h w letters ->
  for_each (place_letter variable word) (seq 0 n) letters = Ok letters' ->
  shape h w letters' ∧
  (forall k, k < n -> ∃ i j, index_of variable i j = Some k ∧ i < h ∧ j < w) ∧
  forall i j, letters' !! i ≫= (.!! j) =
    match index_of variable i j with
    | Some k => if decide (k < n) then Some (String.get k word)
                else letters !! i ≫= (.!! j)
    | None => letters !! i ≫= (.!! j)
    end.
Proof.
  intros Hs. revert letters'.
  induction n as [|n IH]; intros letters' H.
  - inversion H; subst. split_and!; [done|lia|].
    intros i j. by destruct (index_of variable i j).
  - rewrite seq_S, for_each_snoc in H. simpl in H. inv_bind H.
    destruct (IH _ E) as (Hs1 & Hin & Hget).
    destruct (place_letter_Ok _ _ _ _ _ _ _ Hs1 H) as (Hs2 & Hk & Hget').
    split_and!; [done| |].
    + intros k Hlt. destruct (decide (k = n)) as [->|]; [done|].
      apply Hin. lia.
    + intros i j. rewrite Hget', Hget.
      destruct (index_of variable i j) as [k|].
      * destruct (decide (Some k = Some n)) as [[= ->]|Hne].
        -- by rewrite decide_True by lia.
        -- destruct (decide (k < n)).
           ++ by rewrite decide_True by lia.
           ++ rewrite decide_False; [done|]. intros ?.
              apply Hne. f_equal. lia.
      * by rewrite decide_False.
Qed.

Lemma string_get_ge k s : String.length s <= k -> String.get k s = None.
Proof.
  revert k. induction s as [|c s IH]; intros k Hk; simpl in *.
  - by destruct k.
  - destruct k as [|k]; [lia|]. apply IH. lia.
Qed.

Lemma fits_cells g variable word :
  fits g (variable, word) <->
  forall k, k < String.length word ->
    ∃ i j, index_of variable i j = Some k ∧ i < height g ∧ j < width g.
Proof.
  unfold fits. simpl. split.
  - intros Hfit k Hk. destruct Hfit as [->|Hfit]; [simpl in Hk; lia|].
    eexists _, _. split; [by apply index_of_cell|].
    destruct (var_direction variable); simpl; lia.
  - intros Hcells. destruct word as [|c word]; [by left|right].
    destruct (Hcells 0) as (i0 & j0 & [-> ->]%index_of_cell & Hi0 & Hj0);
      [simpl; lia|].
    destruct (Hcells (String.length word))
      as (i1 & j1 & [-> ->]%index_of_cell & Hi1 & Hj1); [simpl; lia|].
    simpl. destruct (var_direction variable); simpl in *; lia.
Qed.

Lemma place_word_Ok g entry (letters letters' : Letters) :
  shape (height g) (width g) letters -> place_word entry letters = Ok letters' ->
  shape (height g) (width g) letters' ∧ fits g entry ∧
  forall i j, letters' !! i ≫= (.!! j) =
    match letter_of entry.1 entry.2 i j with
    | Some c => Some (Some c)
    | None => letters !! i ≫= (.!! j)
    end.
Proof.
  destruct entry as [variable word]. intros Hs H. unfold place_word in H.
  destruct (place_letters_Ok _ _ _ _ _ _ _ Hs H) as (Hs' & Hin & Hget).
  split_and!; [done|by apply fits_cells|].
  intros i j. rewrite Hget. unfold letter_of. simpl.
  destruct (index_of variable i j) as [k|] eqn:Hk; simpl; [|done].
  destruct (decide (k < String.length word)) as [Hlt|Hge].
  - by destruct (string_get_lt k word Hlt) as [c ->].
  - by rewrite string_get_ge by lia.
Qed.

Lemma place_word_fits g entry (letters : Letters) :
  shape (height g) (width g) letters -> fits g entry ->
  ∃ letters', place_word entry letters = Ok letters'.
Proof.
  destruct entry as [variable word]. intros Hs Hfit. unfold place_word.
  rewrite fits_cells in Hfit.
  assert (forall n, n <= String.length word ->
    ∃ letters', for_each (place_letter variable word) (seq 0 n) letters
                = Ok letters') as Hn; [|by apply Hn].
  induction n as [|n IH]; intros Hle; [by eexists|].
  destruct IH as [letters1 H1]; [lia|].
  rewrite seq_S, for_each_snoc, H1. simpl.
  destruct (place_letters_Ok _ _ _ _ _ _ _ Hs H1) as (Hs1 & _ & _).
  unfold place_letter. destruct (str_index_lt word n) as (c & -> & _); [lia|].
  cbn [bind]. destruct (Hfit n) as (i & j & [-> ->]%index_of_cell & Hi & Hj);
    [lia|].
  by eapply letters_set_in.
Qed.

Lemma place_word_exn entry (letters : Letters) :
  match place_word entry letters with
  | Ok _ | Raise IndexError => True
  | _ => False
  end.
Proof.
  destruct entry as [variable word]. unfold place_word.
  generalize (seq 0 (String.length word)). intros l. revert letters.
  induction l as [|k l IH]; intros letters; simpl; [done|].
  unfold place_letter at 1, str_index, letters_set.
  destruct (String.get k word); cbn [bind]; [|done].
  destruct (letters !! _); [|done]. case_decide; [|done]. apply IH.
Qed.

Lemma letter_grid_loop g a (letters : Letters) :
  shape (height g) (width g) letters ->
  match for_each place_word a letters with
  | Ok letters' =>
      Forall (fits g) a ∧ shape (height g) (width g) letters' ∧
      forall i j x, letters !! i ≫= (.!! j) = Some x ->
        letters' !! i ≫= (.!! j) =
        Some (foldl (fun acc '(variable, word) =>
                       match letter_of variable word i j with
                       | Some c => Some c
                       | None => acc
                       end) x a)
  | Raise e => e = IndexError ∧ ¬ Forall (fits g) a
  | OutOfFuel => False
  end.
Proof.
  revert letters. induction a as [|entry a IH]; intros letters Hs; simpl.
  - split_and!; [done..|]. auto.
  - pose proof (place_word_exn entry letters) as Hexn.
    destruct (place_word entry letters) as [letters1|e|] eqn:H1; cbn [bind].
    + destruct (place_word_Ok _ _ _ _ Hs H1) as (Hs1 & Hfit & Hget).
      specialize (IH letters1 Hs1).
      destruct (for_each place_word a letters1) as [letters'|e|]; [| |done].
      * destruct IH as (Hall & Hs' & Hget'). split_and!; [by constructor|done|].
        intros i j x Hx. destruct entry as [variable word]. simpl in *.
        specialize (Hget i j).
        destruct (letter_of variable word i j) as [c|]; apply Hget'; congruence.
      * destruct IH as [-> Hnot]. split; [done|].
        intros Hall. apply Hnot. by inversion Hall.
    + destruct e; try done. split; [done|]. intros Hall.
      inversion Hall as [|? ? Hfit _]; subst.
      destruct (place_word_fits _ _ _ Hs Hfit) as [? ?]. congruence.
    + done.
Qed.

Lemma letter_grid_spec g a :
  match letter_grid g a with
  | Ok letters =>
      Forall (fits g) a ∧ shape (height g) (width g) letters ∧
      forall i j, i < height g -> j < width g ->
        letters_get letters i j = Ok (written a i j)
  | Raise e => e = IndexError ∧ ¬ Forall (fits g) a
  | OutOfFuel => False
  end.
Proof.
  unfold letter_grid.
  pose proof (letter_grid_loop g a _ (shape_replicate (height g) (width g) None))
    as H.
  destruct (for_each place_word a _) as [letters|e|]; [|done..].
  destruct H as (Hall & Hs & Hget). split_and!; [done..|].
  intros i j Hi Hj. rewrite letters_get_lookup.
  rewrite (Hget i j None); [done|].
  rewrite lookup_replicate_2 by done. simpl. by rewrite lookup_replicate_2.
Qed.

(** *** Printing *)

Lemma for_each_io_flat_map {A} (body : A -> Output -> Output * outcome unit)
    (f : A -> Output) l out :
  (forall x out, x ∈ l -> body x out = (out ++ f x, Ok tt)) ->
  for_each_io body l out = (out ++ flat_map f l, Ok tt).
Proof.
  revert out. induction l as [|x l IH]; intros out Hbody; simpl.
  - by rewrite app_nil_r.
  - rewrite Hbody by left. rewrite IH by (intros; apply Hbody; by right).
    by rewrite <- app_assoc.
Qed.

Lemma flat_map_singleton {A B} (f : A -> B) l :
  flat_map (fun x => [f x]) l = map f l.
Proof. induction l; simpl; [done|]. by f_equal. Qed.

Lemma structure_get_lookup g i j :
  structure_get g i j =
    match structure g !! i ≫= (.!! j) with
    | Some b => Ok b
    | None => Raise IndexError
    end.
Proof.
  unfold structure_get. destruct (structure g !! i) as [row|]; simpl; [|done].
  by destruct (row !! j).
Qed.

Lemma print_spec g a out :
  shape (height g) (width g) (structure g) -> Forall (fits g) a ->
  print g a out = (out ++ flat_map (row_text g a) (seq 0 (height g)), Ok tt).
Proof.
  intros Hs Hfit. unfold print. pose proof (letter_grid_spec g a) as Hl.
  destruct (letter_grid g a) as [letters|e|]; [|by destruct Hl|done].
  destruct Hl as (_ & Hsl & Hget).
  apply for_each_io_flat_map. intros i out1 Hi%elem_of_seq.
  unfold print_row, row_text.
  rewrite (for_each_io_flat_map _ (fun j => [cell_text g a i j])).
  - rewrite flat_map_singleton. by rewrite <- app_assoc.
  - intros j out2 Hj%elem_of_seq. unfold print_cell, cell_text.
    rewrite structure_get_lookup.
    destruct (shape_lookup _ _ _ i j Hs) as [b Hb]; [lia..|]. rewrite Hb.
    destruct b; [|done]. rewrite Hget by lia. by destruct (written a i j).
Qed.

Lemma print_misfit g a out :
  ¬ Forall (fits g) a -> print g a out = (out, Raise IndexError).
Proof.
  intros Hfit. unfold print. pose proof (letter_grid_spec g a) as Hl.
  destruct (letter_grid g a) as [letters|e|]; [|by destruct Hl as [-> _]|done].
  by destruct Hl as [? _].
Qed.

(** ** Stability of the sort *)

Section stability.
Context {A : Type} (key : A -> Z).

Lemma insert_by_key_sublist x l : l `sublist_of` insert_by_key key x l.
Proof.
  induction l as [|y l IH]; simpl; [apply sublist_nil_l|].
  destruct (key x <=? key y)%Z; [by apply sublist_cons|by apply sublist_skip].
Qed.

Lemma insert_by_key_before x y l :
  y ∈ l -> (key x <= key y)%Z -> [x; y] `sublist_of` insert_by_key key x l.
Proof.
  intros Hy Hle. induction l as [|z l IH]; [by apply elem_of_nil in Hy|].
  simpl. destruct (key x <=? key z)%Z eqn:Hz.
  - apply sublist_skip. by apply singleton_sublist_l.
  - apply Z.leb_gt in Hz. apply sublist_cons.
    apply elem_of_cons in Hy as [->|Hy]; [lia|auto].
Qed.

Lemma list_sort_stable x y l :
  [x; y] `sublist_of` l -> (key x <= key y)%Z ->
  [x; y] `sublist_of` list_sort key l.
Proof.
  intros Hsub Hle. induction l as [|z l IH]; [by inversion Hsub|].
  simpl. apply sublist_cons_r in Hsub as [Hsub|(l' & [= <- <-] & Hy)].
  - etrans; [by apply IH|]. apply insert_by_key_sublist.
  - apply insert_by_key_before; [|done].
    rewrite list_sort_perm. by apply singleton_sublist_l.
Qed.

Lemma list_sort_same_key l k :
  Forall (fun x => key x = k) l -> list_sort key l = l.
Proof.
  induction l as [|x l IH]; intros Hall; [done|].
  apply Forall_cons in Hall as [Hx Hl]. simpl. rewrite IH by done.
  destruct l as [|y l]; [done|]. apply Forall_cons in Hl as [Hy _].
  simpl. by rewrite Hx, Hy, Z.leb_refl.
Qed.
End stability.

Lemma sorted_values_stable (f : string -> Z) dv w1 w2 :
  [w1; w2] `sublist_of` dv -> (f w1 <= f w2)%Z ->
  [w1; w2] `sublist_of` map fst (list_sort count (map (fun w => (w, f w)) dv)).
Proof.
  intros Hsub Hle.
  change [w1; w2] with (fst <$> [(w1, f w1); (w2, f w2)]).
  apply fmap_sublist. apply list_sort_stable; [|done].
  change [(w1, f w1); (w2, f w2)] with ((fun w => (w, f w)) <$> [w1; w2]).
  by apply fmap_sublist.
Qed.

(** ** The variable selected is the first of the best *)

Lemma min_domain_scan_order d a l m0 vs0 m vs :
  for_each (min_domain_body d a) l (m0, vs0) = Ok (m, vs) ->
  (m <= m0)%Z ∧
  (forall u, u ∈ l -> dict_get a u = None ->
     is_Some (d !! u) ∧ (m <= domain_size d u)%Z) ∧
  vs = (if (m <? m0)%Z then [] else vs0) ++
       filter (fun u => dict_get a u = None ∧ domain_size d u = m) l.
Proof.
  revert m0 vs0. induction l as [|u l IH]; intros m0 vs0 H; simpl in H.
  - inversion H; subst. split_and!; [lia| |].
    + intros u []%elem_of_nil.
    + rewrite Z.ltb_irrefl. by rewrite app_nil_r.
  - inv_bind H. destruct x as [m1 vs1]. unfold min_domain_body in E.
    destruct (dict_mem a u) eqn:Hu.
    + inversion E; subst m1 vs1. destruct (IH _ _ H) as (Hle & Hall & ->).
      apply dict_mem_true in Hu as [w Hw]. split_and!; [done| |].
      * intros u' [->|Hin]%elem_of_cons Hnone; [congruence|auto].
      * f_equal. rewrite filter_cons, decide_False; [done|].
        intros [? _]. congruence.
    + apply dict_mem_false in Hu. inv_bind E. apply domains_get_Ok in E0.
      assert (domain_size d u = Z.of_nat (length x)) as Hsz
        by (unfold domain_size; by rewrite E0).
      destruct (Z.of_nat (length x) <? m0)%Z eqn:Hlt;
        [|destruct (Z.of_nat (length x) =? m0)%Z eqn:Heq];
        inversion E; subst m1 vs1; clear E;
        destruct (IH _ _ H) as (Hle & Hall & ->).
      * apply Z.ltb_lt in Hlt. split_and!; [lia| |].
        -- intros u' [->|Hin]%elem_of_cons Hnone; [|auto].
           split; [eauto|lia].
        -- rewrite filter_cons. replace (m <? m0)%Z with true
             by (symmetry; apply Z.ltb_lt; lia). simpl.
           destruct (m <? Z.of_nat (length x))%Z eqn:Hm.
           ++ apply Z.ltb_lt in Hm. rewrite decide_False; [done|].
              intros [_ ?]. lia.
           ++ apply Z.ltb_ge in Hm. rewrite decide_True; [done|].
              split; [done|lia].
      * apply Z.eqb_eq in Heq. split_and!; [lia| |].
        -- intros u' [->|Hin]%elem_of_cons Hnone; [|auto].
           split; [eauto|lia].
        -- rewrite filter_cons. destruct (m <? m0)%Z eqn:Hm.
           ++ apply Z.ltb_lt in Hm. rewrite decide_False; [done|].
              intros [_ ?]. lia.
           ++ apply Z.ltb_ge in Hm. rewrite decide_True by (split; [done|lia]).
              by rewrite <- app_assoc.
      * apply Z.ltb_ge in Hlt. apply Z.eqb_neq in Heq. split_and!; [lia| |].
        -- intros u' [->|Hin]%elem_of_cons Hnone; [|auto].
           split; [eauto|lia].
        -- f_equal. rewrite filter_cons, decide_False; [done|].
           intros [_ ?]. lia.
Qed.

Lemma min_degree_scan_first cw vs k0 r0 k r :
  foldl (fun '(min_n, min_var) var =>
    let k := Z.of_nat (length (neighbors cw var)) in
    if (k <? min_n)%Z then (k, Some var) else (min_n, min_var))
    (k0, r0) vs = (k, r) ->
  (k <= k0)%Z ∧ (forall u, u ∈ vs -> (k <= degree cw u)%Z) ∧
  if (k <? k0)%Z
  then ∃ l1 v l2, vs = l1 ++ v :: l2 ∧ r = Some v ∧ degree cw v = k ∧
                  forall u, u ∈ l1 -> (k < degree cw u)%Z
  else r = r0.
Proof.
  revert k0 r0. induction vs as [|v vs IH]; intros k0 r0 H; simpl in H.
  - inversion H; subst. rewrite Z.ltb_irrefl. split_and!; [lia| |done].
    intros u []%elem_of_nil.
  - fold (degree cw v) in H. destruct (degree cw v <? k0)%Z eqn:Hv.
    + apply Z.ltb_lt in Hv. destruct (IH _ _ H) as (Hle & Hall & Hr).
      split_and!; [lia| |].
      * intros u [->|Hu]%elem_of_cons; [lia|auto].
      * replace (k <? k0)%Z with true by (symmetry; apply Z.ltb_lt; lia).
        destruct (k <? degree cw v)%Z eqn:Hk.
        -- destruct Hr as (l1 & v' & l2 & -> & -> & Hdeg & Hl1).
           exists (v :: l1), v', l2. split_and!; [done..|].
           apply Z.ltb_lt in Hk.
           intros u [->|Hu]%elem_of_cons; [lia|auto].
        -- apply Z.ltb_ge in Hk. subst r. exists [], v, vs.
           split_and!; [done|done|lia|]. intros u []%elem_of_nil.
    + apply Z.ltb_ge in Hv. destruct (IH _ _ H) as (Hle & Hall & Hr).
      split_and!; [lia| |].
      * intros u [->|Hu]%elem_of_cons; [lia|auto].
      * destruct (k <? k0)%Z eqn:Hk; [|done].
        destruct Hr as (l1 & v' & l2 & -> & -> & Hdeg & Hl1).
        exists (v :: l1), v', l2. split_and!; [done..|].
        apply Z.ltb_lt in Hk.
        intros u [->|Hu]%elem_of_cons; [lia|auto].
Qed.

Lemma sublist_pair_middle {A} (u v : A) l1 l2 :
  v ∉ l1 -> v ∉ l2 -> [u; v] `sublist_of` l1 ++ v :: l2 -> u ∈ l1.
Proof.
  intros H1 H2 (k1 & k2 & Hk & Hs1 & Hs2)%sublist_app_r.
  destruct k1 as [|x [|y k1]]; simpl in Hk; simplify_eq.
  - apply sublist_cons_r in Hs2 as [Hs2|(l' & [= <- <-] & Hs2)].
    + destruct H2. eapply elem_of_sublist; [|done]. right. left.
    + destruct H2. by apply singleton_sublist_l.
  - by apply singleton_sublist_l.
  - destruct H1. eapply elem_of_sublist; [|done]. right. left.
Qed.

Lemma sublist_pair_filter {A} (P : A -> Prop) `{!forall x, Decision (P x)}
    (u v : A) l :
  [u; v] `sublist_of` l -> P u -> P v -> [u; v] `sublist_of` filter P l.
Proof.
  intros Hsub Hu Hv.
  assert (filter P [u; v] = [u; v]) as <-.
  { rewrite !filter_cons, !decide_True by done. done. }
  revert Hsub. generalize [u; v]. intros k Hsub.
  induction Hsub as [|x k l Hsub IH|x k l Hsub IH].
  - done.
  - rewrite !filter_cons. destruct (decide (P x)); [by apply sublist_skip|done].
  - rewrite filter_cons. destruct (decide (P x)); [by apply sublist_cons|done].
Qed.

Lemma select_unassigned_variable_first cw d a v u :
  NoDup (variables cw) ->
  select_unassigned_variable cw d a = Ok (Some v) ->
  [u; v] `sublist_of` variables cw -> dict_get a u = None ->
  (domain_size d v < domain_size d u)%Z ∨
  (domain_size d u = domain_size d v ∧ (degree cw v < degree cw u)%Z).
Proof.
  intros Hnd H Hsub Hu. unfold select_unassigned_variable in H.
  inv_bind H. destruct x as [m vs]. unfold min_domain_scan in E.
  apply min_domain_scan_order in E as (Hm & Hall & Hvs).
  assert (vs = filter (fun u => dict_get a u = None ∧ domain_size d u = m)
                 (variables cw)) as Hvs'.
  { rewrite Hvs. by destruct (m <? 1000000)%Z. }
  clear Hvs. set (P := fun u => dict_get a u = None ∧ domain_size d u = m) in *.
  assert (u ∈ variables cw) as Huv
    by (eapply elem_of_sublist; [|done]; left).
  destruct (Hall u Huv Hu) as [_ Hmu].
  assert (v ∈ vs) as Hv.
  { destruct vs as [|v1 [|v2 vs]]; [done| |].
    - inversion H; subst. left.
    - apply (min_degree_scan_elem cw). congruence. }
  pose proof Hv as Hv0. rewrite Hvs' in Hv.
  apply list_elem_of_filter in Hv as [[Hva Hvm] Hvv].
  destruct (decide (domain_size d u = m)) as [Hum|Hum]; [|left; lia].
  right. split; [congruence|].
  assert ([u; v] `sublist_of` vs) as Hsub'.
  { rewrite Hvs'. apply sublist_pair_filter; done. }
  assert (NoDup vs) as Hndvs by (rewrite Hvs'; by apply NoDup_filter).
  destruct vs as [|v1 [|v2 vs]]; [done| |].
  - inversion H; subst v1. apply sublist_cons_r in Hsub' as [Hs|(? & ? & Hs)].
    + by apply sublist_nil_r in Hs.
    + simplify_eq. by apply sublist_nil_r in Hs.
  - inversion H as [Hr]. clear H.
    destruct (min_degree_scan cw (v1 :: v2 :: vs)) as [k r] eqn:Hscan.
    simpl in Hr. subst r. unfold min_degree_scan in Hscan.
    apply min_degree_scan_first in Hscan as (Hk & Hdeg & Hfirst).
    destruct (k <? 1000000)%Z; [|done].
    destruct Hfirst as (l1 & v' & l2 & Hl & [= <-] & Hdv & Hl1).
    rewrite Hl in Hsub', Hndvs.
    apply NoDup_app in Hndvs as (_ & Hn1 & [Hn2 _]%NoDup_cons).
    rewrite Hdv. apply Hl1.
    eapply sublist_pair_middle; [| |done]; [|done].
    intros Hin. apply (Hn1 _ Hin). left.
Qed.

(** ** A second revision of the same arc *)

Lemma for_each_steps {A S} (body : A -> S -> outcome S) l s s' :
  for_each body l s = Ok s' -> forall x, x ∈ l -> ∃ t t', body x t = Ok t'.
Proof.
  revert s. induction l as [|y l IH]; intros s H x Hx;
    [by apply elem_of_nil in Hx|].
  simpl in H. inv_bind H.
  apply elem_of_cons in Hx as [->|Hx]; [eauto|]. by eapply IH.
Qed.

Lemma revise_word_lookup d d' y a b w st :
  d' !! y = d !! y -> revise_word d' y a b w st = revise_word d y a b w st.
Proof. intros Hy. unfold revise_word, domains_get. by rewrite Hy. Qed.

Lemma revise_word_state d y a b w st st' t :
  revise_word d y a b w st = Ok st' -> ∃ t', revise_word d y a b w t = Ok t'.
Proof.
  destruct st as [rev tr], t as [rev' tr']. unfold revise_word. intros H.
  inv_bind H. rewrite E. cbn [bind]. inv_bind H. rewrite E0. cbn [bind].
  inv_bind H. rewrite E1. cbn [bind]. eauto.
Qed.

Lemma revise_scan_supported d y a b dx st :
  (forall w, w ∈ dx -> ∃ t t', revise_word d y a b w t = Ok t') ->
  Forall (supported d y a b) dx ->
  for_each (revise_word d y a b) dx st = Ok st.
Proof.
  induction dx as [|w dx IH]; intros Hok Hall; simpl; [done|].
  apply Forall_cons in Hall as [Hw Hall].
  destruct (Hok w) as (t & t' & Ht); [left|].
  destruct (revise_word_state _ _ _ _ _ _ _ st Ht) as [st' Hst].
  rewrite Hst. cbn [bind]. destruct st as [rev tr], st' as [rev' tr'].
  apply revise_word_spec in Hst as [_ Hst]. rewrite decide_True in Hst by done.
  destruct Hst as [-> ->]. apply IH; [|done]. intros; apply Hok; by right.
Qed.

Lemma revise_twice cw x y d r d' :
  revise cw x y d = Ok (r, d') -> revise cw x y d' = Ok (false, d').
Proof.
  intros H. pose proof H as H0. unfold revise in H |- *.
  destruct (decide (x = y)) as [|Hne]; [by inversion H|].
  inv_bind H. rewrite E. cbn [bind]. apply overlaps_get_Ok in E.
  destruct x0 as [[a b]|]; [|by inversion H].
  destruct (revise_full _ _ _ _ _ _ _ _ H0 Hne E) as (dx & Hdx & -> & _).
  clear H0. inv_bind H. apply domains_get_Ok in E0.
  assert (x0 = dx) as -> by congruence.
  inv_bind H. clear H. destruct x0 as [rev tr].
  unfold domains_get at 1. rewrite lookup_insert_eq. cbn [bind].
  rewrite (revise_scan_supported _ _ _ _ _ (false, [])).
  - cbn [bind for_each]. by rewrite insert_insert_eq.
  - intros w [_ Hw]%list_elem_of_filter.
    destruct (for_each_steps _ _ _ _ E1 w Hw) as (t & t' & Ht).
    exists t, t'. rewrite (revise_word_lookup d); [done|].
    by rewrite lookup_insert_ne.
  - apply Forall_forall. intros w [Hs _]%list_elem_of_filter.
    by apply supported_insert.
Qed.

Lemma revise_post cw x y d r d' a b :
  revise cw x y d = Ok (r, d') ->
  x ≠ y -> overlaps cw !! (x, y) = Some (Some (a, b)) ->
  (∃ dx', d' !! x = Some dx' ∧ Forall (supported d' y a b) dx') ∧
  (forall v, v ≠ x -> d' !! v = d !! v) ∧
  (r = false <-> d' = d).
Proof.
  intros H Hne Hov.
  destruct (revise_full _ _ _ _ _ _ _ _ H Hne Hov) as (dx & Hdx & -> & Hr).
  split_and!.
  - eexists. rewrite lookup_insert_eq. split; [done|].
    apply Forall_forall. intros w [Hs _]%list_elem_of_filter.
    by apply supported_insert.
  - intros v Hv. by rewrite lookup_insert_ne.
  - split.
    + intros ->. rewrite filter_all; [by apply insert_id|].
      intros w Hw. destruct (decide (supported d y a b w)) as [|Hns]; [done|].
      assert (false = true); [|done]. apply Hr, Exists_exists. eauto.
    + intros Heq. destruct r; [|done]. exfalso.
      destruct Hr as [Hr _]. specialize (Hr eq_refl).
      apply Exists_exists in Hr as (w & Hw & Hns).
      assert (<[x:=filter (supported d y a b) dx]> d !! x = d !! x) as Hx
        by by rewrite Heq.
      rewrite lookup_insert_eq, Hdx in Hx. injection Hx as Hx.
      rewrite <- Hx in Hw. by apply list_elem_of_filter in Hw as [? _].
Qed.

(** ** Node consistency, twice *)

Lemma node_consistency_step_id var d dv :
  d !! var = Some dv ->
  Forall (fun w => String.length w = var_length var) dv ->
  node_consistency_step var d = Ok d.
Proof.
  intros Hdv Hall. unfold node_consistency_step, domains_get. rewrite Hdv.
  cbn [bind].
  assert (filter (fun word => String.length word ≠ var_length var) dv = [])
    as ->.
  { apply filter_none. rewrite Forall_forall in Hall.
    intros w Hw Hne. by apply Hne, Hall. }
  cbn [bind for_each]. by rewrite insert_id.
Qed.


Lemma node_consistency_loop_done l d d' :
  for_each node_consistency_step l d = Ok d' ->
  (forall v, node_consistent_at d v -> node_consistent_at d' v) ∧
  forall v, v ∈ l -> node_consistent_at d' v.
Proof.
  revert d. induction l as [|u l IH]; intros d H; simpl in H.
  - inversion H; subst. split; [done|]. intros v []%elem_of_nil.
  - inv_bind H. apply node_consistency_step_spec in E as (dv & Hdv & ->).
    destruct (IH _ H) as [Hkeep Hl].
    assert (node_consistent_at
      (<[u:=filter (fun w => String.length w = var_length u) dv]> d) u) as Hu.
    { eexists. rewrite lookup_insert_eq. split; [done|].
      apply Forall_forall. by intros w [? _]%list_elem_of_filter. }
    split.
    + intros v (dv0 & Hv & Hall). apply Hkeep.
      destruct (decide (u = v)) as [->|Hne]; [done|].
      exists dv0. by rewrite lookup_insert_ne.
    + intros v [->|Hv]%elem_of_cons; auto.
Qed.

Lemma enforce_node_consistency_twice cw d d' :
  enforce_node_consistency cw d = Ok d' ->
  enforce_node_consistency cw d' = Ok d'.
Proof.
  unfold enforce_node_consistency. intros [_ H]%node_consistency_loop_done.
  induction (variables cw) as [|v l IH]; simpl; [done|].
  destruct (H v) as (dv & Hdv & Hall); [left|].
  rewrite (node_consistency_step_id v d' dv) by done. cbn [bind].
  apply IH. intros; apply H; by right.
Qed.

Lemma enforce_node_consistency_exact cw :
  crossword_wf cw ->
  ∃ d1, enforce_node_consistency cw (init_domains cw) = Ok d1 ∧
    forall v, d1 !! v =
      if decide (v ∈ variables cw)
      then Some (filter (fun w => String.length w = var_length v) (words cw))
      else None.
Proof.
  intros Hwf.
  destruct (node_consistency_loop (variables cw) (init_domains cw))
    as (d1 & H1 & Hd1).
  - intros v Hv. rewrite init_domains_lookup; eauto.
  - intros v dv [_ ->]%init_domains_keys. apply (wf_words _ Hwf).
  - exists d1. split; [done|]. intros v. rewrite Hd1.
    destruct (decide (v ∈ variables cw)) as [Hv|Hv].
    + by rewrite init_domains_lookup.
    + destruct (init_domains cw !! v) eqn:E; [|done].
      by apply init_domains_keys in E as [? _].
Qed.

(** ** Reading the words back from the array *)


Lemma written_cases a i j :
  match written a i j with
  | Some c => ∃ e, e ∈ a ∧ letter_of e.1 e.2 i j = Some c
  | None => forall e, e ∈ a -> letter_of e.1 e.2 i j = None
  end.
Proof.
  unfold written. induction a as [|e a IH] using rev_ind; simpl.
  - intros e []%elem_of_nil.
  - rewrite foldl_snoc. destruct e as [v w].
    destruct (letter_of v w i j) as [c|] eqn:Hc.
    + exists (v, w). split; [|done]. apply elem_of_app. right. left.
    + destruct (foldl _ None a) as [c|].
      * destruct IH as (e & He & Hl). exists e. split; [|done].
        apply elem_of_app. by left.
      * intros e [He| ->%list_elem_of_singleton]%elem_of_app; auto.
Qed.

Lemma letter_grid_read g a letters v w k :
  letter_grid g a = Ok letters -> compatible a ->
  (v, w) ∈ a -> k < String.length w ->
  letters_get letters
    (var_i v + (if decide (var_direction v = DOWN) then k else 0))
    (var_j v + (if decide (var_direction v = ACROSS) then k else 0))
  = Ok (String.get k w).
Proof.
  intros H Hcomp Hin Hk. pose proof (letter_grid_spec g a) as Hspec.
  rewrite H in Hspec. destruct Hspec as (Hfit & _ & Hget).
  rewrite Forall_forall in Hfit. specialize (Hfit _ Hin).
  rewrite fits_cells in Hfit.
  destruct (Hfit k Hk) as (i & j & Hidx & Hi & Hj).
  destruct (proj1 (index_of_cell _ _ _ _) Hidx) as [Hi' Hj'].
  rewrite <- Hi', <- Hj', Hget by done. f_equal.
  destruct (string_get_lt k w Hk) as [c Hc].
  assert (letter_of v w i j = Some c) as Hl
    by (unfold letter_of; rewrite Hidx; done).
  pose proof (written_cases a i j) as Hw.
  destruct (written a i j) as [c'|].
  - destruct Hw as (e & He & Hl'). rewrite Hc. f_equal.
    exact (Hcomp e (v, w) i j c' c He Hin Hl' Hl).
  - specialize (Hw _ Hin). simpl in Hw. congruence.
Qed.

Lemma ac3_loop_unbound_raises cw fuel l1 x y l2 d d1 :
  length l1 < fuel ->
  Forall (fun xy => revise cw xy.1 xy.2 d = Ok (false, d)) l1 ->
  revise cw x y d = Ok (true, d1) ->
  ac3_loop cw fuel None (l1 ++ (x, y) :: l2) d = Raise UnboundLocalError.
Proof.
  revert fuel. induction l1 as [|[x' y'] l1 IH]; intros fuel Hlen Hall Hrev.
  - destruct fuel as [|fuel]; [simpl in Hlen; lia|].
    simpl app. rewrite ac3_loop_S, Hrev. cbn [bind].
    destruct (revise_spec _ _ _ _ _ _ Hrev)
      as [[? _]|(a & b & dx & _ & _ & _ & _ & -> & _)]; [done|].
    unfold domains_get. rewrite lookup_insert_eq. cbn [bind]. done.
  - destruct fuel as [|fuel]; [simpl in Hlen; lia|].
    apply Forall_cons in Hall as [Hxy Hall]. simpl in Hxy.
    simpl app. rewrite ac3_loop_S, Hxy. cbn [bind].
    apply IH; [simpl in Hlen; lia|done..].
Qed.

(** ** Nothing left to select, nothing to choose from *)

Lemma min_domain_scan_assigned d a l st :
  (forall v, v ∈ l -> is_Some (dict_get a v)) ->
  for_each (min_domain_body d a) l st = Ok st.
Proof.
  induction l as [|v l IH]; intros Hall; simpl; [done|].
  unfold min_domain_body at 1. destruct st as [m vs].
  destruct (Hall v) as [w Hw]; [left|].
  unfold dict_mem. rewrite Hw. cbn [bind].
  apply IH. intros; apply Hall; by right.
Qed.

Lemma select_unassigned_variable_complete cw d a :
  assignment_is_complete cw a -> select_unassigned_variable cw d a = Ok None.
Proof.
  intros Hc. unfold select_unassigned_variable, min_domain_scan.
  by rewrite min_domain_scan_assigned.
Qed.

Lemma solve_no_words cw :
  crossword_wf cw ->
  Forall (fun v => (degree cw v < 1000000)%Z) (variables cw) ->
  words cw = [] -> variables cw ≠ [] ->
  ∃ fuel0, forall fuel, fuel0 <= fuel -> solve cw fuel = Ok None.
Proof.
  intros Hwf Hdeg Hw Hv.
  destruct (solve_total cw Hwf) as (fuel0 & r & Hr); [by rewrite Hw|done|].
  exists fuel0. intros fuel Hle.
  rewrite (solve_mono cw fuel0 fuel Hle) by by rewrite Hr. rewrite Hr.
  destruct r as [a|]; [exfalso|done].
  destruct (solve_entries _ _ _ Hwf Hr) as [Hk Hwords].
  destruct a as [|[v w] a].
  - simpl in Hk. apply Permutation_nil_l in Hk. done.
  - specialize (Hwords v w). rewrite Hw in Hwords.
    eapply elem_of_nil, Hwords. left.
Qed.

(** ** Rendering what [solve] returns *)

Lemma solve_fits cw g fuel a :
  crossword_wf cw -> Forall (slot_inside g) (variables cw) ->
  solve cw fuel = Ok (Some a) -> Forall (fits g) a.
Proof.
  intros Hwf Hin H. destruct (solve_entries _ _ _ Hwf H) as [Hk _].
  destruct (solve_sound _ _ _ Hwf H) as [_ Hv].
  apply Forall_forall. intros [v w] Hvw.
  assert (NoDup a.*1) as Hnd by (rewrite Hk; apply (wf_variables _ Hwf)).
  pose proof (valid_lengths _ _ Hv v w (dict_get_NoDup a v w Hnd Hvw)) as Hlen.
  assert (v ∈ variables cw) as Hvar.
  { rewrite <- Hk. apply list_elem_of_fmap. by exists (v, w). }
  rewrite Forall_forall in Hin. specialize (Hin v Hvar).
  unfold fits, slot_inside in *. simpl. rewrite Hlen.
  destruct Hin as [H0|Hin]; [left|by right].
  rewrite H0 in Hlen. by destruct w.
Qed.

(** ** The claims of the specification *)

(** C1. Every assignment returned by [solve()] is complete, and it
    satisfies the three hard constraints: word lengths match the slots,
    the words are pairwise distinct, and every overlapping pair of slots
    agrees on the shared character. *)
Theorem solve_returns_valid_assignment cw fuel a :
  crossword_wf cw ->
  solve cw fuel = Ok (Some a) ->
  assignment_is_complete cw a ∧ assignment_valid cw a.
Proof.
  intros Hwf H. unfold solve in H.
  inv_bind H. inv_bind H. destruct x0 as [b d']. inv_bind H.
  destruct x0 as [a' found]. destruct found; [|done].
  inversion H; subst a'. clear H.
  apply backtrack_found in E1 as [Hc Hv]. split.
  - by apply assignment_complete_spec.
  - destruct Hv as [->|Hv].
    + apply assignment_valid_nil.
    + by apply consistent_sound.
Qed.

Lemma solve_returns_valid_assignment_witness :
  let cw := two_slot across_first ["ABC"; "CAB"] in
  let a := [(slot_across, "ABC"); (slot_down, "CAB")] in
  solve cw 5 = Ok (Some a) ∧
  assignment_is_complete cw a ∧ assignment_valid cw a.
Proof.
  split; [vm_compute; reflexivity|].
  apply (solve_returns_valid_assignment
           (two_slot across_first ["ABC"; "CAB"]) 5).
  - apply two_slot_wf; [by left|by_compute].
  - vm_compute. reflexivity.
Defined.

(** C2: [ac3] never returns [False], and on the two-slot grid with the
    words ABC and ABD it returns [True] although the revision of the first
    arc has emptied a domain (whichever slot the variable set yields
    first). *)
Theorem ac3_true_with_empty_domain :
  (forall cw fuel arcs d b d', ac3 cw fuel arcs d = Ok (b, d') -> b = true) ∧
  (let cw := two_slot across_first ["ABC"; "ABD"] in
   enforce_node_consistency cw (init_domains cw) = Ok (init_domains cw) ∧
   ac3 cw 3 None (init_domains cw)
   = Ok (true, {[ slot_across := []; slot_down := ["ABC"; "ABD"] ]})) ∧
  (let cw := two_slot down_first ["ABC"; "ABD"] in
   enforce_node_consistency cw (init_domains cw) = Ok (init_domains cw) ∧
   ac3 cw 3 None (init_domains cw)
   = Ok (true, {[ slot_across := ["ABC"; "ABD"]; slot_down := [] ]})).
Proof.
  split; [|split; (split; vm_compute; reflexivity)].
  intros cw fuel arcs d b d' H.
  by eapply (ac3_inv (fun _ => True)) in H as [_ ->].
Qed.

(** C3: on the two-slot grid with the words ABC and CAB, [ac3] returns
    [True] and leaves domains that are not arc consistent (whichever slot
    the variable set yields first). *)
Theorem ac3_true_without_arc_consistency :
  (let cw := two_slot across_first ["ABC"; "CAB"] in
   let d2 : gmap Var (list string) :=
     {[ slot_across := ["ABC"]; slot_down := ["ABC"; "CAB"] ]} in
   enforce_node_consistency cw (init_domains cw) = Ok (init_domains cw) ∧
   ac3 cw 3 None (init_domains cw) = Ok (true, d2) ∧
   ¬ arc_consistent cw d2) ∧
  (let cw := two_slot down_first ["ABC"; "CAB"] in
   let d2 : gmap Var (list string) :=
     {[ slot_across := ["ABC"; "CAB"]; slot_down := ["CAB"] ]} in
   enforce_node_consistency cw (init_domains cw) = Ok (init_domains cw) ∧
   ac3 cw 3 None (init_domains cw) = Ok (true, d2) ∧
   ¬ arc_consistent cw d2).
Proof.
  split; (split; [|split]); try (vm_compute; reflexivity).
  - intros Hac.
    assert (¬ supported {[ slot_across := ["ABC"]; slot_down := ["ABC"; "CAB"] ]}
              slot_across 1 0 "ABC") as Hn by by_compute.
    apply Hn, (Hac slot_down slot_across ["ABC"; "CAB"]); by_compute.
  - intros Hac.
    assert (¬ supported {[ slot_across := ["ABC"; "CAB"]; slot_down := ["CAB"] ]}
              slot_down 0 1 "CAB") as Hn by by_compute.
    apply Hn, (Hac slot_across slot_down ["ABC"; "CAB"]); by_compute.
Qed.

(** C4. Pruning is sound. A word that [enforce_node_consistency] removes
    has the wrong length, a word that [revise] removes has no supporting
    word in the neighbor's domain, and so a complete assignment over the
    vocabulary that satisfies the hard constraints still takes its values
    in the domains left by [enforce_node_consistency] and [ac3]. *)
Theorem pruning_is_sound cw fuel a d1 b d2 :
  crossword_wf cw ->
  assignment_is_complete cw a -> assignment_valid cw a ->
  (forall v w, dict_get a v = Some w -> w ∈ words cw) ->
  enforce_node_consistency cw (init_domains cw) = Ok d1 ->
  ac3 cw fuel None d1 = Ok (b, d2) ->
  (forall v w, v ∈ variables cw -> w ∈ words cw ->
     (forall dv, d1 !! v = Some dv -> w ∉ dv) ->
     String.length w ≠ var_length v) ∧
  (forall x y d r d' v dv w,
     revise cw x y d = Ok (r, d') -> d !! v = Some dv -> w ∈ dv ->
     (forall dv', d' !! v = Some dv' -> w ∉ dv') ->
     v = x ∧ ∃ p q, overlaps cw !! (x, y) = Some (Some (p, q)) ∧
                    ¬ supported d y p q w) ∧
  within cw a d2.
Proof.
  intros Hwf Hc Hv Hw H1 H2. split_and!.
  - intros v w Hvar Hword. eapply enforce_node_consistency_removed; eauto.
    by apply init_domains_lookup.
  - intros x y d r d' v dv w. apply revise_removed.
  - by eapply pruning_keeps_solution.
Qed.

Lemma pruning_is_sound_witness :
  let cw := two_slot across_first ["ABC"; "CAB"] in
  let a := [(slot_across, "ABC"); (slot_down, "CAB")] in
  let d2 : gmap Var (list string) :=
    {[ slot_across := ["ABC"]; slot_down := ["ABC"; "CAB"] ]} in
  ac3 cw 3 None (init_domains cw) = Ok (true, d2) ∧ within cw a d2.
Proof.
  split; [vm_compute; reflexivity|].
  apply (pruning_is_sound (two_slot across_first ["ABC"; "CAB"]) 3
           [(slot_across, "ABC"); (slot_down, "CAB")]
           (init_domains (two_slot across_first ["ABC"; "CAB"])) true).
  - apply two_slot_wf; [by left|by_compute].
  - apply assignment_complete_spec. vm_compute. reflexivity.
  - apply consistent_sound.
    + apply two_slot_wf; [by left|by_compute].
    + vm_compute. reflexivity.
  - intros v w Hvw. simpl in Hvw. repeat case_decide; simplify_eq; by_compute.
  - vm_compute. reflexivity.
  - vm_compute. reflexivity.
Defined.

(** C5: on the two-slot grid with the words ABC and CAB, the first arc
    that [ac3] pops is revised and leaves a word in the domain. The
    revised slot has no neighbor other than the head of the arc, yet the
    loop, which reads the neighbors of the last variable visited while the
    worklist was built, enqueues the arc from the revised slot to itself
    (whichever slot the variable set yields first). *)
Theorem requeue_reads_stale_variable :
  (let cw := two_slot across_first ["ABC"; "CAB"] in
   initial_arcs cw = [(slot_across, slot_down)] ∧
   last (variables cw) = Some slot_down ∧
   revise cw slot_across slot_down (init_domains cw)
   = Ok (true, {[ slot_across := ["ABC"]; slot_down := ["ABC"; "CAB"] ]}) ∧
   neighbors cw slot_across = [slot_down] ∧
   requeue cw (Some slot_down) slot_across slot_down []
   = Ok [(slot_across, slot_across)]) ∧
  (let cw := two_slot down_first ["ABC"; "CAB"] in
   initial_arcs cw = [(slot_down, slot_across)] ∧
   last (variables cw) = Some slot_across ∧
   revise cw slot_down slot_across (init_domains cw)
   = Ok (true, {[ slot_across := ["ABC"; "CAB"]; slot_down := ["CAB"] ]}) ∧
   neighbors cw slot_down = [slot_across] ∧
   requeue cw (Some slot_across) slot_down slot_across []
   = Ok [(slot_down, slot_down)]).
Proof.
  split; intros cw; split_and!; vm_compute; reflexivity.
Qed.

(** C6: the initial worklist of [ac3] does not hold every arc. On every
    well-formed crossword it holds each pair of neighboring variables in
    one direction only, [(v, n)] or [(n, v)] and never both, because the
    guard [(neighbor, var) not in arcs] drops the reverse of an arc
    already listed. On the two-slot grid each slot is a neighbor of the
    other, and the worklist is the single arc from the slot visited first
    to the slot visited second (whichever slot the variable set yields
    first). *)
Theorem initial_arcs_misses_reverse_arc :
  (forall cw v n,
     crossword_wf cw -> v ∈ variables cw -> n ∈ neighbors cw v ->
     ((v, n) ∈ initial_arcs cw ∨ (n, v) ∈ initial_arcs cw) ∧
     ¬ ((v, n) ∈ initial_arcs cw ∧ (n, v) ∈ initial_arcs cw)) ∧
  (let cw := two_slot across_first ["ABC"; "CAB"] in
   crossword_wf cw ∧
   slot_down ∈ variables cw ∧
   slot_across ∈ neighbors cw slot_down ∧
   initial_arcs cw = [(slot_across, slot_down)] ∧
   (slot_down, slot_across) ∉ initial_arcs cw) ∧
  (let cw := two_slot down_first ["ABC"; "CAB"] in
   crossword_wf cw ∧
   slot_across ∈ variables cw ∧
   slot_down ∈ neighbors cw slot_across ∧
   initial_arcs cw = [(slot_down, slot_across)] ∧
   (slot_across, slot_down) ∉ initial_arcs cw).
Proof.
  split_and!.
  - intros cw v n Hwf Hv Hn. split.
    + by apply foldl_add_arcs_covers.
    + intros [H1 H2]. by apply (initial_arcs_one_way cw Hwf) in H1.
  - intros cw. split_and!; [|by_compute|by_compute|vm_compute; reflexivity|
                            by_compute].
    apply two_slot_wf; [by left|by_compute].
  - intros cw. split_and!; [|by_compute|by_compute|vm_compute; reflexivity|
                            by_compute].
    apply two_slot_wf; [by right|by_compute].
Qed.

(** C7. Backtracking is atomic on failure: when [backtrack] returns
    [None], the assignment dictionary holds exactly the entries it held
    when the call was made. *)
Theorem backtrack_failure_restores_assignment cw d fuel a a' :
  backtrack cw d fuel a = Ok (a', false) -> a' = a.
Proof. apply backtrack_atomic. Qed.

Lemma backtrack_failure_restores_assignment_witness :
  let cw := two_slot across_first ["ABC"; "ABD"] in
  let a := [(slot_across, "ABC")] in
  backtrack cw (init_domains cw) 2 a = Ok (a, false) ∧ a = a.
Proof.
  split; [vm_compute; reflexivity|].
  apply (backtrack_failure_restores_assignment
           (two_slot across_first ["ABC"; "ABD"])
           (init_domains (two_slot across_first ["ABC"; "ABD"])) 2).
  vm_compute. reflexivity.
Defined.

(** C8: [select_unassigned_variable] does not always return an unassigned
    variable. The scan for the smallest domain starts from [min = 1000000]
    and keeps a variable only when its domain is not larger: on the
    well-formed one-slot crossword with 1000001 words of the length of
    the slot, the slot is unassigned, no variable is kept and the method
    returns [None]; [solve] then ends in [KeyError]. *)
Lemma select_unassigned_variable_none_selected :
  crossword_wf big_crossword ∧
  domains_ok big_crossword (init_domains big_crossword) ∧
  long_slot ∈ variables big_crossword ∧
  dict_get [] long_slot = None ∧
  select_unassigned_variable big_crossword (init_domains big_crossword) []
  = Ok None ∧
  solve big_crossword 1 = Raise KeyError.
Proof.
  split_and!.
  - apply big_crossword_wf.
  - apply big_domains_ok.
  - by left.
  - done.
  - apply select_big.
  - apply solve_big_crossword.
Qed.

(** C9. With node consistency enforced, [order_domain_values] returns the
    words of the domain in ascending order of the number of values they
    rule out among the domains of the unassigned neighbors: a word that
    rules out strictly fewer values stands strictly before one that rules
    out more. *)
Theorem order_domain_values_lcv cw d var a dv :
  crossword_wf cw -> domains_ok cw d -> var ∈ variables cw ->
  d !! var = Some dv ->
  ∃ l, order_domain_values cw d var a = Ok l ∧
       (forall w, w ∈ l <-> w ∈ dv) ∧
       forall i j w1 w2, l !! i = Some w1 -> l !! j = Some w2 ->
         (ruled_out cw d var a w1 < ruled_out cw d var a w2)%Z -> i < j.
Proof.
  intros Hwf Hd Hvar Hdv. eexists. split; [by apply order_domain_values_total|].
  split.
  - intros w. by rewrite sorted_values_perm.
  - intros i j w1 w2. apply sorted_values_order.
Qed.

Lemma order_domain_values_lcv_witness :
  let cw := two_slot across_first ["ABC"; "CAB"; "BCA"; "ACB"] in
  let d := init_domains cw in
  ∃ l, order_domain_values cw d slot_across [] = Ok l ∧
       (forall w, w ∈ l <-> w ∈ ["ABC"; "CAB"; "BCA"; "ACB"]) ∧
       forall i j w1 w2, l !! i = Some w1 -> l !! j = Some w2 ->
         (ruled_out cw d slot_across [] w1
          < ruled_out cw d slot_across [] w2)%Z -> i < j.
Proof.
  apply (order_domain_values_lcv
           (two_slot across_first ["ABC"; "CAB"; "BCA"; "ACB"])
           (init_domains (two_slot across_first ["ABC"; "CAB"; "BCA"; "ACB"]))
           slot_across []).
  - apply two_slot_wf; [by left|by_compute].
  - split; by_compute.
  - by_compute.
  - vm_compute. reflexivity.
Defined.

(** C10. With node consistency enforced, [order_domain_values] returns a
    permutation of the domain of the variable: every word of the domain
    appears exactly once in the result, and nothing else does. Hence a
    call of [backtrack] that selects the variable and returns [None] has
    tried every word of its domain: the word was inconsistent, or the
    recursive call on the extended assignment returned [None]; and for
    a dictionary whose keys are distinct variables, no word of the domain
    was passed over that a solution could use: no complete assignment
    that satisfies the hard constraints and takes its values in the
    domains contains the dictionary extended with that word. *)
Theorem order_domain_values_permutation cw d var a dv :
  crossword_wf cw -> domains_ok cw d -> var ∈ variables cw ->
  d !! var = Some dv ->
  (∃ l, order_domain_values cw d var a = Ok l ∧ l ≡ₚ dv ∧ NoDup l) ∧
  (forall fuel a',
     select_unassigned_variable cw d a = Ok (Some var) ->
     backtrack cw d (S fuel) a = Ok (a', false) ->
     forall w, w ∈ dv ->
       consistent cw (dict_set a var w) = Ok false ∨
       backtrack cw d fuel (dict_set a var w) = Ok (dict_set a var w, false)) ∧
  (forall fuel a',
     NoDup a.*1 -> Forall (fun e => e.1 ∈ variables cw) a ->
     select_unassigned_variable cw d a = Ok (Some var) ->
     backtrack cw d (S fuel) a = Ok (a', false) ->
     forall w, w ∈ dv ->
       ¬ ∃ s, assignment_is_complete cw s ∧ assignment_valid cw s ∧
              within cw s d ∧ agrees (dict_set a var w) s).
Proof.
  intros Hwf Hd Hvar Hdv.
  pose proof (order_domain_values_total cw d var a dv Hwf Hd Hvar Hdv) as Hodv.
  split_and!.
  - eexists. split; [exact Hodv|]. split; [apply sorted_values_perm|].
    rewrite sorted_values_perm. by eapply domains_ok_nodup.
  - intros fuel a' Hsel Hbt.
    eapply backtrack_exhausted; [done|exact Hodv|apply sorted_values_perm|done].
  - intros fuel a' Hnd Hkeys Hsel Hbt w Hw (s & Hc & Hv & Hin & Hag).
    apply select_unassigned_variable_sound in Hsel as [_ Hnone%dict_mem_false].
    rewrite Forall_forall in Hkeys.
    apply (backtrack_complete cw d s (S fuel) a a'); try done.
    + intros v w' Hvw. apply (Hkeys _ Hvw).
    + intros v w' Hvw. apply Hag. rewrite dict_get_set.
      rewrite decide_False; [done|]. intros ->. congruence.
Qed.

Lemma order_domain_values_permutation_witness :
  let cw := two_slot across_first ["ABC"; "ABD"] in
  let d := init_domains cw in
  select_unassigned_variable cw d [] = Ok (Some slot_across) ∧
  backtrack cw d 3 [] = Ok ([], false) ∧
  (∃ l, order_domain_values cw d slot_across [] = Ok l ∧
        l ≡ₚ ["ABC"; "ABD"] ∧ NoDup l) ∧
  (forall w, w ∈ ["ABC"; "ABD"] ->
     consistent cw (dict_set [] slot_across w) = Ok false ∨
     backtrack cw d 2 (dict_set [] slot_across w)
     = Ok (dict_set [] slot_across w, false)) ∧
  (forall w, w ∈ ["ABC"; "ABD"] ->
     ¬ ∃ s, assignment_is_complete cw s ∧ assignment_valid cw s ∧
            within cw s d ∧ agrees (dict_set [] slot_across w) s).
Proof.
  intros cw d.
  assert (select_unassigned_variable cw d [] = Ok (Some slot_across)) as Hsel
    by (vm_compute; reflexivity).
  assert (backtrack cw d 3 [] = Ok ([], false)) as Hbt
    by (vm_compute; reflexivity).
  destruct (order_domain_values_permutation
              (two_slot across_first ["ABC"; "ABD"])
              (init_domains (two_slot across_first ["ABC"; "ABD"]))
              slot_across [] ["ABC"; "ABD"]) as (H1 & H2 & H3).
  - apply two_slot_wf; [by left|by_compute].
  - split; by_compute.
  - by_compute.
  - vm_compute. reflexivity.
  - split_and!; [exact Hsel|exact Hbt|exact H1| |].
    + exact (H2 2 [] Hsel Hbt).
    + apply (H3 2 []); [by_compute|by_compute|exact Hsel|exact Hbt].
Defined.

(** X1. [solve] terminates: with enough fuel the run ends, in a value or
    in an exception, and more fuel does not change its outcome. *)
Theorem solve_terminates cw :
  ∃ fuel0 r, r ≠ OutOfFuel ∧ forall fuel, fuel0 <= fuel -> solve cw fuel = r.
Proof.
  destruct (solve_returns cw) as [fuel0 Hret].
  exists fuel0, (solve cw fuel0). split; [done|].
  intros fuel Hle. by apply solve_mono.
Qed.

(** X2. On a well-formed crossword [enforce_node_consistency] succeeds
    and leaves a node-consistent domain store (a set of words of the
    length of the slot for every variable), and [ac3] keeps it so. *)
Theorem pruning_keeps_node_consistency cw :
  crossword_wf cw ->
  ∃ d1, enforce_node_consistency cw (init_domains cw) = Ok d1 ∧
        domains_ok cw d1 ∧
        forall fuel arcs b d2,
          ac3 cw fuel arcs d1 = Ok (b, d2) -> domains_ok cw d2.
Proof.
  intros Hwf. destruct (enforce_node_consistency_ok cw Hwf) as (d1 & H1 & Hok).
  exists d1. split_and!; [done..|].
  intros fuel arcs b d2 H2.
  eapply (ac3_inv (domains_ok cw)) in H2 as [? _]; [done| |done].
  intros x y d r d'. apply revise_domains_ok.
Qed.

Lemma pruning_keeps_node_consistency_witness :
  let cw := two_slot across_first ["ABC"; "CAB"; "ABCD"] in
  ∃ d1, enforce_node_consistency cw (init_domains cw) = Ok d1 ∧
        domains_ok cw d1 ∧
        forall fuel arcs b d2,
          ac3 cw fuel arcs d1 = Ok (b, d2) -> domains_ok cw d2.
Proof.
  apply (pruning_keeps_node_consistency
           (two_slot across_first ["ABC"; "CAB"; "ABCD"])).
  apply two_slot_wf; [by left|by_compute].
Defined.

(** X3. On a well-formed crossword with at most 1000000 words and fewer
    than 1000000 neighbors per variable, [solve] raises no exception:
    with enough fuel it returns an assignment or [None]. *)
Theorem solve_raises_nothing cw :
  crossword_wf cw ->
  (Z.of_nat (length (words cw)) <= 1000000)%Z ->
  Forall (fun v => (degree cw v < 1000000)%Z) (variables cw) ->
  ∃ fuel0 r, forall fuel, fuel0 <= fuel -> solve cw fuel = Ok r.
Proof.
  intros Hwf Hwords Hdeg.
  destruct (solve_total cw Hwf Hwords Hdeg) as (fuel0 & r & Hr).
  exists fuel0, r. intros fuel Hle.
  rewrite (solve_mono cw fuel0 fuel Hle); [done|by rewrite Hr].
Qed.

Lemma solve_raises_nothing_witness :
  let cw := two_slot across_first ["ABC"; "CAB"] in
  ∃ fuel0 r, forall fuel, fuel0 <= fuel -> solve cw fuel = Ok r.
Proof.
  apply (solve_raises_nothing (two_slot across_first ["ABC"; "CAB"])).
  - apply two_slot_wf; [by left|by_compute].
  - by_compute.
  - by_compute.
Defined.

(** ** Further properties of the code *)

(** X4. [consistent] decides the three hard constraints: on a dictionary
    whose keys are distinct variables of a well-formed crossword it
    returns [True] exactly when the word lengths match the slots, the
    words are pairwise distinct and the overlapping slots agree. *)
Theorem consistent_decides_validity cw a :
  crossword_wf cw -> NoDup a.*1 ->
  Forall (fun e => e.1 ∈ variables cw) a ->
  (consistent cw a = Ok true <-> assignment_valid cw a).
Proof.
  intros Hwf Hnd Hvars. rewrite Forall_forall in Hvars. split.
  - by apply consistent_sound.
  - apply consistent_complete; [done..|]. intros v w Hin. apply (Hvars _ Hin).
Qed.

Lemma consistent_decides_validity_witness :
  let cw := two_slot across_first ["ABC"; "CAB"] in
  let a := [(slot_across, "ABC"); (slot_down, "CAB")] in
  consistent cw a = Ok true <-> assignment_valid cw a.
Proof.
  apply (consistent_decides_validity
           (two_slot across_first ["ABC"; "CAB"])
           [(slot_across, "ABC"); (slot_down, "CAB")]).
  - apply two_slot_wf; [by left|by_compute].
  - by_compute.
  - by_compute.
Defined.

(** X5. [backtrack] is complete: when it returns [None] for a dictionary
    whose keys are distinct variables of a well-formed crossword, no
    complete assignment that satisfies the hard constraints and takes its
    values in the domains contains the entries of the dictionary. *)
Theorem backtrack_none_means_no_extension cw d fuel a a' :
  crossword_wf cw -> NoDup a.*1 ->
  Forall (fun e => e.1 ∈ variables cw) a ->
  backtrack cw d fuel a = Ok (a', false) ->
  ¬ ∃ s, assignment_is_complete cw s ∧ assignment_valid cw s ∧
         within cw s d ∧ agrees a s.
Proof.
  intros Hwf Hnd Hvars H (s & Hc & Hv & Hin & Hag).
  rewrite Forall_forall in Hvars.
  eapply (backtrack_complete cw d s fuel a a'); try done.
  intros v w Hvw. apply (Hvars _ Hvw).
Qed.

Lemma backtrack_none_means_no_extension_witness :
  let cw := two_slot across_first ["ABC"; "ABD"] in
  let d := init_domains cw in
  backtrack cw d 3 [] = Ok ([], false) ∧
  ¬ ∃ s, assignment_is_complete cw s ∧ assignment_valid cw s ∧
         within cw s d ∧ agrees [] s.
Proof.
  split; [vm_compute; reflexivity|].
  apply (backtrack_none_means_no_extension
           (two_slot across_first ["ABC"; "ABD"])
           (init_domains (two_slot across_first ["ABC"; "ABD"])) 3 [] []).
  - apply two_slot_wf; [by left|by_compute].
  - by_compute.
  - by_compute.
  - vm_compute. reflexivity.
Defined.

(** X6. [solve] returns [None] only when the crossword has no solution:
    then no complete assignment of words of the vocabulary satisfies the
    hard constraints. *)
Theorem solve_none_means_no_solution cw fuel :
  crossword_wf cw -> solve cw fuel = Ok None ->
  ¬ ∃ s, assignment_is_complete cw s ∧ assignment_valid cw s ∧
         forall v w, dict_get s v = Some w -> w ∈ words cw.
Proof.
  intros Hwf H (s & Hc & Hv & Hw). by eapply solve_complete.
Qed.

Lemma solve_none_means_no_solution_witness :
  let cw := two_slot across_first ["ABC"; "ABD"] in
  solve cw 5 = Ok None ∧
  ¬ ∃ s, assignment_is_complete cw s ∧ assignment_valid cw s ∧
         forall v w, dict_get s v = Some w -> w ∈ words cw.
Proof.
  split; [vm_compute; reflexivity|].
  apply (solve_none_means_no_solution
           (two_slot across_first ["ABC"; "ABD"]) 5).
  - apply two_slot_wf; [by left|by_compute].
  - vm_compute. reflexivity.
Defined.

(** X7. [solve] finds a solution when there is one: on a well-formed
    crossword with at most 1000000 words and fewer than 1000000 neighbors
    per variable, if some complete assignment of words of the vocabulary
    satisfies the hard constraints, then with enough fuel [solve] returns
    a complete assignment that satisfies them. *)
Theorem solve_finds_solution cw s :
  crossword_wf cw ->
  (Z.of_nat (length (words cw)) <= 1000000)%Z ->
  Forall (fun v => (degree cw v < 1000000)%Z) (variables cw) ->
  assignment_is_complete cw s -> assignment_valid cw s ->
  Forall (fun e => e.2 ∈ words cw) s ->
  ∃ fuel0 a, assignment_is_complete cw a ∧ assignment_valid cw a ∧
    forall fuel, fuel0 <= fuel -> solve cw fuel = Ok (Some a).
Proof.
  intros Hwf Hwords Hdeg Hc Hv Hw. apply (solve_finds cw s); try done.
  intros v w Hvw%dict_get_elem. rewrite Forall_forall in Hw.
  apply (Hw _ Hvw).
Qed.

Lemma solve_finds_solution_witness :
  let cw := two_slot across_first ["ABC"; "CAB"] in
  ∃ fuel0 a, assignment_is_complete cw a ∧ assignment_valid cw a ∧
    forall fuel, fuel0 <= fuel -> solve cw fuel = Ok (Some a).
Proof.
  apply (solve_finds_solution (two_slot across_first ["ABC"; "CAB"])
           [(slot_across, "ABC"); (slot_down, "CAB")]).
  - apply two_slot_wf; [by left|by_compute].
  - by_compute.
  - by_compute.
  - apply assignment_complete_spec. vm_compute. reflexivity.
  - apply consistent_sound.
    + apply two_slot_wf; [by left|by_compute].
    + vm_compute. reflexivity.
  - by_compute.
Defined.

(** X8. A successful [backtrack] only adds entries: the dictionary it
    returns is the one it was given followed by new entries, whose keys
    are distinct variables of the crossword that the given dictionary
    left open, each with a word of its domain. *)
Theorem backtrack_extends_assignment cw d fuel a a' :
  backtrack cw d fuel a = Ok (a', true) ->
  ∃ ext, a' = a ++ ext ∧ NoDup ext.*1 ∧
    forall v w, (v, w) ∈ ext ->
      v ∈ variables cw ∧ dict_get a v = None ∧
      ∃ dv, d !! v = Some dv ∧ w ∈ dv.
Proof. apply backtrack_extends. Qed.

Lemma backtrack_extends_assignment_witness :
  let cw := two_slot across_first ["ABC"; "CAB"] in
  let d := init_domains cw in
  let a := [(slot_across, "ABC")] in
  ∃ ext, [(slot_across, "ABC"); (slot_down, "CAB")] = a ++ ext ∧
    NoDup ext.*1 ∧
    forall v w, (v, w) ∈ ext ->
      v ∈ variables cw ∧ dict_get a v = None ∧
      ∃ dv, d !! v = Some dv ∧ w ∈ dv.
Proof.
  apply (backtrack_extends_assignment
           (two_slot across_first ["ABC"; "CAB"])
           (init_domains (two_slot across_first ["ABC"; "CAB"])) 3
           [(slot_across, "ABC")]).
  vm_compute. reflexivity.
Defined.

(** X9. An assignment returned by [solve] has exactly one entry for each
    variable of the crossword, and every word in it is a word of the
    vocabulary. *)
Theorem solve_assigns_vocabulary cw fuel a :
  crossword_wf cw -> solve cw fuel = Ok (Some a) ->
  a.*1 ≡ₚ variables cw ∧ Forall (fun e => e.2 ∈ words cw) a.
Proof.
  intros Hwf H. destruct (solve_entries cw fuel a Hwf H) as [Hk Hw].
  split; [done|]. apply Forall_forall. intros [v w] Hin. by eapply Hw.
Qed.

Lemma solve_assigns_vocabulary_witness :
  let cw := two_slot down_first ["ABC"; "CAB"] in
  let a := [(slot_down, "CAB"); (slot_across, "ABC")] in
  solve cw 5 = Ok (Some a) ∧
  a.*1 ≡ₚ variables cw ∧ Forall (fun e => e.2 ∈ words cw) a.
Proof.
  split; [vm_compute; reflexivity|].
  apply (solve_assigns_vocabulary (two_slot down_first ["ABC"; "CAB"]) 5).
  - apply two_slot_wf; [by right|by_compute].
  - vm_compute. reflexivity.
Defined.

(** X10. Pruning only removes words: after [enforce_node_consistency]
    and after [ac3], every variable that had a domain still has one, its
    words are words it had before, in their order, and no other variable
    has got a domain. *)
Theorem pruning_only_removes cw fuel arcs d d1 b d2 :
  enforce_node_consistency cw d = Ok d1 ->
  ac3 cw fuel arcs d1 = Ok (b, d2) ->
  shrinks d d1 ∧ shrinks d1 d2.
Proof.
  intros H1 H2. split.
  - by eapply enforce_node_consistency_shrinks.
  - by eapply ac3_shrinks.
Qed.

Lemma pruning_only_removes_witness :
  let cw := two_slot across_first ["ABC"; "CAB"; "ABCD"] in
  let d1 : gmap Var (list string) :=
    {[ slot_across := ["ABC"; "CAB"]; slot_down := ["ABC"; "CAB"] ]} in
  let d2 : gmap Var (list string) :=
    {[ slot_across := ["ABC"]; slot_down := ["ABC"; "CAB"] ]} in
  shrinks (init_domains cw) d1 ∧ shrinks d1 d2.
Proof.
  apply (pruning_only_removes
           (two_slot across_first ["ABC"; "CAB"; "ABCD"]) 3 None
           (init_domains (two_slot across_first ["ABC"; "CAB"; "ABCD"]))
           {[ slot_across := ["ABC"; "CAB"]; slot_down := ["ABC"; "CAB"] ]}
           true).
  - vm_compute. reflexivity.
  - vm_compute. reflexivity.
Defined.

(** X11. What [revise(x, y)] leaves, for distinct variables with an
    overlap: every word left in the domain of [x] has a supporting word
    in the domain of [y], the domains of the other variables are as they
    were, and the call returns [False] exactly when it has removed
    nothing. *)
Theorem revise_makes_arc_consistent cw x y d r d' p q :
  revise cw x y d = Ok (r, d') ->
  x ≠ y -> overlaps cw !! (x, y) = Some (Some (p, q)) ->
  (∃ dx', d' !! x = Some dx' ∧ Forall (supported d' y p q) dx') ∧
  (forall v, v ≠ x -> d' !! v = d !! v) ∧
  (r = false <-> d' = d).
Proof. apply revise_post. Qed.

Lemma revise_makes_arc_consistent_witness :
  let cw := two_slot across_first ["ABC"; "CAB"] in
  let d := init_domains cw in
  let d' : gmap Var (list string) :=
    {[ slot_across := ["ABC"]; slot_down := ["ABC"; "CAB"] ]} in
  revise cw slot_across slot_down d = Ok (true, d') ∧
  (∃ dx', d' !! slot_across = Some dx' ∧
          Forall (supported d' slot_down 0 1) dx') ∧
  (forall v, v ≠ slot_across -> d' !! v = d !! v) ∧
  (true = false <-> d' = d).
Proof.
  split; [vm_compute; reflexivity|].
  apply (revise_makes_arc_consistent
           (two_slot across_first ["ABC"; "CAB"]) slot_across slot_down
           (init_domains (two_slot across_first ["ABC"; "CAB"]))).
  - vm_compute. reflexivity.
  - by_compute.
  - vm_compute. reflexivity.
Defined.

(** X12. [revise] is idempotent: a second call on the same arc, made
    right after a call that returned, removes nothing and returns
    [False]. *)
Theorem revise_idempotent cw x y d r d' :
  revise cw x y d = Ok (r, d') -> revise cw x y d' = Ok (false, d').
Proof. apply revise_twice. Qed.

Lemma revise_idempotent_witness :
  let cw := two_slot across_first ["ABC"; "CAB"] in
  let d' : gmap Var (list string) :=
    {[ slot_across := ["ABC"]; slot_down := ["ABC"; "CAB"] ]} in
  revise cw slot_across slot_down d' = Ok (false, d').
Proof.
  apply (revise_idempotent
           (two_slot across_first ["ABC"; "CAB"]) slot_across slot_down
           (init_domains (two_slot across_first ["ABC"; "CAB"])) true).
  vm_compute. reflexivity.
Defined.

(** X13. [ac3] called with a list of arcs prunes nothing: when such a
    call returns, the domains are as they were and no arc of the list
    needed a revision. *)
Theorem ac3_with_arcs_prunes_nothing cw fuel arcs d b d' :
  ac3 cw fuel (Some arcs) d = Ok (b, d') ->
  d' = d ∧ Forall (fun xy => revise cw xy.1 xy.2 d = Ok (false, d)) arcs.
Proof. apply ac3_loop_unbound. Qed.

Lemma ac3_with_arcs_prunes_nothing_witness :
  let cw := two_slot across_first ["ABC"; "CAB"] in
  let d : gmap Var (list string) :=
    {[ slot_across := ["ABC"]; slot_down := ["ABC"; "CAB"] ]} in
  let arcs := [(slot_across, slot_down)] in
  d = d ∧ Forall (fun xy => revise cw xy.1 xy.2 d = Ok (false, d)) arcs.
Proof.
  apply (ac3_with_arcs_prunes_nothing
           (two_slot across_first ["ABC"; "CAB"]) 2
           [(slot_across, slot_down)]
           {[ slot_across := ["ABC"]; slot_down := ["ABC"; "CAB"] ]} true).
  vm_compute. reflexivity.
Defined.

(** X14. [ac3] called with a list of arcs raises [UnboundLocalError] at
    the first arc that needs a revision: the loop that re-enqueues arcs
    reads the local [var], which is bound only when the worklist is built
    by [ac3] itself. *)
Theorem ac3_with_arcs_raises_on_revision cw fuel l1 x y l2 d d1 :
  length l1 < fuel ->
  Forall (fun xy => revise cw xy.1 xy.2 d = Ok (false, d)) l1 ->
  revise cw x y d = Ok (true, d1) ->
  ac3 cw fuel (Some (l1 ++ (x, y) :: l2)) d = Raise UnboundLocalError.
Proof. apply ac3_loop_unbound_raises. Qed.

Lemma ac3_with_arcs_raises_on_revision_witness :
  let cw := two_slot across_first ["ABC"; "CAB"] in
  ac3 cw 2 (Some ([(slot_down, slot_down)] ++
                  (slot_across, slot_down) :: [])) (init_domains cw)
  = Raise UnboundLocalError.
Proof.
  apply (ac3_with_arcs_raises_on_revision
           (two_slot across_first ["ABC"; "CAB"]) 2
           [(slot_down, slot_down)] slot_across slot_down []
           (init_domains (two_slot across_first ["ABC"; "CAB"]))
           {[ slot_across := ["ABC"]; slot_down := ["ABC"; "CAB"] ]}).
  - simpl. lia.
  - constructor; [vm_compute; reflexivity|constructor].
  - vm_compute. reflexivity.
Defined.

(** X15. On a well-formed crossword [enforce_node_consistency] leaves,
    for every variable, exactly the words of the vocabulary that have the
    length of the slot, in the order of the vocabulary. *)
Theorem enforce_node_consistency_keeps_fitting_words cw :
  crossword_wf cw ->
  ∃ d1, enforce_node_consistency cw (init_domains cw) = Ok d1 ∧
    forall v, d1 !! v =
      if decide (v ∈ variables cw)
      then Some (filter (fun w => String.length w = var_length v) (words cw))
      else None.
Proof. apply enforce_node_consistency_exact. Qed.

Lemma enforce_node_consistency_keeps_fitting_words_witness :
  let cw := two_slot across_first ["ABC"; "ABCD"; "CAB"] in
  ∃ d1, enforce_node_consistency cw (init_domains cw) = Ok d1 ∧
    forall v, d1 !! v =
      if decide (v ∈ variables cw)
      then Some (filter (fun w => String.length w = var_length v) (words cw))
      else None.
Proof.
  apply (enforce_node_consistency_keeps_fitting_words
           (two_slot across_first ["ABC"; "ABCD"; "CAB"])).
  apply two_slot_wf; [by left|by_compute].
Defined.

(** X16. [enforce_node_consistency] is idempotent: called again on the
    domains it has left, it returns them unchanged. *)
Theorem enforce_node_consistency_idempotent cw d d' :
  enforce_node_consistency cw d = Ok d' ->
  enforce_node_consistency cw d' = Ok d'.
Proof. apply enforce_node_consistency_twice. Qed.

Lemma enforce_node_consistency_idempotent_witness :
  let cw := two_slot across_first ["ABC"; "ABCD"; "CAB"] in
  let d' : gmap Var (list string) :=
    {[ slot_across := ["ABC"; "CAB"]; slot_down := ["ABC"; "CAB"] ]} in
  enforce_node_consistency cw d' = Ok d'.
Proof.
  apply (enforce_node_consistency_idempotent
           (two_slot across_first ["ABC"; "ABCD"; "CAB"])
           (init_domains (two_slot across_first ["ABC"; "ABCD"; "CAB"]))).
  vm_compute. reflexivity.
Defined.

(** X17. [enforce_node_consistency] raises [KeyError] when a variable of
    the crossword has no domain. *)
Theorem enforce_node_consistency_missing_domain cw d v :
  v ∈ variables cw -> d !! v = None ->
  enforce_node_consistency cw d = Raise KeyError.
Proof. apply enforce_node_consistency_missing. Qed.

Lemma enforce_node_consistency_missing_domain_witness :
  let cw := two_slot across_first ["ABC"; "CAB"] in
  enforce_node_consistency cw {[ slot_across := ["ABC"; "CAB"] ]}
  = Raise KeyError.
Proof.
  apply (enforce_node_consistency_missing_domain
           (two_slot across_first ["ABC"; "CAB"])
           {[ slot_across := ["ABC"; "CAB"] ]} slot_down).
  - by_compute.
  - vm_compute. reflexivity.
Defined.

(** X18. The order of [order_domain_values] is stable: with node
    consistency enforced, a word that stands before another one in the
    domain and rules out no more values than it also stands before it in
    the result. *)
Theorem order_domain_values_stable cw d var a dv l w1 w2 :
  crossword_wf cw -> domains_ok cw d -> var ∈ variables cw ->
  d !! var = Some dv -> order_domain_values cw d var a = Ok l ->
  [w1; w2] `sublist_of` dv ->
  (ruled_out cw d var a w1 <= ruled_out cw d var a w2)%Z ->
  [w1; w2] `sublist_of` l.
Proof.
  intros Hwf Hd Hvar Hdv Hl Hsub Hle.
  rewrite (order_domain_values_total cw d var a dv Hwf Hd Hvar Hdv) in Hl.
  inversion Hl; subst l. by apply sorted_values_stable.
Qed.

Lemma order_domain_values_stable_witness :
  let cw := two_slot across_first ["ABC"; "CAB"; "BCA"; "ACB"] in
  order_domain_values cw (init_domains cw) slot_across []
  = Ok ["CAB"; "ABC"; "BCA"; "ACB"] ∧
  ["ABC"; "ACB"] `sublist_of` ["CAB"; "ABC"; "BCA"; "ACB"].
Proof.
  split; [vm_compute; reflexivity|].
  apply (order_domain_values_stable
           (two_slot across_first ["ABC"; "CAB"; "BCA"; "ACB"])
           (init_domains (two_slot across_first ["ABC"; "CAB"; "BCA"; "ACB"]))
           slot_across [] ["ABC"; "CAB"; "BCA"; "ACB"]).
  - apply two_slot_wf; [by left|by_compute].
  - split; by_compute.
  - by_compute.
  - vm_compute. reflexivity.
  - vm_compute. reflexivity.
  - repeat first [apply sublist_nil|apply sublist_skip|apply sublist_cons].
  - by_compute.
Defined.

(** X19. Ties are broken by the iteration order of the variable set: an
    unassigned variable that comes before the selected one has a larger
    domain, or a domain of the same size and more neighbors. *)
Theorem select_unassigned_variable_breaks_ties_in_order cw d a v u :
  NoDup (variables cw) ->
  select_unassigned_variable cw d a = Ok (Some v) ->
  [u; v] `sublist_of` variables cw -> dict_get a u = None ->
  (domain_size d v < domain_size d u)%Z ∨
  (domain_size d u = domain_size d v ∧ (degree cw v < degree cw u)%Z).
Proof. apply select_unassigned_variable_first. Qed.

Lemma select_unassigned_variable_breaks_ties_in_order_witness :
  let cw := two_slot across_first ["ABC"; "CAB"] in
  let d : gmap Var (list string) :=
    {[ slot_across := ["ABC"; "CAB"]; slot_down := ["ABC"] ]} in
  (domain_size d slot_down < domain_size d slot_across)%Z ∨
  (domain_size d slot_across = domain_size d slot_down ∧
   (degree cw slot_down < degree cw slot_across)%Z).
Proof.
  apply (select_unassigned_variable_breaks_ties_in_order
           (two_slot across_first ["ABC"; "CAB"])
           {[ slot_across := ["ABC"; "CAB"]; slot_down := ["ABC"] ]} []).
  - by_compute.
  - vm_compute. reflexivity.
  - repeat first [apply sublist_nil|apply sublist_skip|apply sublist_cons].
  - reflexivity.
Defined.

(** X20. The array returned by [letter_grid] has [height] rows of
    [width] cells, and each cell holds the character put there by the
    last entry of the assignment whose slot covers the cell, or [None]
    when no slot covers it. *)
Theorem letter_grid_cells g a letters :
  letter_grid g a = Ok letters ->
  shape (height g) (width g) letters ∧
  forall i j, i < height g -> j < width g ->
    letters_get letters i j = Ok (written a i j).
Proof.
  intros H. pose proof (letter_grid_spec g a) as Hspec.
  rewrite H in Hspec. by destruct Hspec as (_ & ? & ?).
Qed.

Lemma letter_grid_cells_witness :
  let a := [(slot_across, "CAB"); (slot_down, "ACB")] in
  let letters :=
    [[Some "A"; None; None]; [Some "C"; Some "A"; Some "B"];
     [Some "B"; None; None]]%char in
  letter_grid two_slot_grid a = Ok letters ∧
  shape 3 3 letters ∧
  forall i j, i < 3 -> j < 3 -> letters_get letters i j = Ok (written a i j).
Proof.
  split; [vm_compute; reflexivity|].
  apply (letter_grid_cells two_slot_grid
           [(slot_across, "CAB"); (slot_down, "ACB")]).
  vm_compute. reflexivity.
Defined.

(** X21. [letter_grid] returns exactly when every word of the assignment
    lies inside the grid, and raises [IndexError] otherwise. *)
Theorem letter_grid_index_error g a :
  if decide (Forall (fits g) a)
  then ∃ letters, letter_grid g a = Ok letters
  else letter_grid g a = Raise IndexError.
Proof.
  pose proof (letter_grid_spec g a) as Hspec.
  destruct (letter_grid g a) as [letters|e|]; [| |done].
  - destruct Hspec as (Hfit & _). rewrite decide_True by done. eauto.
  - destruct Hspec as [-> Hfit]. by rewrite decide_False.
Qed.

(** X22. The words can be read back from the array: when the entries of
    the assignment that cover the same cell put the same character
    there, character [k] of every word is in the cell of its slot at
    distance [k] from the start of the slot. *)
Theorem letter_grid_reads_back g a letters v w k :
  letter_grid g a = Ok letters -> compatible a ->
  (v, w) ∈ a -> k < String.length w ->
  letters_get letters
    (var_i v + (if decide (var_direction v = DOWN) then k else 0))
    (var_j v + (if decide (var_direction v = ACROSS) then k else 0))
  = Ok (String.get k w).
Proof. apply letter_grid_read. Qed.

Lemma letter_grid_reads_back_witness :
  let letters :=
    [[Some "A"; None; None]; [Some "C"; Some "A"; Some "B"];
     [Some "B"; None; None]]%char in
  letters_get letters 2 0 = Ok (String.get 2 "ACB").
Proof.
  apply (letter_grid_reads_back two_slot_grid
           [(slot_across, "CAB"); (slot_down, "ACB")] _ slot_down "ACB" 2).
  - vm_compute. reflexivity.
  - intros e1 e2 i j c1 c2 He1 He2 H1 H2.
    apply elem_of_cons in He1 as [->|He1%list_elem_of_singleton];
      apply elem_of_cons in He2 as [->|He2%list_elem_of_singleton];
      subst; try congruence;
      unfold letter_of, index_of in H1, H2; simpl in H1, H2;
      repeat case_decide; simpl in H1, H2; try done;
      destruct_and?; subst; simpl in H1, H2; congruence.
  - by_compute.
  - simpl. lia.
Defined.

(** X23. What [print] writes: when the structure has [height] rows of
    [width] cells and every word lies inside the grid, [print] raises
    nothing and writes, row by row, one text per cell and a newline: the
    block for a blocked cell, the character of the array for a fillable
    cell that a word covers, and a space for any other fillable cell. *)
Theorem print_writes_the_grid g a out :
  shape (height g) (width g) (structure g) -> Forall (fits g) a ->
  print g a out = (out ++ flat_map (row_text g a) (seq 0 (height g)), Ok tt).
Proof. apply print_spec. Qed.

Lemma print_writes_the_grid_witness :
  let a := [(slot_across, "CAB"); (slot_down, "ACB")] in
  print two_slot_grid a []
  = ([] ++ flat_map (row_text two_slot_grid a) (seq 0 (height two_slot_grid)),
     Ok tt).
Proof.
  apply (print_writes_the_grid two_slot_grid
           [(slot_across, "CAB"); (slot_down, "ACB")] []).
  - split; by_compute.
  - by_compute.
Defined.

(** X24. When a word of the assignment does not lie inside the grid,
    [print] raises [IndexError] before it writes anything. *)
Theorem print_writes_nothing_on_index_error g a out :
  ¬ Forall (fits g) a -> print g a out = (out, Raise IndexError).
Proof. apply print_misfit. Qed.

Lemma print_writes_nothing_on_index_error_witness :
  print two_slot_grid [(slot_across, "ABCD")] [] = ([], Raise IndexError).
Proof.
  apply (print_writes_nothing_on_index_error two_slot_grid
           [(slot_across, "ABCD")] []).
  apply (bool_decide_unpack _). vm_compute. exact I.
Defined.

(** X25. With an empty vocabulary a well-formed crossword that has a
    slot has no solution, and [solve] says so: with enough fuel it
    returns [None]. *)
Theorem solve_empty_vocabulary cw :
  crossword_wf cw ->
  Forall (fun v => (degree cw v < 1000000)%Z) (variables cw) ->
  words cw = [] -> variables cw ≠ [] ->
  ∃ fuel0, forall fuel, fuel0 <= fuel -> solve cw fuel = Ok None.
Proof. apply solve_no_words. Qed.

Lemma solve_empty_vocabulary_witness :
  let cw := two_slot across_first [] in
  ∃ fuel0, forall fuel, fuel0 <= fuel -> solve cw fuel = Ok None.
Proof.
  apply (solve_empty_vocabulary (two_slot across_first [])).
  - apply two_slot_wf; [by left|by_compute].
  - by_compute.
  - reflexivity.
  - by_compute.
Defined.

(** X26. When every variable of the crossword is assigned,
    [select_unassigned_variable] returns [None], and it reads no
    domain. *)
Theorem select_unassigned_variable_none_left cw d a :
  assignment_is_complete cw a -> select_unassigned_variable cw d a = Ok None.
Proof. apply select_unassigned_variable_complete. Qed.

Lemma select_unassigned_variable_none_left_witness :
  let cw := two_slot across_first ["ABC"; "CAB"] in
  select_unassigned_variable cw ∅ [(slot_across, "ABC"); (slot_down, "CAB")]
  = Ok None.
Proof.
  apply (select_unassigned_variable_none_left
           (two_slot across_first ["ABC"; "CAB"]) ∅
           [(slot_across, "ABC"); (slot_down, "CAB")]).
  apply assignment_complete_spec. vm_compute. reflexivity.
Defined.

(** X27. [print] renders what [solve] returns: when the slots of a
    well-formed crossword lie inside the grid and the structure has
    [height] rows of [width] cells, [print] applied to an assignment
    returned by [solve] raises nothing and writes the whole grid. *)
Theorem print_renders_solution cw g fuel a out :
  crossword_wf cw -> Forall (slot_inside g) (variables cw) ->
  shape (height g) (width g) (structure g) ->
  solve cw fuel = Ok (Some a) ->
  print g a out = (out ++ flat_map (row_text g a) (seq 0 (height g)), Ok tt).
Proof.
  intros Hwf Hin Hs H. apply print_spec; [done|]. by eapply solve_fits.
Qed.

Lemma print_renders_solution_witness :
  let cw := two_slot across_first ["ACB"; "CAB"] in
  let a := [(slot_across, "ACB"); (slot_down, "CAB")] in
  solve cw 5 = Ok (Some a) ∧
  print two_slot_grid a []
  = ([] ++ flat_map (row_text two_slot_grid a) (seq 0 (height two_slot_grid)),
     Ok tt) ∧
  flat_map (row_text two_slot_grid a) (seq 0 (height two_slot_grid))
  = ["C"; "█"; "█"; newline; "A"; "C"; "B"; newline; "B"; "█"; "█"; newline].
Proof.
  split; [vm_compute; reflexivity|]. split; [|vm_compute; reflexivity].
  apply (print_renders_solution (two_slot across_first ["ACB"; "CAB"])
           two_slot_grid 5).
  - apply two_slot_wf; [by left|by_compute].
  - by_compute.
  - split; by_compute.
  - vm_compute. reflexivity.
Defined.

(** X28. When some unassigned variable has a domain of at most
    1000000 words and every variable has fewer than 1000000 neighbors,
    [select_unassigned_variable] returns an unassigned variable whose
    domain size is minimal among the unassigned variables and whose
    neighbor count is minimal among the unassigned variables of that
    domain size. *)
Theorem select_unassigned_variable_mrv_degree cw d a u :
  Forall (fun v => is_Some (d !! v)) (variables cw) ->
  Forall (fun v => (degree cw v < 1000000)%Z) (variables cw) ->
  u ∈ variables cw -> dict_get a u = None ->
  (domain_size d u <= 1000000)%Z ->
  ∃ v, select_unassigned_variable cw d a = Ok (Some v) ∧
       v ∈ variables cw ∧ dict_get a v = None ∧
       forall w, w ∈ variables cw -> dict_get a w = None ->
         (domain_size d v <= domain_size d w)%Z ∧
         (domain_size d w = domain_size d v ->
          (degree cw v <= degree cw w)%Z).
Proof. apply select_unassigned_variable_spec. Qed.

Lemma select_unassigned_variable_mrv_degree_witness :
  let cw := two_slot across_first ["ABC"; "CAB"] in
  let d := init_domains cw in
  ∃ v, select_unassigned_variable cw d [] = Ok (Some v) ∧
       v ∈ variables cw ∧ dict_get [] v = None ∧
       forall w, w ∈ variables cw -> dict_get [] w = None ->
         (domain_size d v <= domain_size d w)%Z ∧
         (domain_size d w = domain_size d v ->
          (degree cw v <= degree cw w)%Z).
Proof.
  apply (select_unassigned_variable_mrv_degree
           (two_slot across_first ["ABC"; "CAB"])
           (init_domains (two_slot across_first ["ABC"; "CAB"])) []
           slot_across).
  - by_compute.
  - by_compute.
  - by_compute.
  - reflexivity.
  - by_compute.
Defined.
